(** * subdomain-storage-sync: a shallow embedding and its properties

    The library mirrors [localStorage]/[sessionStorage] writes into cookies
    of the parent domain and replays those cookies into storage on load.
    This development embeds the engine of the library
    (sanitisation, the cookie codec, the key matcher, the replay pass, the
    two change interceptors and the readiness promise) together with the
    host primitives it calls ([encodeURIComponent], [decodeURIComponent],
    [document.cookie], the [Storage] methods and [window.dispatchEvent]),
    and proves the properties the specification states about them.

    Layout: the definitions come first (host model, then the library in
    source order), the lemmas and theorems follow. *)

From Stdlib Require Import String Ascii DecimalString DecimalZ.
From Stdlib Require Import List NArith ZArith Lia Bool Permutation.
Import ListNotations.

Set Implicit Arguments.
Set Warnings "-register-all".
Set Warnings "-notation-overridden".
Local Open Scope list_scope.

(* ===================================================================== *)
(** * Part I. Definitions                                                 *)
(* ===================================================================== *)

(* --------------------------------------------------------------------- *)
(** ** JavaScript strings

    A JavaScript string is a sequence of UTF-16 code units; [length],
    [indexOf], [substring], [split] and the regular expressions of the
    library all work on code units.  A code unit is a number below
    [65536]. *)

Definition codeunit := N.
Definition jstring := list codeunit.

Definition is_codeunit (c : codeunit) : bool := (c <? 65536)%N.
Definition is_jstring (s : jstring) : bool := forallb is_codeunit s.

(** String literals of the source are written [js "..."]. *)
Definition js (s : string) : jstring := map N_of_ascii (list_ascii_of_string s).

Fixpoint jstring_eqb (a b : jstring) : bool :=
  match a, b with
  | [], [] => true
  | x :: a', y :: b' => (x =? y)%N && jstring_eqb a' b'
  | _, _ => false
  end.

(** [WhiteSpace] and [LineTerminator] of ECMAScript: the characters that
    [\s] matches and that [String.prototype.trim] strips. *)
Definition is_whitespace (c : codeunit) : bool :=
  ((9 <=? c) && (c <=? 13) || (c =? 32) || (c =? 160) || (c =? 5760)
   || (8192 <=? c) && (c <=? 8202) || (c =? 8232) || (c =? 8233)
   || (c =? 8239) || (c =? 8287) || (c =? 12288) || (c =? 65279))%N.

Definition is_digit (c : codeunit) : bool := ((48 <=? c) && (c <=? 57))%N.

Fixpoint drop_while (p : codeunit -> bool) (s : jstring) : jstring :=
  match s with
  | [] => []
  | c :: s' => if p c then drop_while p s' else s
  end.

(** [s.trim()] *)
Definition trim (s : jstring) : jstring :=
  rev (drop_while is_whitespace (rev (drop_while is_whitespace s))).

(** [s.indexOf(c)] for a one-character needle; [None] stands for [-1]. *)
Fixpoint indexOf (c : codeunit) (s : jstring) : option nat :=
  match s with
  | [] => None
  | x :: s' => if (x =? c)%N then Some 0%nat
               else option_map S (indexOf c s')
  end.

(** [s.substring(i, j)] and [s.substring(i)] for [i <= j]. *)
Definition substring (i j : nat) (s : jstring) : jstring := firstn (j - i) (skipn i s).
Definition substring_from (i : nat) (s : jstring) : jstring := skipn i s.

(** [s.startsWith(p)] *)
Fixpoint startsWith (p s : jstring) : bool :=
  match p, s with
  | [], _ => true
  | x :: p', y :: s' => (x =? y)%N && startsWith p' s'
  | _ :: _, [] => false
  end.

(** [s.split(sep)] for a one-character separator: never the empty array,
    [""] splits into [[""]]. *)
Fixpoint split (sep : codeunit) (s : jstring) : list jstring :=
  match s with
  | [] => [[]]
  | c :: s' =>
      if (c =? sep)%N then [] :: split sep s'
      else match split sep s' with
           | [] => [[c]]
           | p :: ps => (c :: p) :: ps
           end
  end.

(** [parts.join(sep)] *)
Fixpoint join (sep : jstring) (parts : list jstring) : jstring :=
  match parts with
  | [] => []
  | [p] => p
  | p :: ps => p ++ sep ++ join sep ps
  end.

(** [parts.slice(-n)]: the last [n] elements. *)
Definition slice_last {A} (n : nat) (l : list A) : list A :=
  skipn (length l - n) l.

(** Association lists keyed by strings, in insertion order: the cookie
    store, the storage areas and plain objects are such lists. *)
Fixpoint assoc_get {V} (k : jstring) (l : list (jstring * V)) : option V :=
  match l with
  | [] => None
  | e :: r => if jstring_eqb (fst e) k then Some (snd e) else assoc_get k r
  end.

Fixpoint assoc_put {V} (k : jstring) (v : V) (l : list (jstring * V))
  : list (jstring * V) :=
  match l with
  | [] => [(k, v)]
  | e :: r => if jstring_eqb (fst e) k then (k, v) :: r
              else e :: assoc_put k v r
  end.

Definition assoc_remove {V} (k : jstring) (l : list (jstring * V))
  : list (jstring * V) :=
  filter (fun e => negb (jstring_eqb (fst e) k)) l.

(** The number a string of decimal digits denotes. *)
Definition digits_value (s : jstring) : N :=
  fold_left (fun acc c => (acc * 10 + (c - 48))%N) s 0%N.

(* --------------------------------------------------------------------- *)
(** ** JavaScript values

    The public functions are called with whatever the page passes, and the
    configuration record holds whatever the page assigned, so keys, values
    and configuration fields are values of any type.  Numbers are the
    integer-valued ones and the three specials; a regular expression is its
    source text and its [test] as a function of the subject (the
    [lastIndex] state of global and sticky expressions is not modelled);
    [JObject] is a plain object. *)

Inductive jsnum : Type :=
| NumInt (z : Z)
| NumNaN
| NumPosInf
| NumNegInf.

Record RegExp : Type := mkRegExp {
  re_source : jstring;
  re_flags : jstring;
  re_test : jstring -> bool
}.

Inductive jsval : Type :=
| JUndefined
| JNull
| JBool (b : bool)
| JNum (n : jsnum)
| JStr (s : jstring)
| JRegExp (r : RegExp)
| JArr (l : list jsval)
| JObject.

(** [typeof v] *)
Definition typeof (v : jsval) : jstring :=
  match v with
  | JUndefined => js "undefined"
  | JNull => js "object"
  | JBool _ => js "boolean"
  | JNum _ => js "number"
  | JStr _ => js "string"
  | JRegExp _ | JArr _ | JObject => js "object"
  end.

(** [ToBoolean]: what [if (v)] and [!v] see. *)
Definition truthy (v : jsval) : bool :=
  match v with
  | JUndefined | JNull => false
  | JBool b => b
  | JNum (NumInt z) => negb (z =? 0)%Z
  | JNum NumNaN => false
  | JNum _ => true
  | JStr s => negb (Nat.eqb (length s) 0)
  | JRegExp _ | JArr _ | JObject => true
  end.

(** [String(n)]: an integer prints as its decimal numeral (below [10^21]
    in magnitude, where JavaScript uses no exponent). *)
Definition num_to_string (n : jsnum) : jstring :=
  match n with
  | NumInt z => js (NilZero.string_of_int (Z.to_int z))
  | NumNaN => js "NaN"
  | NumPosInf => js "Infinity"
  | NumNegInf => js "-Infinity"
  end.

(** [String(v)] *)
Fixpoint to_string (v : jsval) : jstring :=
  match v with
  | JUndefined => js "undefined"
  | JNull => js "null"
  | JBool true => js "true"
  | JBool false => js "false"
  | JNum n => num_to_string n
  | JStr s => s
  | JRegExp r => js "/" ++ re_source r ++ js "/" ++ re_flags r
  | JArr l =>
      let elt (x : jsval) : jstring :=
        match x with
        | JUndefined | JNull => []
        | _ => to_string x
        end in
      (fix join_elts (l : list jsval) : jstring :=
         match l with
         | [] => []
         | [x] => elt x
         | x :: l' => elt x ++ js "," ++ join_elts l'
         end) l
  | JObject => js "[object Object]"
  end.

(** [v === s] for a string [s]. *)
Definition strict_eq_str (v : jsval) (lit : jstring) : bool :=
  match v with
  | JStr s => jstring_eqb s lit
  | _ => false
  end.

(** The option monad threads the exceptions of the host primitives:
    [None] is a thrown error. *)
Definition bind {A B} (x : option A) (f : A -> option B) : option B :=
  match x with
  | Some a => f a
  | None => None
  end.

Notation "x <- e ;; k" := (bind e (fun x => k))
  (at level 61, e at next level, right associativity).

(* --------------------------------------------------------------------- *)
(** ** Configuration ([CONFIG], source lines 246-292)

    [RawConfig] is the record as the page may have left it, every field
    holding any value: this is what [validateConfig] inspects.  [Config] is
    the record with every field of its declared type, which is what the
    rest of the library reads. *)

Record RawConfig : Type := mkRawConfig {
  raw_cookiePrefix : jsval;
  raw_cookieMaxAge : jsval;
  raw_syncKeys : jsval;
  raw_overwriteExisting : jsval;
  raw_storageType : jsval;
  raw_debug : jsval
}.

Record Config : Type := mkConfig {
  cookiePrefix : jstring;
  cookieMaxAge : jsnum;
  syncKeys : list jsval;
  overwriteExisting : bool;
  storageType : jstring;
  debug : bool
}.

(** [365 * 24 * 60 * 60] *)
Definition one_year : Z := (365 * 24 * 60 * 60)%Z.

(** The record the module starts with. *)
Definition default_config : Config :=
  {| cookiePrefix := js "sds_sync_";
     cookieMaxAge := NumInt one_year;
     syncKeys := [];
     overwriteExisting := false;
     storageType := js "localStorage";
     debug := false |}.

Definition to_raw (c : Config) : RawConfig :=
  {| raw_cookiePrefix := JStr (cookiePrefix c);
     raw_cookieMaxAge := JNum (cookieMaxAge c);
     raw_syncKeys := JArr (syncKeys c);
     raw_overwriteExisting := JBool (overwriteExisting c);
     raw_storageType := JStr (storageType c);
     raw_debug := JBool (debug c) |}.

Definition of_raw (r : RawConfig) : option Config :=
  match raw_cookiePrefix r, raw_cookieMaxAge r, raw_syncKeys r,
        raw_overwriteExisting r, raw_storageType r, raw_debug r with
  | JStr p, JNum a, JArr ks, JBool o, JStr t, JBool d =>
      Some {| cookiePrefix := p; cookieMaxAge := a; syncKeys := ks;
              overwriteExisting := o; storageType := t; debug := d |}
  | _, _, _, _, _, _ => None
  end.

(* --------------------------------------------------------------------- *)
(** ** Sanitisation (source lines 392-443) *)

(** The class [[;,\s=]] of [sanitizeKey]. *)
Definition is_forbidden (c : codeunit) : bool :=
  ((c =? 59) || (c =? 44) || (c =? 61))%N || is_whitespace c.

Definition underscore : codeunit := 95%N.

(** [key.replace(/[;,\s=]/g, "_")] *)
Definition replace_forbidden (key : jstring) : jstring :=
  map (fun c => if is_forbidden c then underscore else c) key.

(** [sanitizeKey]: [None] is the [null] of the source. *)
Definition sanitizeKey (key : jsval) : option jstring :=
  match key with
  | JStr k =>
      if Nat.eqb (length k) 0 then None
      else if Nat.ltb 200 (length k) then None
      else Some (replace_forbidden k)
  | _ => None
  end.

Definition maxSize : nat := 3500.

(** [sanitizeValue]: [None] is the [null] of the source. *)
Definition sanitizeValue (value : jsval) : option jstring :=
  match value with
  | JNull | JUndefined => Some []
  | _ =>
      let value := match value with
                   | JStr s => s
                   | _ => to_string value
                   end in
      if Nat.ltb maxSize (length value) then None else Some value
  end.

(* --------------------------------------------------------------------- *)
(** ** Domain resolver (source lines 460-475) *)

Definition digits_then (s : jstring) : option jstring :=
  match s with
  | c :: _ => if is_digit c then Some (drop_while is_digit s) else None
  | [] => None
  end.

Definition dot : codeunit := 46%N.

Definition dot_then (s : jstring) : option jstring :=
  match s with
  | c :: r => if (c =? dot)%N then Some r else None
  | [] => None
  end.

(** [/^\d+\.\d+\.\d+\.\d+$/.test(hostname)].  A run of digits is always
    followed by a character that is not a digit, so the greedy scan decides
    the match. *)
Definition dotted_quad_test (hostname : jstring) : bool :=
  match (r1 <- digits_then hostname ;; r2 <- dot_then r1 ;;
         r3 <- digits_then r2 ;; r4 <- dot_then r3 ;;
         r5 <- digits_then r4 ;; r6 <- dot_then r5 ;;
         digits_then r6) with
  | Some [] => true
  | _ => false
  end.

(** [getParentDomain], with [window.location.hostname] as its argument. *)
Definition getParentDomain (hostname : jstring) : jstring :=
  if jstring_eqb hostname (js "localhost") || dotted_quad_test hostname
  then hostname
  else
    let parts := split dot hostname in
    if Nat.ltb 2 (length parts)
    then js "." ++ join (js ".") (slice_last 2 parts)
    else js "." ++ hostname.

(* --------------------------------------------------------------------- *)
(** ** Storage selection (source lines 482-504) *)

Inductive StorageId : Type := LocalStorage | SessionStorage.

Definition StorageId_eqb (a b : StorageId) : bool :=
  match a, b with
  | LocalStorage, LocalStorage | SessionStorage, SessionStorage => true
  | _, _ => false
  end.

(** [getStorageObjects] *)
Definition getStorageObjects (cfg : Config) : list StorageId :=
  (if jstring_eqb (storageType cfg) (js "localStorage")
      || jstring_eqb (storageType cfg) (js "both")
   then [LocalStorage] else [])
  ++
  (if jstring_eqb (storageType cfg) (js "sessionStorage")
      || jstring_eqb (storageType cfg) (js "both")
   then [SessionStorage] else []).

(** [getStorageName] *)
Definition getStorageName (storage : StorageId) : jstring :=
  if StorageId_eqb storage LocalStorage then js "localStorage"
  else js "sessionStorage".

(* --------------------------------------------------------------------- *)
(** ** Validation (source lines 511-571) *)

Definition validStorageTypes : list jstring :=
  [js "localStorage"; js "sessionStorage"; js "both"].

(** [array.includes(v)] for an array of string literals. *)
Definition includes (array : list jstring) (v : jsval) : bool :=
  existsb (strict_eq_str v) array.

(** [v <= 0] for a value whose [typeof] is ["number"]. *)
Definition num_le_zero (n : jsnum) : bool :=
  match n with
  | NumInt z => (z <=? 0)%Z
  | NumNaN => false
  | NumPosInf => false
  | NumNegInf => true
  end.

Definition is_typeof (v : jsval) (t : string) : bool :=
  jstring_eqb (typeof v) (js t).

Definition instanceof_RegExp (v : jsval) : bool :=
  match v with
  | JRegExp _ => true
  | _ => false
  end.

(** The predicate of the [filter] over [syncKeys]. *)
Definition valid_syncKey (key : jsval) : bool :=
  if negb (is_typeof key "string") && negb (instanceof_RegExp key) then false
  else if is_typeof key "string"
          && match key with JStr s => Nat.eqb (length s) 0 | _ => false end
  then false
  else true.

Definition set_storageType (v : jsval) (c : RawConfig) : RawConfig :=
  mkRawConfig (raw_cookiePrefix c) (raw_cookieMaxAge c) (raw_syncKeys c)
              (raw_overwriteExisting c) v (raw_debug c).
Definition set_overwriteExisting (v : jsval) (c : RawConfig) : RawConfig :=
  mkRawConfig (raw_cookiePrefix c) (raw_cookieMaxAge c) (raw_syncKeys c)
              v (raw_storageType c) (raw_debug c).
Definition set_debug (v : jsval) (c : RawConfig) : RawConfig :=
  mkRawConfig (raw_cookiePrefix c) (raw_cookieMaxAge c) (raw_syncKeys c)
              (raw_overwriteExisting c) (raw_storageType c) v.
Definition set_cookiePrefix (v : jsval) (c : RawConfig) : RawConfig :=
  mkRawConfig v (raw_cookieMaxAge c) (raw_syncKeys c)
              (raw_overwriteExisting c) (raw_storageType c) (raw_debug c).
Definition set_cookieMaxAge (v : jsval) (c : RawConfig) : RawConfig :=
  mkRawConfig (raw_cookiePrefix c) v (raw_syncKeys c)
              (raw_overwriteExisting c) (raw_storageType c) (raw_debug c).
Definition set_syncKeys (v : jsval) (c : RawConfig) : RawConfig :=
  mkRawConfig (raw_cookiePrefix c) (raw_cookieMaxAge c) v
              (raw_overwriteExisting c) (raw_storageType c) (raw_debug c).

(** One step of [validateConfig]: [if (violated) { CONFIG.f = fallback;
    isValid = false; }]. *)
Definition repair (violated : bool) (fix_it : RawConfig -> RawConfig)
           (s : RawConfig * bool) : RawConfig * bool :=
  if violated then (fix_it (fst s), false) else s.

(** [validateConfig]: the repaired record and [isValid]. *)
Definition validateConfig (CONFIG : RawConfig) : RawConfig * bool :=
  let s := (CONFIG, true) in
  let s := repair (negb (includes validStorageTypes (raw_storageType (fst s))))
                  (set_storageType (JStr (js "localStorage"))) s in
  let s := repair (negb (is_typeof (raw_overwriteExisting (fst s)) "boolean"))
                  (set_overwriteExisting (JBool false)) s in
  let s := repair (negb (is_typeof (raw_debug (fst s)) "boolean"))
                  (set_debug (JBool false)) s in
  let s := repair (negb (is_typeof (raw_cookiePrefix (fst s)) "string")
                   || match raw_cookiePrefix (fst s) with
                      | JStr p => Nat.eqb (length p) 0
                      | _ => false
                      end)
                  (set_cookiePrefix (JStr (js "ls_sync_"))) s in
  let s := repair (negb (is_typeof (raw_cookieMaxAge (fst s)) "number")
                   || match raw_cookieMaxAge (fst s) with
                      | JNum n => num_le_zero n
                      | _ => false
                      end)
                  (set_cookieMaxAge (JNum (NumInt one_year))) s in
  match raw_syncKeys (fst s) with
  | JArr keys => (set_syncKeys (JArr (filter valid_syncKey keys)) (fst s), snd s)
  | _ => (set_syncKeys (JArr []) (fst s), false)
  end.

(* --------------------------------------------------------------------- *)
(** ** Key matcher (source lines 582-599) *)

(** The callback of [CONFIG.syncKeys.some]. *)
Definition rule_matches (key : jsval) (pattern : jsval) : bool :=
  match pattern with
  | JStr p => strict_eq_str key p
  | JRegExp r => re_test r (to_string key)
  | _ => false
  end.

(** [shouldSync] *)
Definition shouldSync (cfg : Config) (key : jsval) : bool :=
  if negb (truthy key) then false
  else if Nat.eqb (length (syncKeys cfg)) 0 then true
  else existsb (rule_matches key) (syncKeys cfg).

(* --------------------------------------------------------------------- *)
(** ** Host: [encodeURIComponent] and [decodeURIComponent]

    After the [Encode] and [Decode] operations of ECMAScript
    (sec. 19.2.6).  Both throw [URIError]; [None] is that exception. *)

Definition in_range (lo hi c : N) : bool := ((lo <=? c) && (c <=? hi))%N.

(** The characters [encodeURIComponent] leaves alone:
    [A-Z a-z 0-9 - _ . ! ~ * ' ( )]. *)
Definition is_unreserved (c : codeunit) : bool :=
  in_range 65 90 c || in_range 97 122 c || in_range 48 57 c
  || (c =? 45)%N || (c =? 95)%N || (c =? 46)%N || (c =? 33)%N
  || (c =? 126)%N || (c =? 42)%N || (c =? 39)%N || (c =? 40)%N
  || (c =? 41)%N.

Definition is_lead_surrogate (c : codeunit) : bool := in_range 55296 56319 c.
Definition is_trail_surrogate (c : codeunit) : bool := in_range 56320 57343 c.

(** [UTF16SurrogatePairToCodePoint] *)
Definition pair_to_codepoint (lead trail : codeunit) : N :=
  ((lead - 55296) * 1024 + (trail - 56320) + 65536)%N.

(** The UTF-8 octets of a code point. *)
Definition utf8 (cp : N) : list N :=
  (if cp <? 128 then [cp]
   else if cp <? 2048 then [192 + cp / 64; 128 + cp mod 64]
   else if cp <? 65536
   then [224 + cp / 4096; 128 + (cp / 64) mod 64; 128 + cp mod 64]
   else [240 + cp / 262144; 128 + (cp / 4096) mod 64;
         128 + (cp / 64) mod 64; 128 + cp mod 64])%N.

Definition percent_sign : codeunit := 37%N.

(** Upper-case hexadecimal digit. *)
Definition hex_digit (d : N) : codeunit :=
  (if d <? 10 then 48 + d else 55 + d)%N.

Definition hex_value (c : codeunit) : option N :=
  (if in_range 48 57 c then Some (c - 48)
   else if in_range 65 70 c then Some (c - 55)
   else if in_range 97 102 c then Some (c - 87)
   else None)%N.

(** ["%XX"] for one octet. *)
Definition escape_octet (b : N) : jstring :=
  [percent_sign; hex_digit (b / 16); hex_digit (b mod 16)]%N.

Definition escape_octets (bs : list N) : jstring := flat_map escape_octet bs.

Fixpoint encodeURIComponent (s : jstring) : option jstring :=
  match s with
  | [] => Some []
  | c :: rest =>
      if is_unreserved c then
        r <- encodeURIComponent rest ;; Some (c :: r)
      else if is_lead_surrogate c then
        match rest with
        | d :: rest' =>
            if is_trail_surrogate d then
              r <- encodeURIComponent rest' ;;
              Some (escape_octets (utf8 (pair_to_codepoint c d)) ++ r)
            else None
        | [] => None
        end
      else if is_trail_surrogate c then None
      else r <- encodeURIComponent rest ;; Some (escape_octets (utf8 c) ++ r)
  end.

(** Decoding in two passes over the same string: the escapes are read
    first, the octets they denote are then read as UTF-8. *)
Inductive token : Type :=
| Lit (c : codeunit)
| Oct (b : N).

Fixpoint unescape (s : jstring) : option (list token) :=
  match s with
  | [] => Some []
  | c :: rest =>
      if (c =? percent_sign)%N then
        match rest with
        | h1 :: h2 :: rest' =>
            a <- hex_value h1 ;; b <- hex_value h2 ;;
            r <- unescape rest' ;; Some (Oct (16 * a + b)%N :: r)
        | _ => None
        end
      else r <- unescape rest ;; Some (Lit c :: r)
  end.

(** [UTF16EncodeCodePoint] *)
Definition utf16 (cp : N) : jstring :=
  (if cp <? 65536 then [cp]
   else [55296 + (cp - 65536) / 1024; 56320 + (cp - 65536) mod 1024])%N.

Definition is_continuation (b : N) : bool := in_range 128 191 b.

(** A code point a well-formed sequence of its length may denote: not
    below [lo] (no overlong form), no surrogate, at most [U+10FFFF]. *)
Definition valid_codepoint (lo cp : N) : bool :=
  ((lo <=? cp) && (cp <=? 1114111))%N && negb (in_range 55296 57343 cp).

Definition cont (b : N) : N := (b - 128)%N.

Fixpoint utf8_decode (ts : list token) : option jstring :=
  match ts with
  | [] => Some []
  | Lit c :: r => s <- utf8_decode r ;; Some (c :: s)
  | Oct b :: r =>
      if (b <? 128)%N then s <- utf8_decode r ;; Some (b :: s)
      else if (b <? 192)%N then None
      else if (b <? 224)%N then
        match r with
        | Oct b1 :: r' =>
            let cp := ((b - 192) * 64 + cont b1)%N in
            if is_continuation b1 && valid_codepoint 128 cp
            then s <- utf8_decode r' ;; Some (utf16 cp ++ s)
            else None
        | _ => None
        end
      else if (b <? 240)%N then
        match r with
        | Oct b1 :: Oct b2 :: r' =>
            let cp := ((b - 224) * 4096 + cont b1 * 64 + cont b2)%N in
            if is_continuation b1 && is_continuation b2
               && valid_codepoint 2048 cp
            then s <- utf8_decode r' ;; Some (utf16 cp ++ s)
            else None
        | _ => None
        end
      else if (b <? 248)%N then
        match r with
        | Oct b1 :: Oct b2 :: Oct b3 :: r' =>
            let cp := ((b - 240) * 262144 + cont b1 * 4096
                       + cont b2 * 64 + cont b3)%N in
            if is_continuation b1 && is_continuation b2
               && is_continuation b3 && valid_codepoint 65536 cp
            then s <- utf8_decode r' ;; Some (utf16 cp ++ s)
            else None
        | _ => None
        end
      else None
  end.

Definition decodeURIComponent (s : jstring) : option jstring :=
  ts <- unescape s ;; utf8_decode ts.

(* --------------------------------------------------------------------- *)
(** ** Host: [document.cookie]

    After RFC 6265, sec. 5.2-5.4, for the part the library exercises: the
    store keeps name/value pairs in creation order; assigning a
    set-cookie-string parses it, and a [Max-Age] that is not positive
    expires the cookie of that name.  A host may bound the size of a
    cookie, name and value together, in octets (4096 in the browsers and in
    the revision of the RFC); a string that exceeds the bound is ignored.
    Every cookie the page sees is taken to live in the scope the library
    writes to (the computed domain, path [/]), which the host accepts. *)

Definition Jar := list (jstring * jstring).

Definition semicolon : codeunit := 59%N.
Definition equals_sign : codeunit := 61%N.

Definition is_wsp (c : codeunit) : bool := ((c =? 32) || (c =? 9))%N.

Definition trim_wsp (s : jstring) : jstring :=
  rev (drop_while is_wsp (rev (drop_while is_wsp s))).

(** The text before and after the first [sep], when there is one. *)
Definition cut (sep : codeunit) (s : jstring) : option (jstring * jstring) :=
  match indexOf sep s with
  | Some i => Some (firstn i s, skipn (S i) s)
  | None => None
  end.

Definition to_lower (c : codeunit) : codeunit :=
  if in_range 65 90 c then (c + 32)%N else c.

Fixpoint to_ascii_string (s : jstring) : option string :=
  match s with
  | [] => Some EmptyString
  | c :: r => if (c <? 256)%N
              then option_map (String (ascii_of_N c)) (to_ascii_string r)
              else None
  end.

(** The delta-seconds of a [Max-Age] value: an optional [-] and digits;
    [None] when the attribute is to be ignored. *)
Definition parse_max_age (v : jstring) : option Z :=
  match to_ascii_string v with
  | Some s => option_map Z.of_int (NilZero.int_of_string s)
  | None => None
  end.

(** The [Max-Age] in force after the attributes [avs]: the last one that
    parses. *)
Fixpoint max_age_of (avs : list jstring) (current : option Z) : option Z :=
  match avs with
  | [] => current
  | av :: rest =>
      let '(name, value) := match cut equals_sign av with
                            | Some (n, v) => (trim_wsp n, trim_wsp v)
                            | None => (trim_wsp av, [])
                            end in
      if jstring_eqb (map to_lower name) (js "max-age")
      then match parse_max_age value with
           | Some d => max_age_of rest (Some d)
           | None => max_age_of rest current
           end
      else max_age_of rest current
  end.

Definition jar_remove (name : jstring) (j : Jar) : Jar := assoc_remove name j.

(** A cookie that replaces one of its name keeps that one's place. *)
Definition jar_put (name value : jstring) (j : Jar) : Jar :=
  assoc_put name value j.

(** The octets of a string sent as UTF-8; an unpaired surrogate goes out
    as [U+FFFD]. *)
Fixpoint octets (s : jstring) : nat :=
  match s with
  | [] => 0
  | c :: rest =>
      if is_lead_surrogate c then
        match rest with
        | d :: rest' => if is_trail_surrogate d then 4 + octets rest'
                        else 3 + octets rest
        | [] => 3
        end
      else if is_trail_surrogate c then 3 + octets rest
      else length (utf8 c) + octets rest
  end.

(** [within limit n]: [n] octets fit a host with that bound. *)
Definition within (limit : option nat) (n : nat) : bool :=
  match limit with
  | Some l => Nat.leb n l
  | None => true
  end.

(** [document.cookie = s] on a host with the given bound. *)
Definition cookie_assign (limit : option nat) (s : jstring) (j : Jar) : Jar :=
  match split semicolon s with
  | [] => j
  | nameValue :: avs =>
      match cut equals_sign nameValue with
      | None => j
      | Some (n, v) =>
          let name := trim_wsp n in
          let value := trim_wsp v in
          if Nat.eqb (length name) 0 then j
          else if negb (within limit (octets name + octets value)) then j
          else match max_age_of avs None with
               | Some d => if (d <=? 0)%Z then jar_remove name j
                           else jar_put name value j
               | None => jar_put name value j
               end
      end
  end.

(** The value of [document.cookie]: [name=value] for every cookie,
    separated by ["; "]. *)
Definition cookie_text (e : jstring * jstring) : jstring :=
  fst e ++ js "=" ++ snd e.

Definition cookie_string (j : Jar) : jstring :=
  join (js "; ") (map cookie_text j).

(** The document: its cookie store, the bound of the host on the size of
    a cookie, if any, and, for counting, every string that was assigned to
    [document.cookie], oldest first. *)
Record Document : Type := mkDocument {
  jar : Jar;
  assigned : list jstring;
  size_limit : option nat
}.

Definition document_cookie_set (s : jstring) (d : Document) : Document :=
  {| jar := cookie_assign (size_limit d) s (jar d);
     assigned := assigned d ++ [s];
     size_limit := size_limit d |}.

Definition document_cookie (d : Document) : jstring := cookie_string (jar d).

(* --------------------------------------------------------------------- *)
(** ** Cookie codec (source lines 612-755) *)

(** [writeToCookie]: the result and the document afterwards.  The [catch]
    of the source turns the [URIError] of [encodeURIComponent] into
    [false]. *)
Definition writeToCookie (cfg : Config) (hostname : jstring)
           (key value : jsval) (d : Document) : bool * Document :=
  match sanitizeKey key with
  | None | Some [] => (false, d)
  | Some sanitizedKey =>
      match sanitizeValue value with
      | None => (false, d)
      | Some sanitizedValue =>
          let cookieName := cookiePrefix cfg ++ sanitizedKey in
          let domain := getParentDomain hostname in
          let maxAge := cookieMaxAge cfg in
          match encodeURIComponent sanitizedValue with
          | None => (false, d)
          | Some encodedValue =>
              (true,
               document_cookie_set
                 (cookieName ++ js "=" ++ encodedValue
                  ++ js "; max-age=" ++ num_to_string maxAge
                  ++ js "; domain=" ++ domain
                  ++ js "; path=/; SameSite=Lax") d)
          end
      end
  end.

(** [deleteFromCookie] *)
Definition deleteFromCookie (cfg : Config) (hostname : jstring)
           (key : jsval) (d : Document) : bool * Document :=
  match sanitizeKey key with
  | None | Some [] => (false, d)
  | Some sanitizedKey =>
      let cookieName := cookiePrefix cfg ++ sanitizedKey in
      let domain := getParentDomain hostname in
      (true,
       document_cookie_set
         (cookieName ++ js "=; max-age=0; domain=" ++ domain
          ++ js "; path=/; SameSite=Lax") d)
  end.

(** The [for] loop of [readFromCookie]; [None] is [null]. *)
Fixpoint find_cookie (cookieName : jstring) (cookies : list jstring)
  : option jstring :=
  match cookies with
  | [] => None
  | cookie :: rest =>
      let trimmed := trim cookie in
      match indexOf equals_sign trimmed with
      | None => find_cookie cookieName rest
      | Some equalIndex =>
          let name := substring 0 equalIndex trimmed in
          let value := substring_from (equalIndex + 1) trimmed in
          if jstring_eqb name cookieName
          then decodeURIComponent value
          else find_cookie cookieName rest
      end
  end.

(** [readFromCookie]; [None] is [null]. *)
Definition readFromCookie (cfg : Config) (key : jsval) (d : Document)
  : option jstring :=
  match sanitizeKey key with
  | None | Some [] => None
  | Some sanitizedKey =>
      let cookieName := cookiePrefix cfg ++ sanitizedKey in
      if Nat.eqb (length (document_cookie d)) 0 then None
      else find_cookie cookieName (split semicolon (document_cookie d))
  end.

(* --------------------------------------------------------------------- *)
(** ** Plain objects used as maps ([syncData])

    The own properties in creation order.  [o[k] = v] with [k] equal to
    ["__proto__"] runs the setter of [Object.prototype], which ignores a
    string, and creates no property.  [Object.keys] and [Object.entries]
    list the array indices first, in ascending order, then the other keys
    in creation order. *)

Definition Obj := list (jstring * jstring).

Definition obj_set (k v : jstring) (o : Obj) : Obj :=
  if jstring_eqb k (js "__proto__") then o else assoc_put k v o.

(** The array index a key denotes, if it is one: a canonical decimal
    numeral of an integer up to [2^32 - 2]. *)
Definition array_index (k : jstring) : option N :=
  match k with
  | [] => None
  | c :: r =>
      if forallb is_digit k
         && (negb (c =? 48)%N || Nat.eqb (length r) 0)
         && (digits_value k <=? 4294967294)%N
      then Some (digits_value k)
      else None
  end.

Fixpoint insert_by_index (x : N * (jstring * jstring))
         (l : list (N * (jstring * jstring))) : list (N * (jstring * jstring)) :=
  match l with
  | [] => [x]
  | y :: r => if (fst x <=? fst y)%N then x :: l
              else y :: insert_by_index x r
  end.

Definition indexed (o : Obj) : list (N * (jstring * jstring)) :=
  flat_map (fun e => match array_index (fst e) with
                     | Some n => [(n, e)]
                     | None => []
                     end) o.

Definition is_named (e : jstring * jstring) : bool :=
  match array_index (fst e) with
  | Some _ => false
  | None => true
  end.

(** [Object.entries(o)] *)
Definition Object_entries (o : Obj) : list (jstring * jstring) :=
  map snd (fold_right insert_by_index [] (indexed o)) ++ filter is_named o.

(** [Object.keys(o)] *)
Definition Object_keys (o : Obj) : list jstring := map fst (Object_entries o).

(* --------------------------------------------------------------------- *)
(** ** [getAllSyncCookies] (source lines 731-755)

    The [try] encloses the whole loop: a value that does not decode ends
    the enumeration, and what was collected so far is returned. *)

Fixpoint collect_cookies (cfg : Config) (cookies : list jstring)
         (syncData : Obj) : Obj :=
  match cookies with
  | [] => syncData
  | cookie :: rest =>
      let trimmed := trim cookie in
      match indexOf equals_sign trimmed with
      | None => collect_cookies cfg rest syncData
      | Some equalIndex =>
          let name := substring 0 equalIndex trimmed in
          let value := substring_from (equalIndex + 1) trimmed in
          if negb (Nat.eqb (length name) 0) && startsWith (cookiePrefix cfg) name
          then
            let key := substring_from (length (cookiePrefix cfg)) name in
            match decodeURIComponent value with
            | Some decoded => collect_cookies cfg rest (obj_set key decoded syncData)
            | None => syncData
            end
          else collect_cookies cfg rest syncData
      end
  end.

Definition getAllSyncCookies (cfg : Config) (d : Document) : Obj :=
  collect_cookies cfg (split semicolon (document_cookie d)) [].

(* --------------------------------------------------------------------- *)
(** ** [clearAllSyncCookies] (source lines 766-785)

    The [for ... in] loop visits the own properties of the snapshot in the
    order of [Object.keys]; the snapshot is taken once, before the first
    deletion. *)

(** The body of the loop, for one key of the snapshot: [count] and the
    document. *)
Definition clear_one (cfg : Config) (hostname : jstring)
           (acc : nat * Document) (key : jstring) : nat * Document :=
  let (count, d) := acc in
  let (deleted, d') := deleteFromCookie cfg hostname (JStr key) d in
  (if deleted then S count else count, d').

(** [clearAllSyncCookies]: the count it returns and the document
    afterwards. *)
Definition clearAllSyncCookies (cfg : Config) (hostname : jstring)
           (d : Document) : nat * Document :=
  let cookies := getAllSyncCookies cfg d in
  fold_left (clear_one cfg hostname) (Object_keys cookies) (0%nat, d).

(* --------------------------------------------------------------------- *)
(** ** Host: storage areas

    A storage area is its key/value list and the quota of the origin, if
    any; the native [setItem] throws [QuotaExceededError] when the new
    content would not fit, and leaves the area as it was. *)

Record Storage : Type := mkStorage {
  items : list (jstring * jstring);
  quota : option nat
}.

Definition storage_size (l : list (jstring * jstring)) : nat :=
  fold_right (fun e n => (length (fst e) + length (snd e) + n)%nat) 0%nat l.

Definition native_getItem (k : jstring) (st : Storage) : option jstring :=
  assoc_get k (items st).

Definition native_setItem (k v : jstring) (st : Storage) : option Storage :=
  let items' := assoc_put k v (items st) in
  match quota st with
  | Some q => if Nat.ltb q (storage_size items') then None
              else Some (mkStorage items' (quota st))
  | None => Some (mkStorage items' (quota st))
  end.

Definition native_removeItem (k : jstring) (st : Storage) : Storage :=
  mkStorage (assoc_remove k (items st)) (quota st).

Definition native_clear (st : Storage) : Storage := mkStorage [] (quota st).

(** [Object.keys(storage)]: the keys the area holds.  (A key that bears
    the name of a member of the prototype chain, such as [length], is a
    case the hosts do not agree on; the page is taken to use none.) *)
Definition storage_keys (st : Storage) : list jstring := map fst (items st).

(* --------------------------------------------------------------------- *)
(** ** The page and the module state

    [Method] is what a slot of [Storage.prototype] holds: the native
    function, or the function [setupLocalChangeDetection] installs, which
    calls the primitive [original] it refers to and then mirrors the
    change. *)

Inductive Method : Type :=
| Native
| Wrapper (original : Method).

Record SyncedKey : Type := mkSyncedKey {
  synced_key : jstring;
  synced_storageType : jstring;
  synced_overwritten : bool
}.

Record SkippedKey : Type := mkSkippedKey {
  skipped_key : jstring;
  skipped_storageType : jstring;
  skipped_reason : jstring
}.

(** The [detail] of a [storagesynccomplete] event. *)
Record SyncReport : Type := mkSyncReport {
  syncedCount : nat;
  syncedKeys : list SyncedKey;
  skippedKeys : list SkippedKey;
  totalCookies : nat
}.

(** One application of the native [setItem]: area, key, value, and
    whether it returned normally. *)
Record NativeSet : Type := mkNativeSet {
  ns_storage : StorageId;
  ns_key : jstring;
  ns_value : jstring;
  ns_ok : bool
}.

Record World : Type := mkWorld {
  (* the page *)
  hostname : jstring;                    (* window.location.hostname *)
  document : Document;
  localStorage : Storage;
  sessionStorage : Storage;
  Storage_setItem : Method;              (* Storage.prototype.setItem *)
  Storage_removeItem : Method;
  Storage_clear : Method;
  nativeSets : list NativeSet;           (* native setItem calls so far *)
  dispatched : list SyncReport;          (* storagesynccomplete events so far *)
  (* the module *)
  CONFIG : Config;
  originalSetItem : Method;
  originalRemoveItem : Method;
  originalClear : Method;
  storageListeners : nat;                (* "storage" listeners added *)
  syncCompleteListener : bool;           (* "storagesynccomplete" listener added *)
  syncCompleteResolve : bool;            (* syncCompleteResolve is not null *)
  syncCompletePromise : option SyncReport; (* None: pending *)
  isInitialized : bool
}.

Definition set_document (d : Document) (w : World) : World :=
  mkWorld (hostname w) d (localStorage w) (sessionStorage w)
          (Storage_setItem w) (Storage_removeItem w) (Storage_clear w)
          (nativeSets w) (dispatched w) (CONFIG w)
          (originalSetItem w) (originalRemoveItem w) (originalClear w)
          (storageListeners w) (syncCompleteListener w)
          (syncCompleteResolve w) (syncCompletePromise w) (isInitialized w).

Definition storage_of (w : World) (s : StorageId) : Storage :=
  match s with
  | LocalStorage => localStorage w
  | SessionStorage => sessionStorage w
  end.

Definition set_storage (s : StorageId) (st : Storage) (w : World) : World :=
  mkWorld (hostname w) (document w)
          (match s with LocalStorage => st | SessionStorage => localStorage w end)
          (match s with LocalStorage => sessionStorage w | SessionStorage => st end)
          (Storage_setItem w) (Storage_removeItem w) (Storage_clear w)
          (nativeSets w) (dispatched w) (CONFIG w)
          (originalSetItem w) (originalRemoveItem w) (originalClear w)
          (storageListeners w) (syncCompleteListener w)
          (syncCompleteResolve w) (syncCompletePromise w) (isInitialized w).

Definition log_nativeSet (e : NativeSet) (w : World) : World :=
  mkWorld (hostname w) (document w) (localStorage w) (sessionStorage w)
          (Storage_setItem w) (Storage_removeItem w) (Storage_clear w)
          (nativeSets w ++ [e]) (dispatched w) (CONFIG w)
          (originalSetItem w) (originalRemoveItem w) (originalClear w)
          (storageListeners w) (syncCompleteListener w)
          (syncCompleteResolve w) (syncCompletePromise w) (isInitialized w).

Definition log_dispatched (r : SyncReport) (w : World) : World :=
  mkWorld (hostname w) (document w) (localStorage w) (sessionStorage w)
          (Storage_setItem w) (Storage_removeItem w) (Storage_clear w)
          (nativeSets w) (dispatched w ++ [r]) (CONFIG w)
          (originalSetItem w) (originalRemoveItem w) (originalClear w)
          (storageListeners w) (syncCompleteListener w)
          (syncCompleteResolve w) (syncCompletePromise w) (isInitialized w).

Definition set_CONFIG (c : Config) (w : World) : World :=
  mkWorld (hostname w) (document w) (localStorage w) (sessionStorage w)
          (Storage_setItem w) (Storage_removeItem w) (Storage_clear w)
          (nativeSets w) (dispatched w) c
          (originalSetItem w) (originalRemoveItem w) (originalClear w)
          (storageListeners w) (syncCompleteListener w)
          (syncCompleteResolve w) (syncCompletePromise w) (isInitialized w).

Definition set_prototype (setItem removeItem clear : Method) (w : World) : World :=
  mkWorld (hostname w) (document w) (localStorage w) (sessionStorage w)
          setItem removeItem clear
          (nativeSets w) (dispatched w) (CONFIG w)
          (originalSetItem w) (originalRemoveItem w) (originalClear w)
          (storageListeners w) (syncCompleteListener w)
          (syncCompleteResolve w) (syncCompletePromise w) (isInitialized w).

Definition add_storageListener (w : World) : World :=
  mkWorld (hostname w) (document w) (localStorage w) (sessionStorage w)
          (Storage_setItem w) (Storage_removeItem w) (Storage_clear w)
          (nativeSets w) (dispatched w) (CONFIG w)
          (originalSetItem w) (originalRemoveItem w) (originalClear w)
          (S (storageListeners w)) (syncCompleteListener w)
          (syncCompleteResolve w) (syncCompletePromise w) (isInitialized w).

Definition set_promise (listener resolve : bool) (p : option SyncReport)
           (w : World) : World :=
  mkWorld (hostname w) (document w) (localStorage w) (sessionStorage w)
          (Storage_setItem w) (Storage_removeItem w) (Storage_clear w)
          (nativeSets w) (dispatched w) (CONFIG w)
          (originalSetItem w) (originalRemoveItem w) (originalClear w)
          (storageListeners w) listener resolve p (isInitialized w).

Definition set_isInitialized (b : bool) (w : World) : World :=
  mkWorld (hostname w) (document w) (localStorage w) (sessionStorage w)
          (Storage_setItem w) (Storage_removeItem w) (Storage_clear w)
          (nativeSets w) (dispatched w) (CONFIG w)
          (originalSetItem w) (originalRemoveItem w) (originalClear w)
          (storageListeners w) (syncCompleteListener w)
          (syncCompleteResolve w) (syncCompletePromise w) b.

(* --------------------------------------------------------------------- *)
(** ** Same-tab interception (source lines 938-1020)

    [call_setItem fn this key value w] runs what the slot [fn] holds with
    [this] as receiver.  The boolean is [false] when the call threw: the
    wrappers log and re-throw the error of the native primitive. *)

(** [shouldSyncStorage] *)
Definition shouldSyncStorage (cfg : Config) (storage : StorageId) : bool :=
  let isLocalStorage := StorageId_eqb storage LocalStorage in
  let isSessionStorage := StorageId_eqb storage SessionStorage in
  (isLocalStorage && (jstring_eqb (storageType cfg) (js "localStorage")
                      || jstring_eqb (storageType cfg) (js "both")))
  || (isSessionStorage && (jstring_eqb (storageType cfg) (js "sessionStorage")
                           || jstring_eqb (storageType cfg) (js "both"))).

Definition mirror_write (key value : jsval) (w : World) : World :=
  set_document (snd (writeToCookie (CONFIG w) (hostname w) key value (document w))) w.

Definition mirror_delete (key : jsval) (w : World) : World :=
  set_document (snd (deleteFromCookie (CONFIG w) (hostname w) key (document w))) w.

Fixpoint call_setItem (fn : Method) (this : StorageId) (key value : jsval)
         (w : World) : World * bool :=
  match fn with
  | Native =>
      let k := to_string key in
      let v := to_string value in
      match native_setItem k v (storage_of w this) with
      | Some st =>
          (log_nativeSet (mkNativeSet this k v true) (set_storage this st w), true)
      | None => (log_nativeSet (mkNativeSet this k v false) w, false)
      end
  | Wrapper original =>
      let (w1, returned) := call_setItem original this key value w in
      if returned then
        if shouldSyncStorage (CONFIG w1) this && shouldSync (CONFIG w1) key
        then (mirror_write key value w1, true)
        else (w1, true)
      else (w1, false)
  end.

Fixpoint call_removeItem (fn : Method) (this : StorageId) (key : jsval)
         (w : World) : World :=
  match fn with
  | Native =>
      set_storage this (native_removeItem (to_string key) (storage_of w this)) w
  | Wrapper original =>
      let w1 := call_removeItem original this key w in
      if shouldSyncStorage (CONFIG w1) this && shouldSync (CONFIG w1) key
      then mirror_delete key w1
      else w1
  end.

(** The [forEach] of the [clear] wrapper. *)
Definition delete_synced (keys : list jstring) (w : World) : World :=
  fold_left (fun w key => if shouldSync (CONFIG w) (JStr key)
                          then mirror_delete (JStr key) w
                          else w) keys w.

Fixpoint call_clear (fn : Method) (this : StorageId) (w : World) : World :=
  match fn with
  | Native => set_storage this (native_clear (storage_of w this)) w
  | Wrapper original =>
      if shouldSyncStorage (CONFIG w) this then
        let keys := storage_keys (storage_of w this) in
        let w1 := call_clear original this w in
        delete_synced keys w1
      else call_clear original this w
  end.

(** [setupLocalChangeDetection]: the three slots are assigned functions
    that refer to the primitives captured at module load. *)
Definition setupLocalChangeDetection (w : World) : World :=
  set_prototype (Wrapper (originalSetItem w)) (Wrapper (originalRemoveItem w))
                (Wrapper (originalClear w)) w.

(* --------------------------------------------------------------------- *)
(** ** Cross-tab listener (source lines 886-924) *)



Definition setupStorageListener (w : World) : World := add_storageListener w.


(* --------------------------------------------------------------------- *)
(** ** Readiness signal (source lines 860-872 and 1085-1097) *)

(** The module's listener for [storagesynccomplete]. *)
Definition syncComplete_listener (detail : SyncReport) (w : World) : World :=
  if syncCompleteResolve w then
    set_promise (syncCompleteListener w) false
                (match syncCompletePromise w with
                 | None => Some detail
                 | Some first => Some first
                 end) w
  else w.

(** [dispatchSyncCompleteEvent]: [window.dispatchEvent] runs the listeners
    that are registered at that moment. *)
Definition dispatchSyncCompleteEvent (detail : SyncReport) (w : World) : World :=
  let w1 := log_dispatched detail w in
  if syncCompleteListener w1 then syncComplete_listener detail w1 else w1.

(** [StorageSync.ready()] *)
Definition ready (w : World) : option SyncReport := syncCompletePromise w.

(* --------------------------------------------------------------------- *)
(** ** Sync engine (source lines 800-853) *)

(** The variables of the inner loop. *)
Record Pass : Type := mkPass {
  pass_world : World;
  pass_syncCount : nat;
  pass_syncedKeys : list SyncedKey;
  pass_skippedKeys : list SkippedKey
}.

Definition is_null {A} (x : option A) : bool :=
  match x with
  | None => true
  | Some _ => false
  end.

(** The body of the inner loop, for one entry of [syncData]. *)
Definition sync_entry (storage : StorageId) (entry : jstring * jstring)
           (p : Pass) : Pass :=
  let w := pass_world p in
  let storageName := getStorageName storage in
  let key := fst entry in
  let value := snd entry in
  if negb (shouldSync (CONFIG w) (JStr key)) then p
  else
    let existingValue := native_getItem key (storage_of w storage) in
    let shouldWrite := overwriteExisting (CONFIG w) || is_null existingValue in
    if shouldWrite && truthy (JStr value) then
      match call_setItem (originalSetItem w) storage (JStr key) (JStr value) w with
      | (w', true) =>
          mkPass w' (S (pass_syncCount p))
                 (pass_syncedKeys p
                  ++ [mkSyncedKey key storageName (negb (is_null existingValue))])
                 (pass_skippedKeys p)
      | (w', false) =>
          mkPass w' (pass_syncCount p) (pass_syncedKeys p) (pass_skippedKeys p)
      end
    else if negb (is_null existingValue) && negb (overwriteExisting (CONFIG w))
    then mkPass w (pass_syncCount p) (pass_syncedKeys p)
                (pass_skippedKeys p ++ [mkSkippedKey key storageName (js "exists")])
    else p.

(** The body of the outer loop, for one storage; [pass_syncCount] of the
    argument and of the result is [totalSyncCount]. *)
Definition sync_storage (entries : list (jstring * jstring))
           (total : Pass) (storage : StorageId) : Pass :=
  let inner :=
    fold_left (fun p entry => sync_entry storage entry p) entries
              (mkPass (pass_world total) 0 (pass_syncedKeys total)
                      (pass_skippedKeys total)) in
  mkPass (pass_world inner) (pass_syncCount total + pass_syncCount inner)
         (pass_syncedKeys inner) (pass_skippedKeys inner).

(** The two loops of [syncCookiesToStorage]. *)
Definition replay (syncData : Obj) (w : World) : Pass :=
  fold_left (sync_storage (Object_entries syncData))
            (getStorageObjects (CONFIG w))
            (mkPass w 0 [] []).

Definition report_of (syncData : Obj) (p : Pass) : SyncReport :=
  {| syncedCount := pass_syncCount p;
     syncedKeys := pass_syncedKeys p;
     skippedKeys := pass_skippedKeys p;
     totalCookies := length (Object_keys syncData) |}.

(** [syncCookiesToStorage] *)
Definition syncCookiesToStorage (w : World) : World :=
  let syncData := getAllSyncCookies (CONFIG w) (document w) in
  let p := replay syncData w in
  dispatchSyncCompleteEvent (report_of syncData p) (pass_world p).

(* --------------------------------------------------------------------- *)
(** ** Initialisation and the public surface (source lines 342-384 and
       1041-1197) *)

(** [isEnvironmentSupported]: [Storage], both areas and [document.cookie]
    exist in this host, which leaves the write probe. *)
Definition isEnvironmentSupported (w : World) : World * bool :=
  let testKey := JStr (js "__storage_sync_test__") in
  let (w1, returned) :=
    call_setItem (Storage_setItem w) LocalStorage testKey (JStr (js "test")) w in
  if returned
  then (call_removeItem (Storage_removeItem w1) LocalStorage testKey w1, true)
  else (w1, false).

(** The repaired record as [CONFIG] holds it after [validateConfig]: the
    repaired fields are of their declared types, so the second branch is
    never taken. *)
Definition validated (cfg : Config) : Config * bool :=
  let (raw, isValid) := validateConfig (to_raw cfg) in
  (match of_raw raw with
   | Some c => c
   | None => cfg
   end, isValid).

(** [init] *)
Definition init (w : World) : World * bool :=
  let (w1, supported) := isEnvironmentSupported w in
  if negb supported then (w1, false)
  else
    let (cfg, configValid) := validated (CONFIG w1) in
    let w2 := set_CONFIG cfg w1 in
    let w3 := syncCookiesToStorage w2 in
    let w4 := setupStorageListener w3 in
    let w5 := setupLocalChangeDetection w4 in
    (w5, true).

(** [StorageSync.reinitialize()] *)
Definition reinitialize (w : World) : World * bool :=
  let (w1, ok) := init w in
  (set_isInitialized ok w1, ok).

(** The page before the script runs. *)
Record Page : Type := mkPage {
  page_hostname : jstring;
  page_document : Document;
  page_localStorage : Storage;
  page_sessionStorage : Storage
}.

(** Running the script: the module body in source order.  The original
    primitives are captured, [init()] runs, and only then the promise is
    created and the listener for [storagesynccomplete] is added. *)
Definition module_load (p : Page) : World :=
  let w0 :=
    mkWorld (page_hostname p) (page_document p)
            (page_localStorage p) (page_sessionStorage p)
            Native Native Native [] []
            default_config
            Native Native Native
            0 false false None false in
  let (w1, initSuccess) := init w0 in
  set_promise true true None (set_isInitialized initSuccess w1).

(** The page assigning to [StorageSync.config]. *)
Definition configure (f : Config -> Config) (w : World) : World :=
  set_CONFIG (f (CONFIG w)) w.

(** [localStorage.setItem(key, value)] and the like, as the page calls
    them. *)
Definition setItem (this : StorageId) (key value : jsval) (w : World)
  : World * bool :=
  call_setItem (Storage_setItem w) this key value w.

Definition removeItem (this : StorageId) (key : jsval) (w : World) : World :=
  call_removeItem (Storage_removeItem w) this key w.

Definition clear (this : StorageId) (w : World) : World :=
  call_clear (Storage_clear w) this w.

(* --------------------------------------------------------------------- *)
(** ** Specification-side predicates

    The notions the specification uses in its own words, to compare the
    functions above with. *)

(** A non-empty run of decimal digits. *)
Definition digit_run (s : jstring) : Prop :=
  s <> [] /\ forallb is_digit s = true.

(** "Matches a dotted-quad IPv4 pattern": four digit runs separated by
    dots. *)
Definition dotted_quad (h : jstring) : Prop :=
  exists a b c d,
    digit_run a /\ digit_run b /\ digit_run c /\ digit_run d /\
    h = a ++ dot :: b ++ dot :: c ++ dot :: d.


(** No unpaired surrogate: what [String.prototype.isWellFormed] tests. *)
Fixpoint well_formed (s : jstring) : bool :=
  match s with
  | [] => true
  | c :: rest =>
      if is_lead_surrogate c then
        match rest with
        | d :: rest' => is_trail_surrogate d && well_formed rest'
        | [] => false
        end
      else negb (is_trail_surrogate c) && well_formed rest
  end.

(** The characters of an encoded value: unreserved ones, [%] and
    upper-case hexadecimal digits, which are unreserved too. *)
Definition is_uri_char (c : codeunit) : bool :=
  is_unreserved c || (c =? percent_sign)%N.

(** [lacks c s]: the character [c] does not occur in [s]. *)
Definition lacks (c : codeunit) (s : jstring) : bool :=
  forallb (fun x => negb (x =? c)%N) s.

(** A clean string holds none of the characters [sanitizeKey] replaces. *)
Definition clean (s : jstring) : bool :=
  forallb (fun c => negb (is_forbidden c)) s.

(** [s.trimEnd()] *)
Definition trim_end (s : jstring) : jstring :=
  rev (drop_while is_whitespace (rev s)).

(** A cookie as the host keeps it and the page reads it back: the name is
    not empty, holds no [;] and no [=] and does not begin with white
    space; the value holds no [;]. *)
Definition entry_ok (e : jstring * jstring) : bool :=
  match fst e with
  | c :: _ => negb (is_whitespace c)
  | [] => false
  end
  && lacks semicolon (fst e) && lacks equals_sign (fst e)
  && lacks semicolon (snd e).

Definition jar_ok (j : Jar) : bool := forallb entry_ok j.

(** The value the page reads for a cookie of the store. *)
Definition stored_value (name : jstring) (j : Jar) : option jstring :=
  v <- assoc_get name j ;; decodeURIComponent (trim_end v).

(** What the storage and cookie operations leave alone: everything but
    the two areas, the document and the log of native writes. *)
Definition same_setup (w w' : World) : Prop :=
  hostname w' = hostname w /\ CONFIG w' = CONFIG w
  /\ Storage_setItem w' = Storage_setItem w
  /\ Storage_removeItem w' = Storage_removeItem w
  /\ Storage_clear w' = Storage_clear w
  /\ originalSetItem w' = originalSetItem w
  /\ originalRemoveItem w' = originalRemoveItem w
  /\ originalClear w' = originalClear w
  /\ storageListeners w' = storageListeners w
  /\ syncCompleteListener w' = syncCompleteListener w
  /\ syncCompleteResolve w' = syncCompleteResolve w
  /\ syncCompletePromise w' = syncCompletePromise w
  /\ isInitialized w' = isInitialized w
  /\ dispatched w' = dispatched w.

(** The other storage area. *)
Definition other_storage (s : StorageId) : StorageId :=
  match s with
  | LocalStorage => SessionStorage
  | SessionStorage => LocalStorage
  end.

(** The condition under which the replay writes an entry to an area. *)
Definition replay_writes (cfg : Config) (st : Storage) (k v : jstring) : Prop :=
  (overwriteExisting cfg = true \/ native_getItem k st = None) /\ v <> [].

(** The size of the cookie [writeToCookie] asks the host to store: the
    octets of the name and of the encoded value. *)
Definition cookie_size (name value : jstring) : nat :=
  octets name
  + match encodeURIComponent value with
    | Some encoded => octets encoded
    | None => 0
    end.


Definition re_ends_with (p : string) : RegExp :=
  {| re_source := js p ++ js "$"; re_flags := [];
     re_test := fun s => startsWith (rev (js p)) (rev s) |}.

(** A page for the examples: three cookies, one of them foreign and one
    with an empty value, and a local area that already holds a value. *)
Definition example_page : Page :=
  mkPage (js "app.example.com")
         (mkDocument [(js "sds_sync_token", js "abc");
                      (js "sds_sync_empty", js "");
                      (js "theme", js "dark")] [] (Some 4096%nat))
         (mkStorage [(js "token", js "old")] None)
         (mkStorage [] None).

(** The module loaded on that page, then configured to overwrite and to
    sync both areas. *)
Definition example_world : World :=
  configure (fun c => mkConfig (cookiePrefix c) (cookieMaxAge c) (syncKeys c)
                               true (js "both") (debug c))
            (module_load example_page).

(** The first visit of a sub-domain: one cookie to replay, empty areas. *)
Definition first_visit_page : Page :=
  mkPage (js "admin.example.com")
         (mkDocument [(js "sds_sync_a", js "1")] [] (Some 4096%nat))
         (mkStorage [] None) (mkStorage [] None).

(** The interception is installed at most once: the originals are the
    native functions, and the three slots hold the native functions or
    wrappers of them. *)
Definition installed (w : World) : Prop :=
  Storage_setItem w = Wrapper Native
  /\ Storage_removeItem w = Wrapper Native
  /\ Storage_clear w = Wrapper Native.

Definition methods_ok (w : World) : Prop :=
  originalSetItem w = Native /\ originalRemoveItem w = Native
  /\ originalClear w = Native
  /\ ((Storage_setItem w = Native /\ Storage_removeItem w = Native
       /\ Storage_clear w = Native)
      \/ installed w).

Definition single_wrapper (w : World) : Prop :=
  methods_ok w /\ (isInitialized w = true -> installed w).

(** The six method fields are the same in both worlds. *)
Definition same_methods (w w' : World) : Prop :=
  Storage_setItem w' = Storage_setItem w
  /\ Storage_removeItem w' = Storage_removeItem w
  /\ Storage_clear w' = Storage_clear w
  /\ originalSetItem w' = originalSetItem w
  /\ originalRemoveItem w' = originalRemoveItem w
  /\ originalClear w' = originalClear w.

(* --------------------------------------------------------------------- *)
(** ** Further predicates *)

(** The setting in which the cookie strings the library builds mean what
    they are meant to: a prefix without [; , =] and white space, a
    [cookieMaxAge] that validation accepts, and a host name without [;]. *)
Definition writable (cfg : Config) (host : jstring) : Prop :=
  clean (cookiePrefix cfg) = true
  /\ num_le_zero (cookieMaxAge cfg) = false
  /\ lacks semicolon host = true.

(** The cookie of [key] with the text [sv] fits the bound of the host. *)
Definition fits (cfg : Config) (d : Document) (sk sv : jstring) : Prop :=
  within (size_limit d) (cookie_size (cookiePrefix cfg ++ sk) sv) = true.

(** The snapshot [getAllSyncCookies] builds, read off the store cookie by
    cookie: a cookie whose name begins with the prefix contributes its
    decoded value under the rest of the name; one whose value does not
    decode ends the enumeration. *)
Fixpoint snapshot_of (cfg : Config) (j : Jar) (syncData : Obj) : Obj :=
  match j with
  | [] => syncData
  | e :: rest =>
      if startsWith (cookiePrefix cfg) (fst e) then
        match decodeURIComponent (trim_end (snd e)) with
        | Some decoded =>
            snapshot_of cfg rest
              (obj_set (skipn (length (cookiePrefix cfg)) (fst e)) decoded
                       syncData)
        | None => syncData
        end
      else snapshot_of cfg rest syncData
  end.

(** The cookie belongs to the library: its name begins with the prefix. *)
Definition is_sync_cookie (cfg : Config) (e : jstring * jstring) : bool :=
  startsWith (cookiePrefix cfg) (fst e).

(** The value of the cookie decodes. *)
Definition decodes (e : jstring * jstring) : bool :=
  match decodeURIComponent (trim_end (snd e)) with
  | Some _ => true
  | None => false
  end.

(** Every cookie of the library in the store has a value that decodes. *)
Definition sync_decodable (cfg : Config) (j : Jar) : bool :=
  forallb (fun e => negb (is_sync_cookie cfg e) || decodes e) j.

(** A cookie as the library itself writes it: after the prefix comes a
    key that sanitisation accepts and leaves as it is, other than
    [__proto__]; the value decodes; the name alone fits the bound. *)
Definition own_cookie (cfg : Config) (limit : option nat)
           (e : jstring * jstring) : bool :=
  let key := skipn (length (cookiePrefix cfg)) (fst e) in
  match sanitizeKey (JStr key) with
  | Some sk => jstring_eqb sk key
  | None => false
  end
  && negb (jstring_eqb key (js "__proto__"))
  && decodes e
  && within limit (octets (fst e)).

(** Every cookie of the store that bears the prefix is such a cookie. *)
Definition own_cookies (cfg : Config) (d : Document) : bool :=
  forallb (fun e => negb (is_sync_cookie cfg e)
                    || own_cookie cfg (size_limit d) e) (jar d).

(** A configuration record in which [validateConfig] finds nothing to
    repair: the five scalar fields hold valid values and [syncKeys] is an
    array. *)
Definition valid_fields (r : RawConfig) : Prop :=
  (exists t, raw_storageType r = JStr t /\ In t validStorageTypes)
  /\ (exists b, raw_overwriteExisting r = JBool b)
  /\ (exists b, raw_debug r = JBool b)
  /\ (exists p, raw_cookiePrefix r = JStr p /\ p <> [])
  /\ (exists n, raw_cookieMaxAge r = JNum n /\ num_le_zero n = false)
  /\ (exists ks, raw_syncKeys r = JArr ks).

(** The rules of the record, when [syncKeys] is an array. *)
Definition rules_of (r : RawConfig) : list jsval :=
  match raw_syncKeys r with
  | JArr ks => ks
  | _ => []
  end.

(** The area and the key a record of [syncedKeys] names, and those of a
    call of the native [setItem]. *)
Definition synced_pair (r : SyncedKey) : jstring * jstring :=
  (synced_storageType r, synced_key r).

Definition written_pair (c : NativeSet) : jstring * jstring :=
  (getStorageName (ns_storage c), ns_key c).

(** The matched entry [k] of the snapshot is skipped in area [s]: the
    area holds a value for it and [overwriteExisting] is off. *)
Definition replay_skips (cfg : Config) (st : Storage) (k : jstring) : Prop :=
  shouldSync cfg (JStr k) = true
  /\ overwriteExisting cfg = false
  /\ native_getItem k st <> None.

(** The key of the write probe of [isEnvironmentSupported]. *)
Definition testKey : jstring := js "__storage_sync_test__".

(* ===================================================================== *)
(** * Part II. Properties                                                 *)
(* ===================================================================== *)

(* --------------------------------------------------------------------- *)
(** ** Strings *)

Lemma jstring_eqb_eq (a b : jstring) : jstring_eqb a b = true <-> a = b.
Proof.
  revert b; induction a as [|x a IH]; intros [|y b]; simpl; split;
    try congruence; try reflexivity.
  - intros H. apply andb_true_iff in H as [Hx Hab].
    apply N.eqb_eq in Hx. apply IH in Hab. congruence.
  - intros [= -> ->]. rewrite N.eqb_refl. simpl. now apply IH.
Qed.

Lemma jstring_eqb_refl (a : jstring) : jstring_eqb a a = true.
Proof. now apply jstring_eqb_eq. Qed.

Lemma jstring_eqb_neq (a b : jstring) : jstring_eqb a b = false <-> a <> b.
Proof.
  split.
  - intros H E. apply jstring_eqb_eq in E. congruence.
  - intros H. destruct (jstring_eqb a b) eqn:E; [|reflexivity].
    apply jstring_eqb_eq in E. contradiction.
Qed.

Lemma jstring_eqb_sym (a b : jstring) : jstring_eqb a b = jstring_eqb b a.
Proof.
  destruct (jstring_eqb a b) eqn:E.
  - apply jstring_eqb_eq in E. subst. symmetry. apply jstring_eqb_refl.
  - symmetry. apply jstring_eqb_neq. apply jstring_eqb_neq in E. congruence.
Qed.

(* --------------------------------------------------------------------- *)
(** ** Validation *)

(** C4 (as the source behaves).  When [cookiePrefix] is not a non-empty
    string, [validateConfig] reports a repair and leaves ["ls_sync_"] in
    the field; the default the module starts with, and the one the
    documentation names, is ["sds_sync_"], so the repaired field differs
    from the documented default. *)
Theorem validateConfig_cookiePrefix_fallback (CONFIG : RawConfig) :
  (forall p, raw_cookiePrefix CONFIG = JStr p -> p = []) ->
  raw_cookiePrefix (fst (validateConfig CONFIG)) = JStr (js "ls_sync_")
  /\ snd (validateConfig CONFIG) = false
  /\ cookiePrefix default_config = js "sds_sync_"
  /\ raw_cookiePrefix (fst (validateConfig CONFIG))
     <> JStr (cookiePrefix default_config).
Proof.
  intros Hbad.
  assert (Hviol :
    forall c, raw_cookiePrefix c = raw_cookiePrefix CONFIG ->
      (negb (is_typeof (raw_cookiePrefix c) "string")
       || match raw_cookiePrefix c with
          | JStr p => Nat.eqb (length p) 0
          | _ => false
          end) = true).
  { intros c ->. destruct (raw_cookiePrefix CONFIG) eqn:E; try reflexivity.
    rewrite (Hbad s eq_refl). reflexivity. }
  assert (Hres : raw_cookiePrefix (fst (validateConfig CONFIG))
                 = JStr (js "ls_sync_")
                 /\ snd (validateConfig CONFIG) = false).
  { unfold validateConfig.
    set (s0 := (CONFIG, true)).
    set (s1 := repair _ _ s0).
    set (s2 := repair _ _ s1).
    set (s3 := repair _ _ s2).
    assert (H3 : raw_cookiePrefix (fst s3) = raw_cookiePrefix CONFIG).
    { subst s3 s2 s1 s0. unfold repair.
      repeat match goal with
             | |- context [if ?b then _ else _] => destruct b
             end; reflexivity. }
    set (s4 := repair _ _ s3).
    assert (H4 : raw_cookiePrefix (fst s4) = JStr (js "ls_sync_")
                 /\ snd s4 = false).
    { subst s4. unfold repair. rewrite (Hviol _ H3). split; reflexivity. }
    set (s5 := repair _ _ s4).
    assert (H5 : raw_cookiePrefix (fst s5) = JStr (js "ls_sync_")
                 /\ snd s5 = false).
    { subst s5. unfold repair. destruct H4 as [H4a H4b].
      match goal with
      | |- context [if ?b then _ else _] => destruct b
      end; split; auto. }
    destruct H5 as [H5a H5b].
    destruct (raw_syncKeys (fst s5)); unfold set_syncKeys;
      cbn [fst snd raw_cookiePrefix]; auto. }
  destruct Hres as [Hp Hv].
  split; [exact Hp|]. split; [exact Hv|]. split; [reflexivity|].
  rewrite Hp. intros E. discriminate E.
Qed.

(** The failing input of C4: the empty string as prefix. *)
Lemma validateConfig_cookiePrefix_fallback_witness :
  let CONFIG := set_cookiePrefix (JStr []) (to_raw default_config) in
  (forall p, raw_cookiePrefix CONFIG = JStr p -> p = [])
  /\ raw_cookiePrefix (fst (validateConfig CONFIG)) = JStr (js "ls_sync_")
  /\ raw_cookiePrefix (fst (validateConfig CONFIG))
     <> JStr (cookiePrefix default_config).
Proof.
  intros CONFIG.
  assert (H : forall p, raw_cookiePrefix CONFIG = JStr p -> p = []).
  { intros p [= <-]. reflexivity. }
  split; [exact H|].
  destruct (validateConfig_cookiePrefix_fallback CONFIG H) as (A & _ & _ & B).
  split; assumption.
Defined.

Lemma repair_keeps {A} (proj : RawConfig -> A) (violated : bool)
      (fix_it : RawConfig -> RawConfig) (s : RawConfig * bool) :
  (forall c, proj (fix_it c) = proj c) ->
  proj (fst (repair violated fix_it s)) = proj (fst s).
Proof. intros H. unfold repair. destruct violated; [apply H | reflexivity]. Qed.

Lemma includes_valid (v : jsval) :
  includes validStorageTypes v = true ->
  exists t, v = JStr t /\ In t validStorageTypes.
Proof.
  unfold includes. intros H. apply existsb_exists in H as (t & Hin & Ht).
  destruct v; try discriminate. cbn [strict_eq_str] in Ht.
  apply jstring_eqb_eq in Ht. subst. now exists t.
Qed.

Lemma typeof_boolean (v : jsval) :
  is_typeof v "boolean" = true -> exists b, v = JBool b.
Proof. destruct v; try discriminate. intros _. now exists b. Qed.

(** [validateConfig] ends by assigning a filtered array to [syncKeys];
    the five fields before it have been checked one after the other. *)
Lemma validateConfig_shape (CONFIG : RawConfig) :
  exists c ks,
    fst (validateConfig CONFIG) = set_syncKeys (JArr ks) c
    /\ Forall (fun k => valid_syncKey k = true) ks
    /\ (exists t, raw_storageType c = JStr t /\ In t validStorageTypes)
    /\ (exists b, raw_overwriteExisting c = JBool b)
    /\ (exists b, raw_debug c = JBool b)
    /\ (exists p, raw_cookiePrefix c = JStr p /\ p <> [])
    /\ (exists n, raw_cookieMaxAge c = JNum n /\ num_le_zero n = false).
Proof.
  unfold validateConfig.
  set (s0 := (CONFIG, true)).
  set (s1 := repair _ _ s0).
  assert (T1 : exists t, raw_storageType (fst s1) = JStr t
                         /\ In t validStorageTypes).
  { subst s1. unfold repair.
    destruct (includes validStorageTypes (raw_storageType (fst s0))) eqn:E;
      cbn [negb].
    - now apply includes_valid.
    - exists (js "localStorage"). split; [reflexivity | now left]. }
  clearbody s1. clear s0.
  set (s2 := repair _ _ s1).
  assert (T2 : exists b, raw_overwriteExisting (fst s2) = JBool b).
  { subst s2. unfold repair.
    destruct (is_typeof (raw_overwriteExisting (fst s1)) "boolean") eqn:E;
      cbn [negb]; [now apply typeof_boolean | now exists false]. }
  assert (K2 : raw_storageType (fst s2) = raw_storageType (fst s1))
    by (subst s2; now rewrite (repair_keeps raw_storageType)).
  rewrite <- K2 in T1. clearbody s2. clear K2 s1.
  set (s3 := repair _ _ s2).
  assert (T3 : exists b, raw_debug (fst s3) = JBool b).
  { subst s3. unfold repair.
    destruct (is_typeof (raw_debug (fst s2)) "boolean") eqn:E;
      cbn [negb]; [now apply typeof_boolean | now exists false]. }
  assert (K3 : raw_storageType (fst s3) = raw_storageType (fst s2)
               /\ raw_overwriteExisting (fst s3) = raw_overwriteExisting (fst s2)).
  { subst s3. now rewrite (repair_keeps raw_storageType),
                (repair_keeps raw_overwriteExisting). }
  destruct K3 as [K3a K3b]. rewrite <- K3a in T1. rewrite <- K3b in T2.
  clearbody s3. clear K3a K3b s2.
  set (s4 := repair _ _ s3).
  assert (T4 : exists p, raw_cookiePrefix (fst s4) = JStr p /\ p <> []).
  { subst s4. unfold repair.
    destruct (raw_cookiePrefix (fst s3)) as [| | | |p| | |] eqn:E;
      try (exists (js "ls_sync_"); split; [reflexivity | discriminate]).
    destruct p as [|c p].
    - exists (js "ls_sync_"). split; [reflexivity | discriminate].
    - exists (c :: p). cbn [fst]. split; [exact E | discriminate]. }
  assert (K4 : raw_storageType (fst s4) = raw_storageType (fst s3)
               /\ raw_overwriteExisting (fst s4) = raw_overwriteExisting (fst s3)
               /\ raw_debug (fst s4) = raw_debug (fst s3)).
  { subst s4. now rewrite (repair_keeps raw_storageType),
                (repair_keeps raw_overwriteExisting), (repair_keeps raw_debug). }
  destruct K4 as (K4a & K4b & K4c).
  rewrite <- K4a in T1. rewrite <- K4b in T2. rewrite <- K4c in T3.
  clearbody s4. clear K4a K4b K4c s3.
  set (s5 := repair _ _ s4).
  assert (T5 : exists n, raw_cookieMaxAge (fst s5) = JNum n
                         /\ num_le_zero n = false).
  { subst s5. unfold repair.
    destruct (raw_cookieMaxAge (fst s4)) as [| | |n| | | |] eqn:E;
      try (exists (NumInt one_year); split; reflexivity).
    destruct (num_le_zero n) eqn:En.
    - exists (NumInt one_year). split; reflexivity.
    - exists n. cbn [fst]. split; [exact E | exact En]. }
  assert (K5 : raw_storageType (fst s5) = raw_storageType (fst s4)
               /\ raw_overwriteExisting (fst s5) = raw_overwriteExisting (fst s4)
               /\ raw_debug (fst s5) = raw_debug (fst s4)
               /\ raw_cookiePrefix (fst s5) = raw_cookiePrefix (fst s4)).
  { subst s5. now rewrite (repair_keeps raw_storageType),
                (repair_keeps raw_overwriteExisting), (repair_keeps raw_debug),
                (repair_keeps raw_cookiePrefix). }
  destruct K5 as (K5a & K5b & K5c & K5d).
  rewrite <- K5a in T1. rewrite <- K5b in T2. rewrite <- K5c in T3.
  rewrite <- K5d in T4.
  clearbody s5. clear K5a K5b K5c K5d s4.
  destruct (raw_syncKeys (fst s5)) as [| | | | | |keys|]; cbn [fst];
    try (exists (fst s5), []; split; [reflexivity|];
         split; [constructor|]; repeat split; assumption).
  exists (fst s5), (filter valid_syncKey keys). split; [reflexivity|].
  split; [|repeat split; assumption].
  apply Forall_forall. intros k Hk. now apply filter_In in Hk.
Qed.

(** After [validateConfig] every field has its declared type and a valid
    value: the storage type is one of the three, the prefix is not empty,
    the maximal age is accepted, and the rules are non-empty strings or
    regular expressions. *)
Lemma validateConfig_fields (CONFIG : RawConfig) :
  let r := fst (validateConfig CONFIG) in
  (exists t, raw_storageType r = JStr t /\ In t validStorageTypes)
  /\ (exists b, raw_overwriteExisting r = JBool b)
  /\ (exists b, raw_debug r = JBool b)
  /\ (exists p, raw_cookiePrefix r = JStr p /\ p <> [])
  /\ (exists n, raw_cookieMaxAge r = JNum n /\ num_le_zero n = false)
  /\ (exists ks, raw_syncKeys r = JArr ks
                 /\ Forall (fun k => valid_syncKey k = true) ks).
Proof.
  intros r. subst r.
  destruct (validateConfig_shape CONFIG)
    as (c & ks & -> & Hks & T1 & T2 & T3 & T4 & T5).
  unfold set_syncKeys.
  cbn [raw_storageType raw_overwriteExisting raw_debug raw_cookiePrefix
       raw_cookieMaxAge raw_syncKeys].
  split; [exact T1|]. split; [exact T2|]. split; [exact T3|].
  split; [exact T4|]. split; [exact T5|]. now exists ks.
Qed.

(** So the record [CONFIG] holds after validation is of the declared
    types. *)
Lemma validateConfig_typed (CONFIG : RawConfig) :
  exists cfg, of_raw (fst (validateConfig CONFIG)) = Some cfg.
Proof.
  destruct (validateConfig_fields CONFIG)
    as ((t & Ht & _) & (o & Ho) & (d & Hd) & (p & Hp & _) & (n & Hn & _)
        & (ks & Hks & _)).
  unfold of_raw. rewrite Ht, Ho, Hd, Hp, Hn, Hks. eauto.
Qed.

(** The test of the suite: ['invalid'] as storage type falls back to
    ['localStorage']. *)
Lemma validateConfig_storageType_fallback :
  raw_storageType
    (fst (validateConfig (set_storageType (JStr (js "invalid"))
                                          (to_raw default_config))))
  = JStr (js "localStorage").
Proof. reflexivity. Qed.

(* --------------------------------------------------------------------- *)
(** ** Key matcher *)





(* --------------------------------------------------------------------- *)
(** ** Domain resolver *)

Lemma drop_while_run (p : codeunit -> bool) (a r : jstring) :
  forallb p a = true ->
  match r with [] => True | c :: _ => p c = false end ->
  drop_while p (a ++ r) = r.
Proof.
  intros Ha Hr. induction a as [|x a IH]; simpl in *.
  - destruct r as [|c r]; [reflexivity|]. simpl. now rewrite Hr.
  - apply andb_true_iff in Ha as [Hx Ha]. rewrite Hx. now apply IH.
Qed.

Lemma drop_while_decompose (p : codeunit -> bool) (s : jstring) :
  exists a, forallb p a = true /\ s = a ++ drop_while p s
            /\ match drop_while p s with [] => True | c :: _ => p c = false end.
Proof.
  induction s as [|x s (a & Ha & Hs & Hr)]; simpl.
  - exists []. repeat split.
  - destruct (p x) eqn:Hx.
    + exists (x :: a). simpl. rewrite Hx, Ha. repeat split; [|exact Hr].
      now f_equal.
    + exists []. simpl. repeat split. exact Hx.
Qed.

Lemma digits_then_spec (s r : jstring) :
  digits_then s = Some r <->
  exists a, digit_run a /\ s = a ++ r
            /\ match r with [] => True | c :: _ => is_digit c = false end.
Proof.
  unfold digits_then, digit_run. split.
  - destruct s as [|x s]; [discriminate|].
    destruct (is_digit x) eqn:Hx; [|discriminate].
    intros [= <-].
    destruct (drop_while_decompose is_digit (x :: s)) as (a & Ha & Hs & Hr).
    exists a. repeat split; auto.
    intros ->. simpl in Hs. simpl in Hr. rewrite Hx in *.
    rewrite <- Hs in Hr. simpl in Hr. congruence.
  - intros (a & (Hne & Ha) & -> & Hr).
    destruct a as [|x a]; [contradiction|]. cbn [app].
    pose proof Ha as Ha'. simpl in Ha'. apply andb_true_iff in Ha' as [Hx _].
    rewrite Hx. f_equal.
    change (x :: a ++ r) with ((x :: a) ++ r). now apply drop_while_run.
Qed.

Lemma dot_not_digit : is_digit dot = false.
Proof. reflexivity. Qed.

Lemma dot_then_spec (s r : jstring) : dot_then s = Some r <-> s = dot :: r.
Proof.
  unfold dot_then. destruct s as [|c s].
  - split; discriminate.
  - destruct (N.eqb_spec c dot) as [->|Hne]; split.
    + intros [= ->]. reflexivity.
    + intros E. injection E as ->. reflexivity.
    + discriminate.
    + intros E. injection E as E1 E2. contradiction.
Qed.

Lemma dotted_quad_test_iff (h : jstring) :
  dotted_quad_test h = true <-> dotted_quad h.
Proof.
  unfold dotted_quad_test, dotted_quad, bind. split.
  - destruct (digits_then h) as [r1|] eqn:E1; [|discriminate].
    destruct (dot_then r1) as [r2|] eqn:E2; [|discriminate].
    destruct (digits_then r2) as [r3|] eqn:E3; [|discriminate].
    destruct (dot_then r3) as [r4|] eqn:E4; [|discriminate].
    destruct (digits_then r4) as [r5|] eqn:E5; [|discriminate].
    destruct (dot_then r5) as [r6|] eqn:E6; [|discriminate].
    destruct (digits_then r6) as [[|? ?]|] eqn:E7; try discriminate.
    intros _.
    apply digits_then_spec in E1 as (a & Ha & -> & _).
    apply dot_then_spec in E2 as ->.
    apply digits_then_spec in E3 as (b & Hb & -> & _).
    apply dot_then_spec in E4 as ->.
    apply digits_then_spec in E5 as (c & Hc & -> & _).
    apply dot_then_spec in E6 as ->.
    apply digits_then_spec in E7 as (d & Hd & -> & _).
    exists a, b, c, d. rewrite app_nil_r. repeat split; try tauto.
    all: try apply Ha; try apply Hb; try apply Hc; try apply Hd.
  - intros (a & b & c & d & Ha & Hb & Hc & Hd & ->).
    assert (E1 : digits_then (a ++ dot :: b ++ dot :: c ++ dot :: d)
                 = Some (dot :: b ++ dot :: c ++ dot :: d)).
    { apply digits_then_spec. exists a. repeat split; try apply Ha. }
    rewrite E1. cbn [dot_then]. rewrite N.eqb_refl.
    assert (E2 : digits_then (b ++ dot :: c ++ dot :: d)
                 = Some (dot :: c ++ dot :: d)).
    { apply digits_then_spec. exists b. repeat split; try apply Hb. }
    rewrite E2. cbn [dot_then]. rewrite N.eqb_refl.
    assert (E3 : digits_then (c ++ dot :: d) = Some (dot :: d)).
    { apply digits_then_spec. exists c. repeat split; try apply Hc. }
    rewrite E3. cbn [dot_then]. rewrite N.eqb_refl.
    assert (E4 : digits_then d = Some []).
    { apply digits_then_spec. exists d. rewrite app_nil_r.
      repeat split; try apply Hd. }
    now rewrite E4.
Qed.

Lemma slice_last_two {A} (front : list A) (a b : A) :
  slice_last 2 (front ++ [a; b]) = [a; b].
Proof.
  unfold slice_last. rewrite length_app. simpl.
  replace (length front + 2 - 2)%nat with (length front + 0)%nat by lia.
  rewrite skipn_app, Nat.add_0_r, skipn_all.
  replace (length front - length front)%nat with 0%nat by lia.
  reflexivity.
Qed.

Lemma last_two_exist {A} (l : list A) :
  (2 <= length l)%nat -> exists front a b, l = front ++ [a; b].
Proof.
  intros H. exists (firstn (length l - 2) l).
  pose proof (firstn_skipn (length l - 2) l) as E.
  pose proof (length_skipn (length l - 2) l) as L.
  destruct (skipn (length l - 2) l) as [|a [|b [|c t]]] eqn:S;
    simpl in L; try lia.
  exists a, b. now rewrite E.
Qed.

(** C8.  [getParentDomain] returns the host name unchanged when it is
    [localhost] or four digit runs separated by dots; otherwise, with the
    host name split on dots, more than two labels give a dot followed by
    the last two labels joined by a dot, and at most two labels give a dot
    followed by the whole host name. *)
Theorem getParentDomain_rule (hostname : jstring) :
  ((hostname = js "localhost" \/ dotted_quad hostname) ->
   getParentDomain hostname = hostname)
  /\ (hostname <> js "localhost" -> ~ dotted_quad hostname ->
      (2 < length (split dot hostname))%nat ->
      exists front a b,
        split dot hostname = front ++ [a; b]
        /\ getParentDomain hostname = js "." ++ a ++ js "." ++ b)
  /\ (hostname <> js "localhost" -> ~ dotted_quad hostname ->
      (length (split dot hostname) <= 2)%nat ->
      getParentDomain hostname = js "." ++ hostname).
Proof.
  unfold getParentDomain. split; [|split].
  - intros [-> | Hq].
    + reflexivity.
    + apply dotted_quad_test_iff in Hq. rewrite Hq, orb_true_r. reflexivity.
  - intros Hl Hq Hlen.
    apply jstring_eqb_neq in Hl. rewrite Hl.
    destruct (dotted_quad_test hostname) eqn:Ht;
      [apply dotted_quad_test_iff in Ht; contradiction|].
    cbn [orb]. apply Nat.ltb_lt in Hlen as Hlen'. rewrite Hlen'.
    destruct (last_two_exist (split dot hostname)) as (front & a & b & E);
      [lia|].
    exists front, a, b. split; [exact E|].
    rewrite E, slice_last_two. reflexivity.
  - intros Hl Hq Hlen.
    apply jstring_eqb_neq in Hl. rewrite Hl.
    destruct (dotted_quad_test hostname) eqn:Ht;
      [apply dotted_quad_test_iff in Ht; contradiction|].
    cbn [orb]. apply Nat.ltb_ge in Hlen. now rewrite Hlen.
Qed.

(** The hosts of the documentation: [app.example.com], [192.168.1.1] and
    [example.com]. *)
Lemma getParentDomain_rule_witness :
  getParentDomain (js "192.168.1.1") = js "192.168.1.1"
  /\ getParentDomain (js "app.example.com") = js ".example.com"
  /\ getParentDomain (js "example.com") = js ".example.com".
Proof.
  split; [|split].
  - apply (proj1 (getParentDomain_rule (js "192.168.1.1"))).
    right. exists (js "192"), (js "168"), (js "1"), (js "1").
    repeat split; discriminate.
  - destruct (getParentDomain_rule (js "app.example.com")) as (_ & H & _).
    destruct H as (front & a & b & E & R).
    + discriminate.
    + intros Hq. apply dotted_quad_test_iff in Hq. discriminate Hq.
    + simpl. lia.
    + rewrite R.
      change (split dot (js "app.example.com"))
        with (([js "app"] ++ [js "example"]) ++ [js "com"]) in E.
      replace (front ++ [a; b]) with ((front ++ [a]) ++ [b]) in E
        by (rewrite <- app_assoc; reflexivity).
      apply app_inj_tail in E as [E1 <-].
      apply app_inj_tail in E1 as [_ <-].
      reflexivity.
  - apply (proj2 (proj2 (getParentDomain_rule (js "example.com")))).
    + discriminate.
    + intros Hq. apply dotted_quad_test_iff in Hq. discriminate Hq.
    + simpl. lia.
Defined.

(* --------------------------------------------------------------------- *)
(** ** The URI codec *)

(** Boolean comparisons on code units, turned into arithmetic facts. *)
Ltac bools :=
  unfold in_range, is_codeunit in *;
  repeat match goal with
         | H : _ && _ = true |- _ => apply andb_true_iff in H as [? ?]
         | H : _ || _ = false |- _ => apply orb_false_iff in H as [? ?]
         | H : negb _ = true |- _ => apply negb_true_iff in H
         | H : negb _ = false |- _ => apply negb_false_iff in H
         | H : (_ <=? _)%N = true |- _ => apply N.leb_le in H
         | H : (_ <=? _)%N = false |- _ => apply N.leb_gt in H
         | H : (_ <? _)%N = true |- _ => apply N.ltb_lt in H
         | H : (_ <? _)%N = false |- _ => apply N.ltb_ge in H
         | H : (_ =? _)%N = true |- _ => apply N.eqb_eq in H
         | H : (_ =? _)%N = false |- _ => apply N.eqb_neq in H
         end.

(** Decide the comparisons of the goal by case analysis. *)
Ltac cases :=
  repeat match goal with
         | |- context [(?a <=? ?b)%N] =>
             destruct (N.leb_spec a b); try lia
         | |- context [(?a <? ?b)%N] =>
             destruct (N.ltb_spec a b); try lia
         | |- context [(?a =? ?b)%N] =>
             destruct (N.eqb_spec a b); try lia
         end.

Lemma hex_value_digit (d : N) :
  (d < 16)%N -> hex_value (hex_digit d) = Some d.
Proof.
  intros H. unfold hex_value, hex_digit, in_range.
  cases; cbn [andb]; f_equal; lia.
Qed.

Lemma octet_split (b : N) : (16 * (b / 16) + b mod 16 = b)%N.
Proof. symmetry. apply N.div_mod. discriminate. Qed.

Lemma unescape_escape_octet (b : N) (e : jstring) :
  (b < 256)%N ->
  unescape (escape_octet b ++ e) = option_map (cons (Oct b)) (unescape e).
Proof.
  intros H. unfold escape_octet. cbn [app unescape].
  unfold percent_sign at 1. rewrite N.eqb_refl.
  rewrite !hex_value_digit.
  - cbn [bind]. rewrite octet_split. now destruct (unescape e).
  - apply N.mod_lt. discriminate.
  - apply N.Div0.div_lt_upper_bound. lia.
Qed.

Lemma unescape_escape_octets (bs : list N) (e : jstring) :
  Forall (fun b => (b < 256)%N) bs ->
  unescape (escape_octets bs ++ e)
  = option_map (app (map Oct bs)) (unescape e).
Proof.
  induction 1 as [|b bs Hb _ IH]; cbn [escape_octets flat_map map app].
  - now destruct (unescape e).
  - fold (escape_octets bs). rewrite <- app_assoc.
    rewrite unescape_escape_octet by exact Hb. rewrite IH.
    now destruct (unescape e).
Qed.

Lemma unreserved_not_percent (c : codeunit) :
  is_unreserved c = true -> (c =? percent_sign)%N = false.
Proof.
  unfold is_unreserved, percent_sign, in_range. intros H.
  destruct (N.eqb_spec c 37) as [->|]; [discriminate H | reflexivity].
Qed.

Lemma unescape_literal (c : codeunit) (e : jstring) :
  is_unreserved c = true ->
  unescape (c :: e) = option_map (cons (Lit c)) (unescape e).
Proof.
  intros H. cbn [unescape]. rewrite (unreserved_not_percent _ H).
  now destruct (unescape e).
Qed.

(** [lia] with the quotients and remainders taken as unknowns. *)
Ltac gen_divmod :=
  repeat match goal with
         | |- context [(?a mod ?b)%N] =>
             let m := fresh "m" in set (m := (a mod b)%N) in *; clearbody m
         | |- context [(?a / ?b)%N] =>
             let q := fresh "q" in set (q := (a / b)%N) in *; clearbody q
         | H : context [(?a mod ?b)%N] |- _ =>
             let m := fresh "m" in set (m := (a mod b)%N) in *; clearbody m
         | H : context [(?a / ?b)%N] |- _ =>
             let q := fresh "q" in set (q := (a / b)%N) in *; clearbody q
         end.

Ltac nlia := gen_divmod; lia.

Lemma utf8_octets (cp : N) :
  (cp <= 1114111)%N -> Forall (fun b => (b < 256)%N) (utf8 cp).
Proof.
  intros H. unfold utf8.
  assert (cp mod 64 < 64)%N by (apply N.mod_lt; discriminate).
  assert ((cp / 64) mod 64 < 64)%N by (apply N.mod_lt; discriminate).
  assert ((cp / 4096) mod 64 < 64)%N by (apply N.mod_lt; discriminate).
  cases; repeat constructor; try nlia.
  - assert (cp / 64 < 32)%N by (apply N.Div0.div_lt_upper_bound; nlia). nlia.
  - assert (cp / 4096 < 16)%N by (apply N.Div0.div_lt_upper_bound; nlia). nlia.
  - assert (cp / 262144 < 5)%N by (apply N.Div0.div_lt_upper_bound; nlia). nlia.
Qed.

(** Arithmetic with the divisions by powers of 64 made explicit. *)
Ltac divmod64 cp :=
  pose proof (N.div_mod cp 64 ltac:(discriminate));
  pose proof (N.mod_lt cp 64 ltac:(discriminate));
  pose proof (N.div_mod (cp / 64) 64 ltac:(discriminate));
  pose proof (N.mod_lt (cp / 64) 64 ltac:(discriminate));
  pose proof (N.div_mod (cp / 64 / 64) 64 ltac:(discriminate));
  pose proof (N.mod_lt (cp / 64 / 64) 64 ltac:(discriminate));
  replace (cp / 4096)%N with (cp / 64 / 64)%N in *
    by (rewrite N.Div0.div_div; reflexivity);
  replace (cp / 262144)%N with (cp / 64 / 64 / 64)%N in *
    by (rewrite !N.Div0.div_div; reflexivity).

Lemma utf8_decode_utf8 (cp : N) (ts : list token) :
  valid_codepoint 0 cp = true ->
  utf8_decode (map Oct (utf8 cp) ++ ts)
  = option_map (app (utf16 cp)) (utf8_decode ts).
Proof.
  unfold valid_codepoint. intros H. bools.
  assert (Hsur : (cp < 55296 \/ 57343 < cp)%N).
  { match goal with
    | H : _ && _ = false |- _ =>
        apply andb_false_iff in H as [H|H]; apply N.leb_gt in H; nlia
    end. }
  unfold utf8.
  divmod64 cp.
  destruct (N.ltb_spec cp 128).
  { cbn [map app utf8_decode].
    destruct (N.ltb_spec cp 128); [|nlia].
    unfold utf16. destruct (N.ltb_spec cp 65536); [|nlia].
    now destruct (utf8_decode ts). }
  destruct (N.ltb_spec cp 2048).
  { cbn [map app utf8_decode].
    assert (cp / 64 < 32)%N by (apply N.Div0.div_lt_upper_bound; nlia).
    destruct (N.ltb_spec (192 + cp / 64) 128); [nlia|].
    destruct (N.ltb_spec (192 + cp / 64) 192); [nlia|].
    destruct (N.ltb_spec (192 + cp / 64) 224); [|nlia].
    replace ((192 + cp / 64 - 192) * 64 + cont (128 + cp mod 64))%N with cp
      by (unfold cont; nlia).
    unfold is_continuation, valid_codepoint, in_range.
    destruct (N.leb_spec 128 (128 + cp mod 64)); [|nlia].
    destruct (N.leb_spec (128 + cp mod 64) 191); [|nlia].
    destruct (N.leb_spec 128 cp); [|nlia].
    destruct (N.leb_spec cp 1114111); [|nlia].
    destruct (N.leb_spec 55296 cp); [nlia|].
    cbn [andb negb]. reflexivity. }
  destruct (N.ltb_spec cp 65536).
  { cbn [map app utf8_decode].
    assert (cp / 64 / 64 < 16)%N
      by (rewrite N.Div0.div_div; apply N.Div0.div_lt_upper_bound; nlia).
    destruct (N.ltb_spec (224 + cp / 64 / 64) 128); [nlia|].
    destruct (N.ltb_spec (224 + cp / 64 / 64) 192); [nlia|].
    destruct (N.ltb_spec (224 + cp / 64 / 64) 224); [nlia|].
    destruct (N.ltb_spec (224 + cp / 64 / 64) 240); [|nlia].
    replace ((224 + cp / 64 / 64 - 224) * 4096
             + cont (128 + (cp / 64) mod 64) * 64
             + cont (128 + cp mod 64))%N with cp
      by (unfold cont; nlia).
    unfold is_continuation, valid_codepoint, in_range.
    destruct (N.leb_spec 128 (128 + cp mod 64)); [|nlia].
    destruct (N.leb_spec (128 + cp mod 64) 191); [|nlia].
    destruct (N.leb_spec 128 (128 + (cp / 64) mod 64)); [|nlia].
    destruct (N.leb_spec (128 + (cp / 64) mod 64) 191); [|nlia].
    destruct (N.leb_spec 2048 cp); [|nlia].
    destruct (N.leb_spec cp 1114111); [|nlia].
    assert (Hs : negb ((55296 <=? cp)%N && (cp <=? 57343)%N) = true).
    { destruct (N.leb_spec 55296 cp); [|reflexivity].
      destruct (N.leb_spec cp 57343); [|reflexivity]. nlia. }
    rewrite Hs. cbn [andb]. reflexivity. }
  { cbn [map app utf8_decode].
    assert (cp / 64 / 64 / 64 < 5)%N
      by (rewrite !N.Div0.div_div; apply N.Div0.div_lt_upper_bound; nlia).
    destruct (N.ltb_spec (240 + cp / 64 / 64 / 64) 128); [nlia|].
    destruct (N.ltb_spec (240 + cp / 64 / 64 / 64) 192); [nlia|].
    destruct (N.ltb_spec (240 + cp / 64 / 64 / 64) 224); [nlia|].
    destruct (N.ltb_spec (240 + cp / 64 / 64 / 64) 240); [nlia|].
    destruct (N.ltb_spec (240 + cp / 64 / 64 / 64) 248); [|nlia].
    replace ((240 + cp / 64 / 64 / 64 - 240) * 262144
             + cont (128 + (cp / 64 / 64) mod 64) * 4096
             + cont (128 + (cp / 64) mod 64) * 64
             + cont (128 + cp mod 64))%N with cp
      by (unfold cont; nlia).
    unfold is_continuation, valid_codepoint, in_range.
    destruct (N.leb_spec 128 (128 + cp mod 64)); [|nlia].
    destruct (N.leb_spec (128 + cp mod 64) 191); [|nlia].
    destruct (N.leb_spec 128 (128 + (cp / 64) mod 64)); [|nlia].
    destruct (N.leb_spec (128 + (cp / 64) mod 64) 191); [|nlia].
    destruct (N.leb_spec 128 (128 + (cp / 64 / 64) mod 64)); [|nlia].
    destruct (N.leb_spec (128 + (cp / 64 / 64) mod 64) 191); [|nlia].
    destruct (N.leb_spec 65536 cp); [|nlia].
    destruct (N.leb_spec cp 1114111); [|nlia].
    destruct (N.leb_spec 55296 cp); [|nlia].
    destruct (N.leb_spec cp 57343); [nlia|].
    cbn [andb negb]. reflexivity. }
Qed.

Lemma pair_to_codepoint_range (c d : codeunit) :
  is_lead_surrogate c = true -> is_trail_surrogate d = true ->
  (65536 <= pair_to_codepoint c d <= 1114111)%N.
Proof.
  unfold is_lead_surrogate, is_trail_surrogate, pair_to_codepoint.
  intros Hc Hd. bools. lia.
Qed.

Lemma utf16_pair (c d : codeunit) :
  is_lead_surrogate c = true -> is_trail_surrogate d = true ->
  utf16 (pair_to_codepoint c d) = [c; d].
Proof.
  intros Hc Hd. pose proof (pair_to_codepoint_range c d Hc Hd) as R.
  unfold utf16. destruct (N.ltb_spec (pair_to_codepoint c d) 65536); [lia|].
  unfold is_lead_surrogate, is_trail_surrogate, pair_to_codepoint in *.
  bools.
  replace ((c - 55296) * 1024 + (d - 56320) + 65536 - 65536)%N
    with ((d - 56320) + (c - 55296) * 1024)%N by lia.
  rewrite N.div_add by discriminate. rewrite N.Div0.mod_add.
  rewrite N.div_small, N.mod_small by lia.
  f_equal; [|f_equal]; lia.
Qed.

Lemma valid_pair (c d : codeunit) :
  is_lead_surrogate c = true -> is_trail_surrogate d = true ->
  valid_codepoint 0 (pair_to_codepoint c d) = true.
Proof.
  intros Hc Hd. pose proof (pair_to_codepoint_range c d Hc Hd) as R.
  unfold valid_codepoint, in_range.
  destruct (N.leb_spec 0 (pair_to_codepoint c d)); [|lia].
  destruct (N.leb_spec (pair_to_codepoint c d) 1114111); [|lia].
  destruct (N.leb_spec 55296 (pair_to_codepoint c d)); [|lia].
  destruct (N.leb_spec (pair_to_codepoint c d) 57343); [lia|].
  reflexivity.
Qed.

Lemma valid_unit (c : codeunit) :
  is_codeunit c = true ->
  is_lead_surrogate c = false -> is_trail_surrogate c = false ->
  valid_codepoint 0 c = true /\ utf16 c = [c].
Proof.
  unfold is_lead_surrogate, is_trail_surrogate, valid_codepoint, utf16,
    in_range, is_codeunit.
  intros Hc Hl Ht. apply N.ltb_lt in Hc.
  destruct (N.ltb_spec c 65536); [|lia]. split; [|reflexivity].
  destruct (N.leb_spec 0 c); [|lia].
  destruct (N.leb_spec c 1114111); [|lia].
  destruct (N.leb_spec 55296 c); [|reflexivity].
  destruct (N.leb_spec c 57343); [|reflexivity].
  exfalso. revert Hl Ht.
  destruct (N.leb_spec 55296 c); [|lia].
  destruct (N.leb_spec c 56319); [discriminate|].
  destruct (N.leb_spec 56320 c); [|lia].
  destruct (N.leb_spec c 57343); [discriminate|lia].
Qed.

(** What [encodeURIComponent] yields, read back: the escapes denote the
    octets, and the octets denote the code units of the argument. *)
Lemma unescape_encoded (n : nat) :
  forall s e, (length s <= n)%nat -> is_jstring s = true ->
    encodeURIComponent s = Some e ->
    exists ts, unescape e = Some ts /\ utf8_decode ts = Some s.
Proof.
  induction n as [|n IH]; intros s e Hlen Hs Henc.
  - destruct s; [|simpl in Hlen; lia]. injection Henc as <-.
    exists []. split; reflexivity.
  - destruct s as [|c rest].
    { injection Henc as <-. exists []. split; reflexivity. }
    cbn [is_jstring forallb] in Hs. apply andb_true_iff in Hs as [Hc Hrest].
    cbn [encodeURIComponent] in Henc.
    destruct (is_unreserved c) eqn:Hu.
    { destruct (encodeURIComponent rest) as [r|] eqn:Er; [|discriminate].
      injection Henc as <-.
      destruct (IH rest r) as (ts & Hts & Hdec); auto.
      { simpl in Hlen; lia. }
      exists (Lit c :: ts). split.
      - rewrite unescape_literal, Hts by exact Hu. reflexivity.
      - cbn [utf8_decode]. rewrite Hdec. reflexivity. }
    destruct (is_lead_surrogate c) eqn:Hl.
    { destruct rest as [|d rest']; [discriminate|].
      destruct (is_trail_surrogate d) eqn:Ht; [|discriminate].
      destruct (encodeURIComponent rest') as [r|] eqn:Er; [|discriminate].
      injection Henc as <-.
      cbn [forallb] in Hrest. apply andb_true_iff in Hrest as [Hd Hrest'].
      destruct (IH rest' r) as (ts & Hts & Hdec); auto.
      { simpl in Hlen; lia. }
      exists (map Oct (utf8 (pair_to_codepoint c d)) ++ ts). split.
      - rewrite unescape_escape_octets, Hts; [reflexivity|].
        apply utf8_octets. apply pair_to_codepoint_range; assumption.
      - rewrite utf8_decode_utf8, Hdec by (apply valid_pair; assumption).
        cbn [option_map]. rewrite utf16_pair by assumption. reflexivity. }
    destruct (is_trail_surrogate c) eqn:Ht; [discriminate|].
    destruct (encodeURIComponent rest) as [r|] eqn:Er; [|discriminate].
    injection Henc as <-.
    destruct (IH rest r) as (ts & Hts & Hdec); auto.
    { simpl in Hlen; lia. }
    destruct (valid_unit c Hc Hl Ht) as [Hv H16].
    exists (map Oct (utf8 c) ++ ts). split.
    + rewrite unescape_escape_octets, Hts; [reflexivity|].
      apply utf8_octets. unfold is_codeunit in Hc. apply N.ltb_lt in Hc. lia.
    + rewrite utf8_decode_utf8, Hdec by exact Hv.
      cbn [option_map]. rewrite H16. reflexivity.
Qed.

(** [decodeURIComponent] inverts [encodeURIComponent]. *)
Lemma decode_encode (s e : jstring) :
  is_jstring s = true ->
  encodeURIComponent s = Some e -> decodeURIComponent e = Some s.
Proof.
  intros Hs He.
  destruct (unescape_encoded (n := length s) s (le_n _) Hs He)
    as (ts & Hts & Hdec).
  unfold decodeURIComponent. rewrite Hts. exact Hdec.
Qed.

(** [encodeURIComponent] throws exactly on the strings that hold an
    unpaired surrogate. *)
Lemma encode_defined (n : nat) :
  forall s, (length s <= n)%nat ->
    (well_formed s = true <-> exists e, encodeURIComponent s = Some e).
Proof.
  induction n as [|n IH]; intros s Hlen.
  - destruct s; [|simpl in Hlen; lia]. split; [|reflexivity].
    intros _. now exists [].
  - destruct s as [|c rest].
    { split; [|reflexivity]. intros _. now exists []. }
    cbn [well_formed encodeURIComponent].
    assert (Hrest : (length rest <= n)%nat) by (simpl in Hlen; lia).
    destruct (is_lead_surrogate c) eqn:Hl.
    + assert (Hu : is_unreserved c = false).
      { unfold is_lead_surrogate, is_unreserved, in_range in *. bools.
        cases; reflexivity. }
      rewrite Hu. destruct rest as [|d rest'].
      { split; [discriminate | intros [e He]; discriminate]. }
      destruct (is_trail_surrogate d); cbn [andb].
      * assert (Hrest' : (length rest' <= n)%nat) by (simpl in Hrest; lia).
        rewrite (IH rest' Hrest').
        destruct (encodeURIComponent rest') as [r|]; cbn [bind];
          split; intros [e He]; try discriminate; eauto.
      * split; [discriminate | intros [e He]; discriminate].
    + destruct (is_unreserved c) eqn:Hu.
      * assert (Ht : is_trail_surrogate c = false).
        { unfold is_trail_surrogate, is_unreserved, in_range in *.
          destruct (N.leb_spec 56320 c); [|reflexivity].
          exfalso. revert Hu. cases; discriminate. }
        rewrite Ht. cbn [negb andb]. rewrite (IH rest Hrest).
        destruct (encodeURIComponent rest) as [r|]; cbn [bind];
          split; intros [e He]; try discriminate; eauto.
      * destruct (is_trail_surrogate c); cbn [negb andb].
        { split; [discriminate | intros [e He]; discriminate]. }
        rewrite (IH rest Hrest).
        destruct (encodeURIComponent rest) as [r|]; cbn [bind];
          split; intros [e He]; try discriminate; eauto.
Qed.

Lemma encode_well_formed (s : jstring) :
  well_formed s = true <-> exists e, encodeURIComponent s = Some e.
Proof. apply (encode_defined (n := length s)). apply le_n. Qed.

Lemma encode_ill_formed (s : jstring) :
  well_formed s = false -> encodeURIComponent s = None.
Proof.
  intros H. destruct (encodeURIComponent s) as [e|] eqn:E; [|reflexivity].
  assert (W : well_formed s = true) by (apply encode_well_formed; eauto).
  congruence.
Qed.

Lemma hex_digit_unreserved (d : N) :
  (d < 16)%N -> is_unreserved (hex_digit d) = true.
Proof.
  intros H. unfold hex_digit, is_unreserved, in_range.
  destruct (N.ltb_spec d 10).
  - destruct (N.leb_spec 65 (48 + d)); [lia|].
    destruct (N.leb_spec 97 (48 + d)); [lia|].
    destruct (N.leb_spec 48 (48 + d)); [|lia].
    destruct (N.leb_spec (48 + d) 57); [|lia]. reflexivity.
  - destruct (N.leb_spec 65 (55 + d)); [|lia].
    destruct (N.leb_spec (55 + d) 90); [|lia]. reflexivity.
Qed.

Lemma escape_octets_chars (bs : list N) :
  Forall (fun b => (b < 256)%N) bs ->
  forallb is_uri_char (escape_octets bs) = true.
Proof.
  induction 1 as [|b bs Hb _ IH]; [reflexivity|].
  cbn [escape_octets flat_map]. fold (escape_octets bs).
  rewrite forallb_app, IH, andb_true_r.
  unfold escape_octet. cbn [forallb].
  unfold is_uri_char at 2 3.
  rewrite !hex_digit_unreserved.
  - reflexivity.
  - apply N.mod_lt. discriminate.
  - apply N.Div0.div_lt_upper_bound. lia.
Qed.

Lemma encoded_chars (n : nat) :
  forall s e, (length s <= n)%nat -> is_jstring s = true ->
    encodeURIComponent s = Some e -> forallb is_uri_char e = true.
Proof.
  induction n as [|n IH]; intros s e Hlen Hs Henc.
  - destruct s; [|simpl in Hlen; lia]. now injection Henc as <-.
  - destruct s as [|c rest]; [now injection Henc as <-|].
    cbn [is_jstring forallb] in Hs. apply andb_true_iff in Hs as [Hc Hrest].
    cbn [encodeURIComponent] in Henc.
    destruct (is_unreserved c) eqn:Hu.
    { destruct (encodeURIComponent rest) as [r|] eqn:Er; [|discriminate].
      injection Henc as <-. cbn [forallb]. unfold is_uri_char at 1.
      rewrite Hu. cbn [orb andb]. apply (IH rest); auto. simpl in Hlen; lia. }
    destruct (is_lead_surrogate c) eqn:Hl.
    { destruct rest as [|d rest']; [discriminate|].
      destruct (is_trail_surrogate d) eqn:Ht; [|discriminate].
      destruct (encodeURIComponent rest') as [r|] eqn:Er; [|discriminate].
      injection Henc as <-.
      cbn [forallb] in Hrest. apply andb_true_iff in Hrest as [Hd Hrest'].
      rewrite forallb_app, escape_octets_chars.
      - apply (IH rest'); auto. simpl in Hlen; lia.
      - apply utf8_octets. apply pair_to_codepoint_range; assumption. }
    destruct (is_trail_surrogate c) eqn:Ht; [discriminate|].
    destruct (encodeURIComponent rest) as [r|] eqn:Er; [|discriminate].
    injection Henc as <-.
    rewrite forallb_app, escape_octets_chars.
    + apply (IH rest); auto. simpl in Hlen; lia.
    + apply utf8_octets. unfold is_codeunit in Hc. apply N.ltb_lt in Hc. lia.
Qed.

(* --------------------------------------------------------------------- *)
(** ** Splitting, cutting and trimming *)

Lemma lacks_app (c : codeunit) (a b : jstring) :
  lacks c (a ++ b) = lacks c a && lacks c b.
Proof. unfold lacks. apply forallb_app. Qed.

Lemma lacks_cons (c x : codeunit) (a : jstring) :
  lacks c (x :: a) = negb (x =? c)%N && lacks c a.
Proof. reflexivity. Qed.

Lemma split_lacks (sep : codeunit) (a : jstring) :
  lacks sep a = true -> split sep a = [a].
Proof.
  induction a as [|x a IH]; [reflexivity|].
  rewrite lacks_cons. intros H. apply andb_true_iff in H as [Hx Ha].
  apply negb_true_iff in Hx. cbn [split]. rewrite Hx, IH by exact Ha.
  reflexivity.
Qed.

Lemma split_app (sep : codeunit) (a b : jstring) :
  lacks sep a = true -> split sep (a ++ sep :: b) = a :: split sep b.
Proof.
  induction a as [|x a IH]; intros H.
  - cbn [app split]. now rewrite N.eqb_refl.
  - rewrite lacks_cons in H. apply andb_true_iff in H as [Hx Ha].
    apply negb_true_iff in Hx. cbn [app split]. rewrite Hx, IH by exact Ha.
    reflexivity.
Qed.

Lemma split_parts_lack (sep c : codeunit) (s : jstring) :
  lacks c s = true -> Forall (fun p => lacks c p = true) (split sep s).
Proof.
  induction s as [|x s IH]; intros H.
  - repeat constructor.
  - rewrite lacks_cons in H. apply andb_true_iff in H as [Hx Hs].
    specialize (IH Hs). cbn [split].
    destruct (x =? sep)%N.
    + constructor; [reflexivity | exact IH].
    + destruct (split sep s) as [|p ps]; [repeat constructor; now rewrite lacks_cons, Hx|].
      inversion IH; subst. constructor; [|assumption].
      now rewrite lacks_cons, Hx.
Qed.

Lemma join_lacks (c : codeunit) (sep : jstring) (parts : list jstring) :
  lacks c sep = true -> Forall (fun p => lacks c p = true) parts ->
  lacks c (join sep parts) = true.
Proof.
  intros Hsep. induction 1 as [|p ps Hp Hps IH]; [reflexivity|].
  cbn [join]. destruct ps as [|q ps]; [exact Hp|].
  now rewrite !lacks_app, Hp, Hsep, IH.
Qed.

Lemma indexOf_lacks (c : codeunit) (a : jstring) :
  lacks c a = true -> indexOf c a = None.
Proof.
  induction a as [|x a IH]; [reflexivity|].
  rewrite lacks_cons. intros H. apply andb_true_iff in H as [Hx Ha].
  apply negb_true_iff in Hx. cbn [indexOf]. now rewrite Hx, IH.
Qed.

Lemma indexOf_app (c : codeunit) (a b : jstring) :
  lacks c a = true -> indexOf c (a ++ c :: b) = Some (length a).
Proof.
  induction a as [|x a IH]; intros H.
  - cbn [app indexOf]. now rewrite N.eqb_refl.
  - rewrite lacks_cons in H. apply andb_true_iff in H as [Hx Ha].
    apply negb_true_iff in Hx. cbn [app indexOf]. now rewrite Hx, IH.
Qed.

Lemma firstn_length_app {A} (a b : list A) : firstn (length a) (a ++ b) = a.
Proof.
  rewrite firstn_app, Nat.sub_diag, firstn_all. cbn [firstn].
  apply app_nil_r.
Qed.

Lemma skipn_length_app {A} (a b : list A) : skipn (length a) (a ++ b) = b.
Proof. rewrite skipn_app, Nat.sub_diag, skipn_all. reflexivity. Qed.

Lemma cut_app (c : codeunit) (a b : jstring) :
  lacks c a = true -> cut c (a ++ c :: b) = Some (a, b).
Proof.
  intros H. unfold cut. rewrite indexOf_app by exact H.
  rewrite firstn_length_app.
  change (S (length a)) with (1 + length a)%nat.
  rewrite <- skipn_skipn, skipn_length_app. reflexivity.
Qed.

Lemma drop_while_none (p : codeunit -> bool) (s : jstring) :
  forallb (fun c => negb (p c)) s = true -> drop_while p s = s.
Proof.
  destruct s as [|x s]; [reflexivity|]. cbn [forallb drop_while].
  intros H. apply andb_true_iff in H as [Hx _].
  apply negb_true_iff in Hx. now rewrite Hx.
Qed.

Lemma forallb_rev {A} (f : A -> bool) (l : list A) :
  forallb f (rev l) = forallb f l.
Proof.
  induction l as [|x l IH]; [reflexivity|].
  cbn [rev forallb]. rewrite forallb_app, IH. cbn [forallb].
  rewrite andb_true_r. apply andb_comm.
Qed.

Lemma trim_wsp_none (s : jstring) :
  forallb (fun c => negb (is_wsp c)) s = true -> trim_wsp s = s.
Proof.
  intros H. unfold trim_wsp. rewrite (drop_while_none is_wsp s H).
  rewrite drop_while_none by now rewrite forallb_rev.
  apply rev_involutive.
Qed.

Lemma forallb_impl {A} (f g : A -> bool) (l : list A) :
  (forall x, f x = true -> g x = true) ->
  forallb f l = true -> forallb g l = true.
Proof.
  intros Hfg. induction l as [|x l IH]; [reflexivity|].
  cbn [forallb]. intros H. apply andb_true_iff in H as [Hx Hl].
  now rewrite (Hfg x Hx), IH.
Qed.

(** What a clean string is free of. *)
Lemma clean_facts (s : jstring) :
  clean s = true ->
  lacks semicolon s = true /\ lacks equals_sign s = true
  /\ forallb (fun c => negb (is_wsp c)) s = true
  /\ forallb (fun c => negb (is_whitespace c)) s = true.
Proof.
  unfold clean, lacks. intros H.
  repeat split; revert H; apply forallb_impl; intros x Hx;
    apply negb_true_iff in Hx; unfold is_forbidden in Hx; bools;
    unfold semicolon, equals_sign, is_wsp, is_whitespace in *.
  - apply negb_true_iff. now apply N.eqb_neq.
  - apply negb_true_iff. now apply N.eqb_neq.
  - apply negb_true_iff.
    destruct (N.eqb_spec x 32) as [->|]; [discriminate|].
    destruct (N.eqb_spec x 9) as [->|]; [discriminate|]. reflexivity.
  - now apply negb_true_iff.
Qed.

Lemma uri_char_facts (s : jstring) :
  forallb is_uri_char s = true ->
  lacks semicolon s = true
  /\ forallb (fun c => negb (is_wsp c)) s = true
  /\ forallb (fun c => negb (is_whitespace c)) s = true.
Proof.
  unfold lacks. intros H.
  repeat split; revert H; apply forallb_impl; intros x Hx;
    apply negb_true_iff;
    unfold is_uri_char, is_unreserved, percent_sign, in_range in Hx;
    unfold semicolon, is_wsp, is_whitespace.
  - destruct (N.eqb_spec x 59) as [->|]; [discriminate|reflexivity].
  - destruct (N.eqb_spec x 32) as [->|]; [discriminate|].
    destruct (N.eqb_spec x 9) as [->|]; [discriminate|reflexivity].
  - revert Hx. cases; cbn; congruence.
Qed.

Lemma replace_forbidden_clean (k : jstring) : clean (replace_forbidden k) = true.
Proof.
  unfold clean, replace_forbidden.
  induction k as [|x k IH]; [reflexivity|]. cbn [map forallb].
  rewrite IH, andb_true_r.
  destruct (is_forbidden x) eqn:E; [reflexivity | now rewrite E].
Qed.

Lemma sanitizeKey_clean (key : jsval) (sk : jstring) :
  sanitizeKey key = Some sk -> clean sk = true /\ sk <> [].
Proof.
  unfold sanitizeKey. destruct key; try discriminate.
  destruct s as [|c s]; [discriminate|].
  destruct (Nat.ltb 200 (length (c :: s))); [discriminate|].
  intros [= <-]. split; [apply (replace_forbidden_clean (c :: s)) | discriminate].
Qed.

(* --------------------------------------------------------------------- *)
(** ** The text of a number *)

Lemma uint_text_digits (d : Decimal.uint) :
  forallb is_digit (js (NilEmpty.string_of_uint d)) = true.
Proof. induction d; cbn [NilEmpty.string_of_uint]; trivial; exact IHd. Qed.

Lemma int_text_chars (z : Z) :
  forallb (fun c => is_digit c || (c =? 45)%N)
          (js (NilZero.string_of_int (Z.to_int z))) = true.
Proof.
  assert (U : forall d, forallb (fun c => is_digit c || (c =? 45)%N)
                                (js (NilZero.string_of_uint d)) = true).
  { intros d. destruct d; try reflexivity;
      apply (forallb_impl is_digit); try (intros x ->; reflexivity);
      apply (uint_text_digits (_ d)). }
  destruct z as [|p|p]; cbn [Z.to_int NilZero.string_of_int].
  - reflexivity.
  - apply U.
  - change (forallb (fun c => is_digit c || (c =? 45)%N)
                    (45%N :: js (NilZero.string_of_uint (Pos.to_uint p)))
            = true).
    cbn [forallb]. now rewrite U.
Qed.

Lemma num_to_string_facts (n : jsnum) :
  lacks semicolon (num_to_string n) = true
  /\ forallb (fun c => negb (is_wsp c)) (num_to_string n) = true.
Proof.
  destruct n; try (split; reflexivity).
  unfold num_to_string, lacks.
  split;
    apply (forallb_impl (fun c => is_digit c || (c =? 45)%N));
    try apply int_text_chars;
    intros x Hx; apply negb_true_iff; unfold is_digit, is_wsp, semicolon in *;
    revert Hx; cases; cbn; congruence.
Qed.

Lemma to_ascii_string_js (s : string) : to_ascii_string (js s) = Some s.
Proof.
  induction s as [|a s IH]; [reflexivity|].
  change (js (String a s)) with (N_of_ascii a :: js s).
  cbn [to_ascii_string].
  destruct (N.ltb_spec (N_of_ascii a) 256) as [_|H].
  - rewrite IH, ascii_N_embedding. reflexivity.
  - pose proof (N_ascii_bounded a). lia.
Qed.

Lemma parse_max_age_int (z : Z) :
  parse_max_age (num_to_string (NumInt z)) = Some z.
Proof.
  unfold parse_max_age, num_to_string. rewrite to_ascii_string_js.
  rewrite NilZero.isi.
  - cbn [option_map]. now rewrite DecimalZ.of_to.
  - destruct z; cbn [Z.to_int]; try discriminate.
    intros [= E]. now apply DecimalPos.Unsigned.to_uint_nonnil in E.
  - destruct z; cbn [Z.to_int]; try discriminate.
    intros [= E]. now apply DecimalPos.Unsigned.to_uint_nonnil in E.
Qed.

(** With a [cookieMaxAge] that validation accepts, the [Max-Age] of a
    written cookie is absent or positive. *)
Lemma parse_max_age_accepted (n : jsnum) :
  num_le_zero n = false ->
  match parse_max_age (num_to_string n) with
  | Some d => (d <=? 0)%Z = false
  | None => True
  end.
Proof.
  destruct n; intros H; try exact I.
  rewrite parse_max_age_int. exact H.
Qed.

(* --------------------------------------------------------------------- *)
(** ** Assigning the cookie text the library builds *)

Lemma max_age_of_other (name value : jstring) (rest : list jstring)
      (cur : option Z) :
  lacks equals_sign name = true ->
  jstring_eqb (map to_lower (trim_wsp name)) (js "max-age") = false ->
  max_age_of ((name ++ equals_sign :: value) :: rest) cur = max_age_of rest cur.
Proof.
  intros Hn He. cbn [max_age_of]. rewrite cut_app by exact Hn. now rewrite He.
Qed.

Lemma max_age_of_this (value : jstring) (rest : list jstring)
      (cur : option Z) :
  forallb (fun c => negb (is_wsp c)) value = true ->
  max_age_of ((js " max-age" ++ equals_sign :: value) :: rest) cur
  = match parse_max_age value with
    | Some d => max_age_of rest (Some d)
    | None => max_age_of rest cur
    end.
Proof.
  intros Hv. cbn [max_age_of]. rewrite cut_app by reflexivity.
  rewrite (trim_wsp_none value Hv).
  change (jstring_eqb (map to_lower (trim_wsp (js " max-age"))) (js "max-age"))
    with true.
  reflexivity.
Qed.

Lemma max_age_of_text (M D : jstring) :
  forallb (fun c => negb (is_wsp c)) M = true ->
  max_age_of [js " max-age=" ++ M; js " domain=" ++ D; js " path=/";
              js " SameSite=Lax"] None
  = parse_max_age M.
Proof.
  intros HM.
  change (js " max-age=" ++ M) with (js " max-age" ++ equals_sign :: M).
  change (js " domain=" ++ D) with (js " domain" ++ equals_sign :: D).
  change (js " path=/") with (js " path" ++ equals_sign :: js "/").
  change (js " SameSite=Lax") with (js " SameSite" ++ equals_sign :: js "Lax").
  rewrite max_age_of_this by exact HM.
  destruct (parse_max_age M) as [d|];
    rewrite !max_age_of_other by reflexivity; reflexivity.
Qed.

Lemma cookie_assign_text (limit : option nat) (name value M D : jstring)
      (j : Jar) :
  clean name = true -> name <> [] ->
  lacks semicolon value = true ->
  forallb (fun c => negb (is_wsp c)) value = true ->
  lacks semicolon M = true ->
  forallb (fun c => negb (is_wsp c)) M = true ->
  lacks semicolon D = true ->
  cookie_assign limit
                (name ++ js "=" ++ value ++ js "; max-age=" ++ M
                 ++ js "; domain=" ++ D ++ js "; path=/; SameSite=Lax") j
  = if within limit (octets name + octets value)
    then match parse_max_age M with
         | Some d => if (d <=? 0)%Z then jar_remove name j
                     else jar_put name value j
         | None => jar_put name value j
         end
    else j.
Proof.
  intros Hname Hne Hv Hvw HM HMw HD.
  destruct (clean_facts name Hname) as (Hns & Hne' & Hnw & _).
  unfold cookie_assign.
  replace (name ++ js "=" ++ value ++ js "; max-age=" ++ M
           ++ js "; domain=" ++ D ++ js "; path=/; SameSite=Lax")
    with ((name ++ equals_sign :: value) ++ semicolon ::
          (js " max-age=" ++ M) ++ semicolon ::
          (js " domain=" ++ D) ++ semicolon ::
          js " path=/" ++ semicolon :: js " SameSite=Lax")
    by (rewrite <- !app_assoc; reflexivity).
  rewrite split_app
    by (rewrite lacks_app, lacks_cons, Hns, Hv; reflexivity).
  rewrite split_app by (rewrite lacks_app, HM; reflexivity).
  rewrite split_app by (rewrite lacks_app, HD; reflexivity).
  rewrite split_app by reflexivity.
  rewrite split_lacks by reflexivity.
  rewrite cut_app by exact Hne'.
  rewrite (trim_wsp_none name Hnw), (trim_wsp_none value Hvw).
  destruct name as [|c name]; [contradiction|].
  cbn [length Nat.eqb].
  destruct (within limit _); cbn [negb]; [|reflexivity].
  now rewrite max_age_of_text.
Qed.

Lemma Forall_skipn {A} (P : A -> Prop) (n : nat) (l : list A) :
  Forall P l -> Forall P (skipn n l).
Proof.
  intros H. revert n. induction H as [|x l Hx Hl IH]; intros [|n];
    cbn [skipn]; auto.
Qed.

Lemma getParentDomain_lacks (h : jstring) :
  lacks semicolon h = true -> lacks semicolon (getParentDomain h) = true.
Proof.
  intros H. unfold getParentDomain.
  destruct (jstring_eqb h (js "localhost") || dotted_quad_test h); [exact H|].
  destruct (Nat.ltb 2 (length (split dot h))).
  - rewrite lacks_app. cbn [js]. apply andb_true_iff. split; [reflexivity|].
    apply join_lacks; [reflexivity|]. unfold slice_last.
    apply Forall_skipn. now apply split_parts_lack.
  - now rewrite lacks_app, H.
Qed.

(** Writing stores the cookie, deleting removes it. *)
Lemma writeToCookie_stores (cfg : Config) (host : jstring) (key value : jsval)
      (d : Document) (sk sv enc : jstring) :
  clean (cookiePrefix cfg) = true ->
  num_le_zero (cookieMaxAge cfg) = false ->
  lacks semicolon host = true ->
  sanitizeKey key = Some sk -> sanitizeValue value = Some sv ->
  is_jstring sv = true -> encodeURIComponent sv = Some enc ->
  within (size_limit d) (octets (cookiePrefix cfg ++ sk) + octets enc) = true ->
  fst (writeToCookie cfg host key value d) = true
  /\ jar (snd (writeToCookie cfg host key value d))
     = jar_put (cookiePrefix cfg ++ sk) enc (jar d)
  /\ size_limit (snd (writeToCookie cfg host key value d)) = size_limit d.
Proof.
  intros Hp Hage Hh Hk Hv Hjs He Hfit.
  destruct (sanitizeKey_clean key Hk) as [Hsk Hne].
  unfold writeToCookie. rewrite Hk, Hv, He.
  destruct sk as [|c sk]; [contradiction|].
  cbn [fst snd]. split; [reflexivity|].
  unfold document_cookie_set. cbn [jar size_limit]. split; [|reflexivity].
  pose proof (encoded_chars (n := length sv) sv (le_n _) Hjs He) as Hc.
  destruct (uri_char_facts enc Hc) as (Hes & Hew & _).
  destruct (num_to_string_facts (cookieMaxAge cfg)) as [HMs HMw].
  rewrite <- !app_assoc.
  rewrite (app_assoc (cookiePrefix cfg) (c :: sk)).
  rewrite cookie_assign_text; auto.
  - rewrite Hfit.
    pose proof (parse_max_age_accepted (cookieMaxAge cfg) Hage) as Hm.
    destruct (parse_max_age (num_to_string (cookieMaxAge cfg)));
      [now rewrite Hm | reflexivity].
  - unfold clean in *. now rewrite forallb_app, Hp, Hsk.
  - intros E. apply app_eq_nil in E as [_ E]. discriminate.
  - now apply getParentDomain_lacks.
Qed.

Lemma deleteFromCookie_removes (cfg : Config) (host : jstring) (key : jsval)
      (d : Document) (sk : jstring) :
  clean (cookiePrefix cfg) = true ->
  lacks semicolon host = true ->
  sanitizeKey key = Some sk ->
  fst (deleteFromCookie cfg host key d) = true
  /\ jar (snd (deleteFromCookie cfg host key d))
     = (if within (size_limit d) (octets (cookiePrefix cfg ++ sk))
        then jar_remove (cookiePrefix cfg ++ sk) (jar d)
        else jar d)
  /\ size_limit (snd (deleteFromCookie cfg host key d)) = size_limit d.
Proof.
  intros Hp Hh Hk.
  destruct (sanitizeKey_clean key Hk) as [Hsk Hne].
  unfold deleteFromCookie. rewrite Hk.
  destruct sk as [|c sk]; [contradiction|].
  cbn [fst snd]. split; [reflexivity|].
  unfold document_cookie_set. cbn [jar size_limit]. split; [|reflexivity].
  change (js "=; max-age=0; domain=" ++ getParentDomain host
          ++ js "; path=/; SameSite=Lax")
    with (js "=" ++ [] ++ js "; max-age=" ++ js "0" ++ js "; domain="
          ++ getParentDomain host ++ js "; path=/; SameSite=Lax").
  rewrite cookie_assign_text; auto.
  - cbn [octets]. rewrite Nat.add_0_r. reflexivity.
  - unfold clean in *. now rewrite forallb_app, Hp, Hsk.
  - intros E. apply app_eq_nil in E as [_ E]. discriminate.
  - now apply getParentDomain_lacks.
Qed.

(* --------------------------------------------------------------------- *)
(** ** Reading the cookie string back *)

Lemma split_cons_other (sep x : codeunit) (s : jstring) :
  (x =? sep)%N = false ->
  split sep (x :: s) = match split sep s with
                       | [] => [[x]]
                       | p :: ps => (x :: p) :: ps
                       end.
Proof. intros H. cbn [split]. now rewrite H. Qed.

Lemma split_join (parts : list jstring) :
  Forall (fun p => lacks semicolon p = true) parts ->
  split semicolon (join (js "; ") parts)
  = match parts with
    | [] => [[]]
    | p :: ps => p :: map (cons 32%N) ps
    end.
Proof.
  induction 1 as [|p ps Hp Hps IH]; [reflexivity|].
  cbn [join]. destruct ps as [|q ps].
  - now apply split_lacks.
  - change (js "; " ++ join (js "; ") (q :: ps))
      with (semicolon :: 32%N :: join (js "; ") (q :: ps)).
    rewrite split_app by exact Hp.
    rewrite split_cons_other by reflexivity.
    rewrite IH. reflexivity.
Qed.

Lemma drop_while_stop (p : codeunit -> bool) (a b : jstring) (c : codeunit) :
  p c = false -> drop_while p (a ++ c :: b) = drop_while p a ++ c :: b.
Proof.
  intros Hc. induction a as [|x a IH]; cbn [app drop_while].
  - now rewrite Hc.
  - destruct (p x); [exact IH | reflexivity].
Qed.

Lemma trim_entry (sp n v : jstring) :
  forallb is_whitespace sp = true ->
  match n with c :: _ => is_whitespace c = false | [] => False end ->
  trim (sp ++ n ++ equals_sign :: v) = n ++ equals_sign :: trim_end v.
Proof.
  intros Hsp Hn. unfold trim, trim_end.
  rewrite (drop_while_run is_whitespace sp (n ++ equals_sign :: v) Hsp).
  - rewrite rev_app_distr. cbn [rev]. rewrite <- app_assoc. cbn [app].
    rewrite drop_while_stop by reflexivity.
    rewrite rev_app_distr. cbn [rev]. rewrite rev_involutive, <- app_assoc.
    reflexivity.
  - destruct n as [|c n]; [contradiction | exact Hn].
Qed.

Lemma find_cookie_step (name sp : jstring) (e : jstring * jstring)
      (rest : list jstring) :
  forallb is_whitespace sp = true -> entry_ok e = true ->
  find_cookie name ((sp ++ cookie_text e) :: rest)
  = if jstring_eqb (fst e) name then decodeURIComponent (trim_end (snd e))
    else find_cookie name rest.
Proof.
  intros Hsp He. unfold entry_ok in He. destruct e as [n v]. cbn [fst snd] in *.
  apply andb_true_iff in He as [He Hvs].
  apply andb_true_iff in He as [He Hne].
  apply andb_true_iff in He as [Hws Hns].
  unfold cookie_text. cbn [fst snd find_cookie].
  change (js "=" ++ v) with (equals_sign :: v).
  rewrite trim_entry; [|exact Hsp|].
  - rewrite indexOf_app by exact Hne.
    unfold substring, substring_from. rewrite Nat.sub_0_r. cbn [skipn].
    rewrite firstn_length_app.
    replace (length n + 1)%nat with (S (length n)) by lia.
    change (S (length n)) with (1 + length n)%nat.
    rewrite <- skipn_skipn, skipn_length_app. reflexivity.
  - destruct n as [|c n]; [discriminate|]. now apply negb_true_iff.
Qed.

Lemma find_cookie_rest (name : jstring) (j : Jar) :
  jar_ok j = true ->
  find_cookie name (map (cons 32%N) (map cookie_text j)) = stored_value name j.
Proof.
  unfold stored_value. induction j as [|e j IH]; [reflexivity|].
  cbn [jar_ok forallb]. intros H. apply andb_true_iff in H as [He Hj].
  cbn [map assoc_get].
  change (32%N :: cookie_text e) with ([32%N] ++ cookie_text e).
  rewrite find_cookie_step by (reflexivity || exact He).
  destruct (jstring_eqb (fst e) name); [reflexivity | now apply IH].
Qed.

Lemma entry_text_lacks (e : jstring * jstring) :
  entry_ok e = true -> lacks semicolon (cookie_text e) = true.
Proof.
  unfold entry_ok, cookie_text. intros He.
  apply andb_true_iff in He as [He Hvs].
  apply andb_true_iff in He as [He Hne].
  apply andb_true_iff in He as [Hws Hns].
  now rewrite !lacks_app, Hns, Hvs.
Qed.

(** Reading finds the first cookie of the name in the store. *)
Lemma find_cookie_jar (name : jstring) (j : Jar) :
  jar_ok j = true ->
  find_cookie name (split semicolon (cookie_string j)) = stored_value name j.
Proof.
  intros Hj. unfold cookie_string.
  rewrite split_join.
  - destruct j as [|e j]; [reflexivity|].
    cbn [jar_ok forallb] in Hj. apply andb_true_iff in Hj as [He Hj].
    cbn [map].
    pose proof (find_cookie_step name [] e
                  (map (cons 32%N) (map cookie_text j)) eq_refl He) as Hstep.
    cbn [app] in Hstep. etransitivity; [exact Hstep|].
    unfold stored_value. cbn [assoc_get].
    destruct (jstring_eqb (fst e) name); [reflexivity|].
    now apply find_cookie_rest.
  - apply Forall_forall. intros p Hp. apply in_map_iff in Hp as (e & <- & He).
    apply entry_text_lacks.
    unfold jar_ok in Hj. rewrite forallb_forall in Hj. now apply Hj.
Qed.

Lemma readFromCookie_stored (cfg : Config) (key : jsval) (d : Document)
      (sk : jstring) :
  jar_ok (jar d) = true -> sanitizeKey key = Some sk ->
  readFromCookie cfg key d = stored_value (cookiePrefix cfg ++ sk) (jar d).
Proof.
  intros Hj Hk. destruct (sanitizeKey_clean key Hk) as [_ Hne].
  unfold readFromCookie. rewrite Hk.
  destruct sk as [|c sk]; [contradiction|].
  unfold document_cookie.
  destruct (jar d) as [|e j] eqn:Ej; [reflexivity|].
  destruct (Nat.eqb (length (cookie_string (e :: j))) 0) eqn:El.
  - exfalso. apply Nat.eqb_eq in El. apply length_zero_iff_nil in El.
    unfold cookie_string in El. cbn [map join] in El.
    destruct e as [n v], j as [|e' j]; cbn [fst snd] in El;
      destruct n; discriminate El.
  - now apply find_cookie_jar.
Qed.

(* --------------------------------------------------------------------- *)
(** ** The store as an association list *)

Lemma assoc_get_put_eq {V} (k : jstring) (v : V) (l : list (jstring * V)) :
  assoc_get k (assoc_put k v l) = Some v.
Proof.
  induction l as [|e l IH]; cbn [assoc_put assoc_get fst snd].
  - now rewrite jstring_eqb_refl.
  - destruct (jstring_eqb (fst e) k) eqn:E; cbn [assoc_get fst snd].
    + now rewrite jstring_eqb_refl.
    + now rewrite E.
Qed.

Lemma assoc_get_put_ne {V} (k k' : jstring) (v : V) (l : list (jstring * V)) :
  k <> k' -> assoc_get k' (assoc_put k v l) = assoc_get k' l.
Proof.
  intros Hne. apply jstring_eqb_neq in Hne.
  induction l as [|e l IH]; cbn [assoc_put assoc_get fst snd].
  - now rewrite Hne.
  - destruct (jstring_eqb (fst e) k) eqn:E; cbn [assoc_get fst snd].
    + apply jstring_eqb_eq in E. rewrite E, Hne. reflexivity.
    + now rewrite IH.
Qed.

Lemma assoc_get_remove_eq {V} (k : jstring) (l : list (jstring * V)) :
  assoc_get k (assoc_remove k l) = None.
Proof.
  unfold assoc_remove. induction l as [|e l IH]; [reflexivity|].
  cbn [filter]. destruct (jstring_eqb (fst e) k) eqn:E; cbn [negb];
    [exact IH|]. cbn [assoc_get]. now rewrite E.
Qed.

Lemma assoc_get_remove_ne {V} (k k' : jstring) (l : list (jstring * V)) :
  k <> k' -> assoc_get k' (assoc_remove k l) = assoc_get k' l.
Proof.
  intros Hne. unfold assoc_remove. induction l as [|e l IH]; [reflexivity|].
  cbn [filter assoc_get].
  destruct (jstring_eqb (fst e) k) eqn:E; cbn [negb assoc_get].
  - apply jstring_eqb_eq in E. apply jstring_eqb_neq in Hne.
    now rewrite E, Hne.
  - now rewrite IH.
Qed.

Lemma assoc_get_None_keys {V} (k : jstring) (l : list (jstring * V)) :
  assoc_get k l = None <-> ~ In k (map fst l).
Proof.
  induction l as [|e l IH]; cbn [assoc_get map In]; [tauto|].
  destruct (jstring_eqb (fst e) k) eqn:E.
  - apply jstring_eqb_eq in E. split; [discriminate | tauto].
  - apply jstring_eqb_neq in E. tauto.
Qed.

Lemma jar_ok_put (name value : jstring) (j : Jar) :
  entry_ok (name, value) = true -> jar_ok j = true ->
  jar_ok (jar_put name value j) = true.
Proof.
  intros He. unfold jar_ok, jar_put.
  induction j as [|e j IH]; cbn [assoc_put forallb].
  - now rewrite He.
  - intros H. apply andb_true_iff in H as [H1 H2].
    destruct (jstring_eqb (fst e) name); cbn [forallb].
    + now rewrite He, H2.
    + now rewrite H1, IH.
Qed.

Lemma jar_ok_remove (name : jstring) (j : Jar) :
  jar_ok j = true -> jar_ok (jar_remove name j) = true.
Proof.
  unfold jar_ok, jar_remove, assoc_remove.
  induction j as [|e j IH]; [reflexivity|]. cbn [forallb filter].
  intros H. apply andb_true_iff in H as [H1 H2].
  destruct (negb (jstring_eqb (fst e) name)); cbn [forallb];
    [now rewrite H1, IH | now apply IH].
Qed.

Lemma trim_end_none (s : jstring) :
  forallb (fun c => negb (is_whitespace c)) s = true -> trim_end s = s.
Proof.
  intros H. unfold trim_end.
  rewrite drop_while_none by now rewrite forallb_rev.
  apply rev_involutive.
Qed.

Lemma cookie_entry_ok (prefix sk enc : jstring) :
  clean prefix = true -> clean sk = true -> sk <> [] ->
  lacks semicolon enc = true ->
  entry_ok (prefix ++ sk, enc) = true.
Proof.
  intros Hp Hs Hne He.
  assert (Hc : clean (prefix ++ sk) = true)
    by (unfold clean in *; now rewrite forallb_app, Hp, Hs).
  destruct (clean_facts _ Hc) as (H1 & H2 & _ & H4).
  unfold entry_ok. cbn [fst snd]. rewrite H1, H2, He, !andb_true_r.
  destruct (prefix ++ sk) as [|c r] eqn:E.
  - apply app_eq_nil in E as [_ E]. contradiction.
  - cbn [forallb] in H4. now apply andb_true_iff in H4 as [H4 _].
Qed.

(* --------------------------------------------------------------------- *)
(** ** Cookie codec: round trip and failure *)




(** What the check of [sanitizeValue] leaves open: 1400 spaces pass it,
    their encoded form takes 4200 octets, a host that bounds a cookie by
    4096 ignores the assignment, and [writeToCookie] still returns
    [true]. *)
Lemma writeToCookie_encoded_size_unchecked :
  let key := JStr (js "k") in
  let v := repeat 32%N 1400 in
  let d := mkDocument [] [] (Some 4096%nat) in
  fst (writeToCookie default_config (js "app.example.com") key (JStr v) d)
  = true
  /\ readFromCookie default_config key
       (snd (writeToCookie default_config (js "app.example.com") key
                           (JStr v) d))
     = None.
Proof. vm_compute. split; reflexivity. Qed.

(** The string [sanitizeValue] checks the length of. *)
Lemma sanitizeValue_None (value : jsval) :
  sanitizeValue value = None <->
  (maxSize < length (match value with
                     | JNull | JUndefined => []
                     | JStr s => s
                     | _ => to_string value
                     end))%nat.
Proof.
  unfold sanitizeValue.
  destruct value; cbn [length]; try (split; [discriminate | unfold maxSize; lia]);
    match goal with
    | |- context [Nat.ltb ?a ?b] => destruct (Nat.ltb_spec a b)
    end; split; try discriminate; try reflexivity; try lia; auto.
Qed.

Lemma sanitizeKey_None (key : jsval) :
  sanitizeKey key = None <->
  (forall k, key = JStr k -> k = [] \/ (200 < length k)%nat).
Proof.
  unfold sanitizeKey. destruct key; try (split; [discriminate | reflexivity]).
  destruct s as [|c s].
  - split; [intros _ k [= <-]; now left | reflexivity].
  - cbn [length Nat.eqb].
    destruct (Nat.ltb_spec 200 (S (length s))).
    + split; [intros _ k [= <-]; now right | reflexivity].
    + split; [discriminate|]. intros Hall.
      destruct (Hall (c :: s) eq_refl) as [E|E];
        [discriminate | cbn in E; lia].
Qed.

(** C7.  [writeToCookie] never throws: it is a total function, and the
    only exception in its body, the [URIError] of the host, is turned into
    [false].  The key fails sanitisation exactly when it is not a string,
    is empty or is longer than 200; the value fails exactly when the
    sanitised string is longer than 3500.  On either failure the result
    is [false] and the document, its cookie store included, is the one
    before the call, so a key that read as [null] still does. *)
Theorem writeToCookie_failure (cfg : Config) (host : jstring)
        (key value : jsval) (d : Document) :
  (sanitizeKey key = None <->
   (forall k, key = JStr k -> k = [] \/ (200 < length k)%nat))
  /\ (sanitizeValue value = None <->
      (3500 < length (match value with
                      | JNull | JUndefined => []
                      | JStr s => s
                      | _ => to_string value
                      end))%nat)
  /\ (sanitizeKey key = None \/ sanitizeValue value = None ->
      writeToCookie cfg host key value d = (false, d)
      /\ (readFromCookie cfg key d = None ->
          readFromCookie cfg key (snd (writeToCookie cfg host key value d))
          = None)).
Proof.
  split; [apply sanitizeKey_None|]. split; [apply sanitizeValue_None|].
  intros H.
  assert (E : writeToCookie cfg host key value d = (false, d)).
  { unfold writeToCookie. destruct H as [-> | Hv]; [reflexivity|].
    rewrite Hv. destruct (sanitizeKey key) as [[|? ?]|]; reflexivity. }
  split; [exact E|]. now rewrite E.
Qed.

(** The value of 5000 ['x'] of the test suite, on an empty store. *)
Lemma writeToCookie_failure_witness :
  let key := JStr (js "large") in
  let value := JStr (repeat 120%N 5000) in
  let d := mkDocument [] [] (Some 4096%nat) in
  writeToCookie default_config (js "localhost") key value d = (false, d)
  /\ readFromCookie default_config key
       (snd (writeToCookie default_config (js "localhost") key value d))
     = None.
Proof.
  intros key value d.
  destruct (writeToCookie_failure default_config (js "localhost") key value d)
    as (_ & Hv & H).
  assert (Hfail : sanitizeValue value = None).
  { apply Hv. unfold value. rewrite repeat_length. lia. }
  destruct (H (or_intror Hfail)) as [E R].
  split; [exact E | apply R; reflexivity].
Defined.

(* --------------------------------------------------------------------- *)
(** ** What the operations on storage and cookies leave alone *)

Lemma same_setup_refl (w : World) : same_setup w w.
Proof. unfold same_setup. repeat split. Qed.

Lemma same_setup_trans (w1 w2 w3 : World) :
  same_setup w1 w2 -> same_setup w2 w3 -> same_setup w1 w3.
Proof.
  unfold same_setup. intros H12 H23.
  repeat match goal with
         | H : _ /\ _ |- _ => destruct H
         end.
  repeat split; congruence.
Qed.

Lemma set_document_setup (d : Document) (w : World) :
  same_setup w (set_document d w).
Proof. unfold same_setup. repeat split. Qed.

Lemma set_storage_setup (s : StorageId) (st : Storage) (w : World) :
  same_setup w (set_storage s st w).
Proof. unfold same_setup. repeat split. Qed.

Lemma log_nativeSet_setup (e : NativeSet) (w : World) :
  same_setup w (log_nativeSet e w).
Proof. unfold same_setup. repeat split. Qed.

Lemma mirror_write_setup (key value : jsval) (w : World) :
  same_setup w (mirror_write key value w).
Proof. apply set_document_setup. Qed.

Lemma mirror_delete_setup (key : jsval) (w : World) :
  same_setup w (mirror_delete key w).
Proof. apply set_document_setup. Qed.

Lemma call_setItem_setup (fn : Method) (s : StorageId) (k v : jsval)
      (w : World) :
  same_setup w (fst (call_setItem fn s k v w)).
Proof.
  induction fn as [|original IH]; cbn [call_setItem].
  - destruct (native_setItem _ _ _); cbn [fst].
    + eapply same_setup_trans; [apply set_storage_setup|].
      apply log_nativeSet_setup.
    + apply log_nativeSet_setup.
  - destruct (call_setItem original s k v w) as [w1 returned].
    cbn [fst] in IH. destruct returned; [|exact IH].
    destruct (_ && _); cbn [fst]; [|exact IH].
    eapply same_setup_trans; [exact IH | apply mirror_write_setup].
Qed.

Lemma call_removeItem_setup (fn : Method) (s : StorageId) (k : jsval)
      (w : World) :
  same_setup w (call_removeItem fn s k w).
Proof.
  induction fn as [|original IH]; cbn [call_removeItem].
  - apply set_storage_setup.
  - destruct (_ && _); [|exact IH].
    eapply same_setup_trans; [exact IH | apply mirror_delete_setup].
Qed.

Lemma delete_synced_setup (keys : list jstring) (w : World) :
  same_setup w (delete_synced keys w).
Proof.
  unfold delete_synced. revert w.
  induction keys as [|k keys IH]; intros w; cbn [fold_left].
  - apply same_setup_refl.
  - eapply same_setup_trans; [|apply IH].
    destruct (shouldSync _ _); [apply mirror_delete_setup | apply same_setup_refl].
Qed.

Lemma call_clear_setup (fn : Method) (s : StorageId) (w : World) :
  same_setup w (call_clear fn s w).
Proof.
  induction fn as [|original IH]; cbn [call_clear].
  - apply set_storage_setup.
  - destruct (shouldSyncStorage _ _); [|exact IH].
    eapply same_setup_trans; [exact IH | apply delete_synced_setup].
Qed.

(** The fields [same_setup] speaks of, one at a time. *)
Lemma setup_CONFIG (w w' : World) : same_setup w w' -> CONFIG w' = CONFIG w.
Proof. unfold same_setup. tauto. Qed.

Lemma setup_hostname (w w' : World) : same_setup w w' -> hostname w' = hostname w.
Proof. unfold same_setup. tauto. Qed.

Lemma setup_originalSetItem (w w' : World) :
  same_setup w w' -> originalSetItem w' = originalSetItem w.
Proof. unfold same_setup. tauto. Qed.

Lemma setup_dispatched (w w' : World) :
  same_setup w w' -> dispatched w' = dispatched w.
Proof. unfold same_setup. tauto. Qed.

(* --------------------------------------------------------------------- *)
(** ** The replay pass: the counters of the report *)

Lemma sync_entry_count (s : StorageId) (e : jstring * jstring) (p : Pass) :
  exists n,
    pass_syncCount (sync_entry s e p) = (pass_syncCount p + n)%nat
    /\ length (pass_syncedKeys (sync_entry s e p))
       = (length (pass_syncedKeys p) + n)%nat.
Proof.
  unfold sync_entry.
  destruct (negb (shouldSync _ _)); [exists 0%nat; lia|].
  destruct (_ && _).
  - destruct (call_setItem _ _ _ _ _) as [w' [|]]; cbn [pass_syncCount pass_syncedKeys].
    + exists 1%nat. rewrite length_app. cbn [length]. lia.
    + exists 0%nat. lia.
  - destruct (_ && _); cbn [pass_syncCount pass_syncedKeys]; exists 0%nat; lia.
Qed.

Lemma sync_entries_count (s : StorageId) (es : list (jstring * jstring)) :
  forall p, exists n,
    pass_syncCount (fold_left (fun p e => sync_entry s e p) es p)
    = (pass_syncCount p + n)%nat
    /\ length (pass_syncedKeys (fold_left (fun p e => sync_entry s e p) es p))
       = (length (pass_syncedKeys p) + n)%nat.
Proof.
  induction es as [|e es IH]; intros p; cbn [fold_left].
  - exists 0%nat. lia.
  - destruct (sync_entry_count s e p) as (n1 & H1 & H2).
    destruct (IH (sync_entry s e p)) as (n2 & H3 & H4).
    exists (n1 + n2)%nat. lia.
Qed.

Lemma sync_storage_count (es : list (jstring * jstring)) (total : Pass)
      (s : StorageId) :
  pass_syncCount total = length (pass_syncedKeys total) ->
  pass_syncCount (sync_storage es total s)
  = length (pass_syncedKeys (sync_storage es total s)).
Proof.
  intros H. unfold sync_storage. cbn [pass_syncCount pass_syncedKeys].
  destruct (sync_entries_count s es
              (mkPass (pass_world total) 0 (pass_syncedKeys total)
                      (pass_skippedKeys total))) as (n & H1 & H2).
  cbn [pass_syncCount pass_syncedKeys] in H1, H2. lia.
Qed.

Lemma replay_count (syncData : Obj) (w : World) :
  pass_syncCount (replay syncData w)
  = length (pass_syncedKeys (replay syncData w)).
Proof.
  unfold replay.
  assert (G : forall L total,
             pass_syncCount total = length (pass_syncedKeys total) ->
             pass_syncCount (fold_left (sync_storage (Object_entries syncData)) L total)
             = length (pass_syncedKeys
                         (fold_left (sync_storage (Object_entries syncData)) L total))).
  { induction L as [|s L IH]; intros total H; cbn [fold_left]; [exact H|].
    apply IH. now apply sync_storage_count. }
  apply G. reflexivity.
Qed.

(* --------------------------------------------------------------------- *)
(** ** Plain objects: the entries are the properties, each key once *)

Lemma insert_by_index_perm (x : N * (jstring * jstring))
      (l : list (N * (jstring * jstring))) :
  Permutation (x :: l) (insert_by_index x l).
Proof.
  induction l as [|y l IH]; cbn [insert_by_index]; [reflexivity|].
  destruct (fst x <=? fst y)%N; [reflexivity|].
  rewrite perm_swap. now apply perm_skip.
Qed.

Lemma sort_by_index_perm (l : list (N * (jstring * jstring))) :
  Permutation l (fold_right insert_by_index [] l).
Proof.
  induction l as [|x l IH]; cbn [fold_right]; [reflexivity|].
  rewrite <- insert_by_index_perm. now apply perm_skip.
Qed.

Lemma indexed_named (o : Obj) :
  Permutation o (map snd (indexed o) ++ filter is_named o).
Proof.
  unfold indexed, is_named.
  induction o as [|e o IH]; cbn [flat_map filter map app]; [reflexivity|].
  destruct (array_index (fst e)); cbn [map app].
  - now apply perm_skip.
  - now apply Permutation_cons_app.
Qed.

Lemma Object_entries_perm (o : Obj) : Permutation o (Object_entries o).
Proof.
  unfold Object_entries. rewrite <- sort_by_index_perm. apply indexed_named.
Qed.

Lemma Object_keys_length (o : Obj) : length (Object_keys o) = length o.
Proof.
  unfold Object_keys. rewrite length_map.
  symmetry. apply Permutation_length, Object_entries_perm.
Qed.

Lemma assoc_put_keys_in {V} (k x : jstring) (v : V) (l : list (jstring * V)) :
  In x (map fst (assoc_put k v l)) -> x = k \/ In x (map fst l).
Proof.
  induction l as [|e l IH]; cbn [assoc_put map In fst]; intros Hx.
  - destruct Hx as [<-|[]]. now left.
  - destruct (jstring_eqb (fst e) k); cbn [map In fst] in Hx.
    + destruct Hx as [<-|Hx]; [now left | now right; right].
    + destruct Hx as [Hx|Hx]; [now right; left|].
      destruct (IH Hx); [now left | now right; right].
Qed.

Lemma assoc_put_keys {V} (k : jstring) (v : V) (l : list (jstring * V)) :
  NoDup (map fst l) -> NoDup (map fst (assoc_put k v l)).
Proof.
  induction l as [|e l IH]; cbn [assoc_put map fst]; intros H.
  - constructor; [intros [] | constructor].
  - inversion H as [|? ? Hn Hl]; subst.
    destruct (jstring_eqb (fst e) k) eqn:E; cbn [map fst].
    + apply jstring_eqb_eq in E. subst k. now constructor.
    + constructor; [|now apply IH].
      intros Hin. apply jstring_eqb_neq in E.
      destruct (assoc_put_keys_in _ _ _ _ Hin); [congruence | contradiction].
Qed.

Lemma obj_set_keys (k v : jstring) (o : Obj) :
  NoDup (map fst o) -> NoDup (map fst (obj_set k v o)).
Proof.
  intros H. unfold obj_set. destruct (jstring_eqb k (js "__proto__"));
    [exact H | now apply assoc_put_keys].
Qed.

Lemma collect_cookies_keys (cfg : Config) (cookies : list jstring) :
  forall syncData, NoDup (map fst syncData) ->
    NoDup (map fst (collect_cookies cfg cookies syncData)).
Proof.
  induction cookies as [|c cookies IH]; intros o Ho; cbn [collect_cookies];
    [exact Ho|].
  destruct (indexOf equals_sign (trim c)); [|now apply IH].
  destruct (_ && _); [|now apply IH].
  destruct (decodeURIComponent _); [|exact Ho].
  apply IH. now apply obj_set_keys.
Qed.

Lemma snapshot_keys (cfg : Config) (d : Document) :
  NoDup (map fst (Object_entries (getAllSyncCookies cfg d))).
Proof.
  apply (Permutation_NoDup (l := map fst (getAllSyncCookies cfg d))).
  - apply Permutation_map, Object_entries_perm.
  - apply collect_cookies_keys. constructor.
Qed.

(* --------------------------------------------------------------------- *)
(** ** The replay pass: which entries are written *)


Lemma storage_of_set_other (s : StorageId) (st : Storage) (w : World) :
  storage_of (set_storage s st w) (other_storage s)
  = storage_of w (other_storage s).
Proof. now destruct s. Qed.

Lemma other_storage_spec (s s' : StorageId) : s' <> s -> s' = other_storage s.
Proof. destruct s, s'; cbn; congruence. Qed.

Lemma truthy_string (v : jstring) : truthy (JStr v) = true <-> v <> [].
Proof. destruct v; cbn; split; congruence. Qed.

Lemma replay_writes_iff (cfg : Config) (st : Storage) (k v : jstring) :
  (overwriteExisting cfg || is_null (native_getItem k st)) && truthy (JStr v)
  = true <-> replay_writes cfg st k v.
Proof.
  unfold replay_writes. rewrite andb_true_iff, orb_true_iff, truthy_string.
  destruct (native_getItem k st); cbn [is_null]; intuition congruence.
Qed.

Lemma native_setItem_get (k v : jstring) (st st' : Storage) :
  native_setItem k v st = Some st' ->
  native_getItem k st' = Some v
  /\ forall k', k' <> k -> native_getItem k' st' = native_getItem k' st.
Proof.
  unfold native_setItem, native_getItem. intros H.
  assert (E : items st' = assoc_put k v (items st)).
  { destruct (quota st); [destruct (Nat.ltb _ _); [discriminate|]|];
      injection H as <-; reflexivity. }
  rewrite E. split; [apply assoc_get_put_eq|].
  intros k' Hne. apply assoc_get_put_ne. congruence.
Qed.

(** One entry, one area: what the body of the inner loop does when the
    original primitive is the native one. *)
Lemma sync_entry_native (s : StorageId) (k v : jstring) (p : Pass) :
  originalSetItem (pass_world p) = Native ->
  let w := pass_world p in
  let w1 := pass_world (sync_entry s (k, v) p) in
  same_setup w w1 /\ document w1 = document w
  /\ storage_of w1 (other_storage s) = storage_of w (other_storage s)
  /\ (forall k', k' <> k ->
      native_getItem k' (storage_of w1 s) = native_getItem k' (storage_of w s))
  /\ exists calls,
      nativeSets w1 = nativeSets w ++ calls
      /\ (forall c, In c calls -> c = mkNativeSet s k v (ns_ok c))
      /\ (shouldSync (CONFIG w) (JStr k) = true ->
          ((exists ok, In (mkNativeSet s k v ok) calls)
           <-> replay_writes (CONFIG w) (storage_of w s) k v))
      /\ (In (mkNativeSet s k v true) calls ->
          native_getItem k (storage_of w1 s) = Some v).
Proof.
  intros Horig w w1. subst w w1. unfold sync_entry. cbn [fst snd].
  set (w := pass_world p) in *.
  assert (Nothing :
    same_setup w w /\ document w = document w
    /\ storage_of w (other_storage s) = storage_of w (other_storage s)
    /\ (forall k', k' <> k ->
        native_getItem k' (storage_of w s) = native_getItem k' (storage_of w s))).
  { split; [apply same_setup_refl | repeat split]. }
  destruct (shouldSync (CONFIG w) (JStr k)) eqn:Hsync; cbn [negb].
  2:{ destruct Nothing as (A & B & C & D). repeat (split; [assumption|]).
      exists []. rewrite app_nil_r. repeat split; try discriminate;
        intros; contradiction || (exfalso; firstorder). }
  destruct ((overwriteExisting (CONFIG w)
             || is_null (native_getItem k (storage_of w s)))
            && truthy (JStr v)) eqn:Hcond.
  - apply replay_writes_iff in Hcond. rewrite Horig. cbn [call_setItem to_string].
    destruct (native_setItem k v (storage_of w s)) as [st'|] eqn:Hset;
      cbn [pass_world].
    + destruct (native_setItem_get _ _ _ Hset) as [Hget Hothers].
      split; [|split; [|split; [|split]]].
      * eapply same_setup_trans; [apply set_storage_setup|].
        apply log_nativeSet_setup.
      * reflexivity.
      * cbn [log_nativeSet storage_of]. destruct s; reflexivity.
      * intros k' Hne. cbn [log_nativeSet].
        destruct s; cbn [storage_of set_storage localStorage sessionStorage];
          now apply Hothers.
      * exists [mkNativeSet s k v true]. split; [reflexivity|].
        split; [intros c [<-|[]]; reflexivity|].
        split; [intros _; split; [intros _; exact Hcond|]|].
        -- intros _. exists true. now left.
        -- intros _. destruct s;
             cbn [storage_of log_nativeSet set_storage localStorage
                  sessionStorage]; exact Hget.
    + destruct Nothing as (A & B & C & D).
      split; [apply log_nativeSet_setup|].
      split; [reflexivity|]. split; [destruct s; reflexivity|].
      split; [intros k' _; destruct s; reflexivity|].
      exists [mkNativeSet s k v false]. split; [reflexivity|].
      split; [intros c [<-|[]]; reflexivity|].
      split; [intros _; split; [intros _; exact Hcond|]|].
      * intros _. exists false. now left.
      * intros [E|[]]. discriminate E.
  - assert (Hno : ~ replay_writes (CONFIG w) (storage_of w s) k v).
    { intros H. apply replay_writes_iff in H. congruence. }
    assert (Same : forall q : Pass, pass_world q = w ->
      same_setup w (pass_world q) /\ document (pass_world q) = document w
      /\ storage_of (pass_world q) (other_storage s)
         = storage_of w (other_storage s)
      /\ (forall k', k' <> k ->
          native_getItem k' (storage_of (pass_world q) s)
          = native_getItem k' (storage_of w s))
      /\ exists calls,
          nativeSets (pass_world q) = nativeSets w ++ calls
          /\ (forall c, In c calls -> c = mkNativeSet s k v (ns_ok c))
          /\ (true = true ->
              ((exists ok, In (mkNativeSet s k v ok) calls)
               <-> replay_writes (CONFIG w) (storage_of w s) k v))
          /\ (In (mkNativeSet s k v true) calls ->
              native_getItem k (storage_of (pass_world q) s) = Some v)).
    { intros q ->. destruct Nothing as (A & B & C & D).
      repeat (split; [assumption|]).
      exists []. rewrite app_nil_r. split; [reflexivity|].
      split; [intros c []|]. split; [|intros []].
      intros _. split; [intros [ok []] | intros H; contradiction]. }
    destruct (negb (is_null (native_getItem k (storage_of w s)))
              && negb (overwriteExisting (CONFIG w)));
      apply Same; reflexivity.
Qed.

Lemma replay_writes_same (cfg : Config) (st st' : Storage) (k v : jstring) :
  native_getItem k st' = native_getItem k st ->
  replay_writes cfg st' k v <-> replay_writes cfg st k v.
Proof. unfold replay_writes. now intros ->. Qed.

(** The inner loop over entries with distinct keys. *)
Lemma sync_entries_native (s : StorageId) (es : list (jstring * jstring)) :
  NoDup (map fst es) ->
  forall p, originalSetItem (pass_world p) = Native ->
  let w := pass_world p in
  let w' := pass_world (fold_left (fun p e => sync_entry s e p) es p) in
  same_setup w w' /\ document w' = document w
  /\ storage_of w' (other_storage s) = storage_of w (other_storage s)
  /\ (forall k, ~ In k (map fst es) ->
      native_getItem k (storage_of w' s) = native_getItem k (storage_of w s))
  /\ exists calls,
      nativeSets w' = nativeSets w ++ calls
      /\ (forall c, In c calls ->
          ns_storage c = s /\ In (ns_key c, ns_value c) es)
      /\ (forall k v, In (k, v) es -> shouldSync (CONFIG w) (JStr k) = true ->
          ((exists ok, In (mkNativeSet s k v ok) calls)
           <-> replay_writes (CONFIG w) (storage_of w s) k v)
          /\ (In (mkNativeSet s k v true) calls ->
              native_getItem k (storage_of w' s) = Some v)).
Proof.
  induction es as [|[k0 v0] es IH]; intros Hnd p Horig; cbn [fold_left].
  - cbn zeta. split; [apply same_setup_refl|]. split; [reflexivity|].
    split; [reflexivity|]. split; [reflexivity|].
    exists []. rewrite app_nil_r. split; [reflexivity|].
    split; [intros c []|]. intros k v [].
  - cbn [map fst] in Hnd. inversion Hnd as [|? ? Hk0 Hnd']; subst.
    destruct (sync_entry_native s k0 v0 p Horig)
      as (S1 & D1 & O1 & G1 & calls1 & N1 & Sh1 & W1 & R1).
    set (p1 := sync_entry s (k0, v0) p) in *.
    assert (Horig1 : originalSetItem (pass_world p1) = Native)
      by (rewrite (setup_originalSetItem S1); exact Horig).
    destruct (IH Hnd' p1 Horig1)
      as (S2 & D2 & O2 & G2 & calls2 & N2 & Sh2 & W2).
    set (w := pass_world p) in *. set (w1 := pass_world p1) in *.
    set (w' := pass_world (fold_left (fun p e => sync_entry s e p) es p1)) in *.
    cbn zeta.
    assert (Hcfg : CONFIG w1 = CONFIG w) by (apply setup_CONFIG; exact S1).
    assert (Hhead : forall ok, In (mkNativeSet s k0 v0 ok) calls2 -> False).
    { intros ok Hin. destruct (Sh2 _ Hin) as [_ Hes]. cbn [ns_key ns_value] in Hes.
      apply Hk0. apply in_map_iff. exists (k0, v0). now split. }
    split; [eapply same_setup_trans; eassumption|].
    split; [congruence|]. split; [congruence|].
    split.
    { intros k Hk. cbn [map fst In] in Hk.
      rewrite G2 by tauto. apply G1. intros ->. tauto. }
    exists (calls1 ++ calls2).
    split; [rewrite N2, N1, app_assoc; reflexivity|].
    split.
    { intros c Hc. apply in_app_or in Hc as [Hc|Hc].
      - rewrite (Sh1 c Hc). cbn [ns_storage ns_key ns_value].
        split; [reflexivity | now left].
      - destruct (Sh2 c Hc) as [A B]. split; [exact A | now right]. }
    intros k v Hin Hsync. destruct Hin as [[= <- <-]|Hin].
    + split.
      * split.
        -- intros [ok Hc]. apply in_app_or in Hc as [Hc|Hc].
           ++ apply (W1 Hsync). now exists ok.
           ++ exfalso. exact (Hhead ok Hc).
        -- intros Hw. destruct (proj2 (W1 Hsync) Hw) as [ok Hc].
           exists ok. apply in_or_app. now left.
      * intros Hc. apply in_app_or in Hc as [Hc|Hc].
        -- rewrite G2 by exact Hk0. now apply R1.
        -- exfalso. exact (Hhead true Hc).
    + assert (Hne : k <> k0).
      { intros ->. apply Hk0. apply in_map_iff. exists (k0, v). now split. }
      assert (Hnot1 : forall ok, ~ In (mkNativeSet s k v ok) calls1).
      { intros ok Hc. pose proof (Sh1 _ Hc) as E. injection E as E1 E2.
        contradiction. }
      rewrite Hcfg in W2. destruct (W2 k v Hin Hsync) as [Wiff Wget].
      split.
      * rewrite <- (replay_writes_same (CONFIG w) (storage_of w s)
                      (storage_of w1 s) k v) by (apply G1; exact Hne).
        rewrite <- Wiff. split; intros [ok Hc]; exists ok.
        -- apply in_app_or in Hc as [Hc|Hc]; [now apply Hnot1 in Hc | exact Hc].
        -- apply in_or_app. now right.
      * intros Hc. apply in_app_or in Hc as [Hc|Hc];
          [now apply Hnot1 in Hc | now apply Wget].
Qed.

(** The outer loop over distinct areas. *)
Lemma replay_native (es : list (jstring * jstring)) (L : list StorageId) :
  NoDup (map fst es) -> NoDup L ->
  forall total, originalSetItem (pass_world total) = Native ->
  let w := pass_world total in
  let w' := pass_world (fold_left (sync_storage es) L total) in
  same_setup w w' /\ document w' = document w
  /\ (forall s, ~ In s L -> storage_of w' s = storage_of w s)
  /\ exists calls,
      nativeSets w' = nativeSets w ++ calls
      /\ (forall c, In c calls ->
          In (ns_storage c) L /\ In (ns_key c, ns_value c) es)
      /\ (forall s k v, In s L -> In (k, v) es ->
          shouldSync (CONFIG w) (JStr k) = true ->
          ((exists ok, In (mkNativeSet s k v ok) calls)
           <-> replay_writes (CONFIG w) (storage_of w s) k v)
          /\ (In (mkNativeSet s k v true) calls ->
              native_getItem k (storage_of w' s) = Some v)).
Proof.
  intros Hes. induction L as [|s0 L IH]; intros HL total Horig;
    cbn [fold_left].
  - cbn zeta. split; [apply same_setup_refl|]. split; [reflexivity|].
    split; [reflexivity|].
    exists []. rewrite app_nil_r. split; [reflexivity|].
    split; [intros c []|]. intros s k v [].
  - inversion HL as [|? ? Hs0 HL']; subst.
    set (p0 := mkPass (pass_world total) 0 (pass_syncedKeys total)
                      (pass_skippedKeys total)).
    destruct (@sync_entries_native s0 es Hes p0 Horig)
      as (S1 & D1 & O1 & G1 & calls1 & N1 & Sh1 & W1).
    set (p1 := sync_storage es total s0).
    assert (Hw1 : pass_world p1
                  = pass_world (fold_left (fun p e => sync_entry s0 e p) es p0))
      by reflexivity.
    rewrite <- Hw1 in *. change (pass_world p0) with (pass_world total) in *.
    assert (Horig1 : originalSetItem (pass_world p1) = Native)
      by (rewrite (setup_originalSetItem S1); exact Horig).
    destruct (IH HL' p1 Horig1) as (S2 & D2 & O2 & calls2 & N2 & Sh2 & W2).
    set (w := pass_world total) in *. set (w1 := pass_world p1) in *.
    set (w' := pass_world (fold_left (sync_storage es) L p1)) in *.
    cbn zeta.
    assert (Hcfg : CONFIG w1 = CONFIG w) by (apply setup_CONFIG; exact S1).
    assert (Hother : forall s, s <> s0 -> storage_of w1 s = storage_of w s).
    { intros s Hne. rewrite (other_storage_spec Hne). exact O1. }
    split; [eapply same_setup_trans; eassumption|].
    split; [congruence|].
    split.
    { intros s Hs. cbn [In] in Hs. rewrite O2 by tauto.
      apply Hother. intros ->. tauto. }
    exists (calls1 ++ calls2).
    split; [rewrite N2, N1, app_assoc; reflexivity|].
    split.
    { intros c Hc. apply in_app_or in Hc as [Hc|Hc].
      - destruct (Sh1 c Hc) as [A B]. split; [left; now symmetry | exact B].
      - destruct (Sh2 c Hc) as [A B]. split; [now right | exact B]. }
    intros s k v Hs Hin Hsync. destruct Hs as [<-|Hs].
    + assert (Hnot2 : forall ok, ~ In (mkNativeSet s0 k v ok) calls2).
      { intros ok Hc. destruct (Sh2 _ Hc) as [A _]. contradiction. }
      destruct (W1 k v Hin Hsync) as [Wiff Wget]. split.
      * rewrite <- Wiff. split; intros [ok Hc]; exists ok.
        -- apply in_app_or in Hc as [Hc|Hc]; [exact Hc | now apply Hnot2 in Hc].
        -- apply in_or_app. now left.
      * intros Hc. rewrite O2 by exact Hs0.
        apply in_app_or in Hc as [Hc|Hc];
          [now apply Wget | now apply Hnot2 in Hc].
    + assert (Hne : s <> s0) by (intros ->; contradiction).
      assert (Hnot1 : forall ok, ~ In (mkNativeSet s k v ok) calls1).
      { intros ok Hc. destruct (Sh1 _ Hc) as [A _]. contradiction. }
      rewrite Hcfg in W2. destruct (W2 s k v Hs Hin Hsync) as [Wiff Wget].
      rewrite (Hother s Hne) in Wiff. split.
      * rewrite <- Wiff. split; intros [ok Hc]; exists ok.
        -- apply in_app_or in Hc as [Hc|Hc]; [now apply Hnot1 in Hc | exact Hc].
        -- apply in_or_app. now right.
      * intros Hc. apply in_app_or in Hc as [Hc|Hc];
          [now apply Hnot1 in Hc | now apply Wget].
Qed.

Lemma getStorageObjects_NoDup (cfg : Config) : NoDup (getStorageObjects cfg).
Proof.
  unfold getStorageObjects.
  destruct (_ || _); destruct (_ || _); cbn [app];
    repeat constructor; cbn [In]; intuition discriminate.
Qed.

Lemma dispatch_frame (detail : SyncReport) (w : World) :
  nativeSets (dispatchSyncCompleteEvent detail w) = nativeSets w
  /\ document (dispatchSyncCompleteEvent detail w) = document w
  /\ (forall s, storage_of (dispatchSyncCompleteEvent detail w) s
                = storage_of w s)
  /\ CONFIG (dispatchSyncCompleteEvent detail w) = CONFIG w
  /\ dispatched (dispatchSyncCompleteEvent detail w) = dispatched w ++ [detail].
Proof.
  unfold dispatchSyncCompleteEvent, syncComplete_listener.
  destruct (syncCompleteListener (log_dispatched detail w));
    [destruct (syncCompleteResolve (log_dispatched detail w))|];
    repeat split; try (intros s; destruct s; reflexivity).
Qed.



Lemma sync_entry_setup (s : StorageId) (e : jstring * jstring) (p : Pass) :
  same_setup (pass_world p) (pass_world (sync_entry s e p)).
Proof.
  unfold sync_entry.
  destruct (negb (shouldSync _ _)); [apply same_setup_refl|].
  destruct (_ && _).
  - pose proof (call_setItem_setup (originalSetItem (pass_world p)) s
                  (JStr (fst e)) (JStr (snd e)) (pass_world p)) as H.
    destruct (call_setItem _ _ _ _ _) as [w' [|]]; exact H.
  - destruct (_ && _); apply same_setup_refl.
Qed.

Lemma replay_setup (syncData : Obj) (w : World) :
  same_setup w (pass_world (replay syncData w)).
Proof.
  unfold replay.
  assert (Inner : forall s es p,
             same_setup (pass_world p)
               (pass_world (fold_left (fun p e => sync_entry s e p) es p))).
  { intros s es. induction es as [|e es IH]; intros p; cbn [fold_left].
    - apply same_setup_refl.
    - eapply same_setup_trans; [apply sync_entry_setup | apply IH]. }
  assert (Outer : forall L total,
             same_setup (pass_world total)
               (pass_world (fold_left (sync_storage (Object_entries syncData))
                                      L total))).
  { induction L as [|s L IH]; intros total; cbn [fold_left].
    - apply same_setup_refl.
    - eapply same_setup_trans; [|apply IH].
      unfold sync_storage. cbn [pass_world].
      apply (Inner s _ (mkPass (pass_world total) 0 (pass_syncedKeys total)
                               (pass_skippedKeys total))). }
  apply (Outer _ (mkPass w 0 [] [])).
Qed.

(** C10.  Every replay pass dispatches one report; in it [syncedCount]
    is the length of [syncedKeys], and [totalCookies] is the number of
    entries of the cookie snapshot taken when the pass began. *)
Theorem syncReport_counts (w : World) :
  exists report,
    dispatched (syncCookiesToStorage w) = dispatched w ++ [report]
    /\ syncedCount report = length (syncedKeys report)
    /\ totalCookies report
       = length (getAllSyncCookies (CONFIG w) (document w))
    /\ totalCookies report
       = length (Object_entries (getAllSyncCookies (CONFIG w) (document w))).
Proof.
  unfold syncCookiesToStorage.
  set (syncData := getAllSyncCookies (CONFIG w) (document w)).
  set (p := replay syncData w).
  exists (report_of syncData p).
  destruct (dispatch_frame (report_of syncData p) (pass_world p))
    as (_ & _ & _ & _ & FD).
  split.
  { rewrite FD. f_equal.
    apply (setup_dispatched (replay_setup syncData w)). }
  cbn [report_of syncedCount syncedKeys totalCookies].
  split; [apply replay_count|]. split; [apply Object_keys_length|].
  unfold Object_keys. apply length_map.
Qed.

(* --------------------------------------------------------------------- *)
(** ** Initialisation: what it installs *)

Lemma same_methods_refl (w : World) : same_methods w w.
Proof. unfold same_methods. repeat split. Qed.

Lemma same_methods_trans (w1 w2 w3 : World) :
  same_methods w1 w2 -> same_methods w2 w3 -> same_methods w1 w3.
Proof.
  unfold same_methods. intros H12 H23.
  repeat match goal with
         | H : _ /\ _ |- _ => destruct H
         end.
  repeat split; congruence.
Qed.

Lemma setup_methods (w w' : World) : same_setup w w' -> same_methods w w'.
Proof. unfold same_setup, same_methods. tauto. Qed.

Lemma dispatch_methods (detail : SyncReport) (w : World) :
  same_methods w (dispatchSyncCompleteEvent detail w).
Proof.
  unfold dispatchSyncCompleteEvent, syncComplete_listener.
  destruct (syncCompleteListener (log_dispatched detail w));
    [destruct (syncCompleteResolve (log_dispatched detail w))|];
    unfold same_methods; repeat split.
Qed.

Lemma syncCookiesToStorage_methods (w : World) :
  same_methods w (syncCookiesToStorage w).
Proof.
  unfold syncCookiesToStorage.
  eapply same_methods_trans; [|apply dispatch_methods].
  apply setup_methods, replay_setup.
Qed.

Lemma isEnvironmentSupported_setup (w : World) :
  same_setup w (fst (isEnvironmentSupported w)).
Proof.
  unfold isEnvironmentSupported.
  pose proof (call_setItem_setup (Storage_setItem w) LocalStorage
                (JStr (js "__storage_sync_test__")) (JStr (js "test")) w) as H.
  destruct (call_setItem _ _ _ _ _) as [w1 returned]. cbn [fst] in H.
  destruct returned; cbn [fst]; [|exact H].
  eapply same_setup_trans; [exact H | apply call_removeItem_setup].
Qed.

(** [init] leaves the originals alone; when it returns [true] the three
    slots hold wrappers of the originals, otherwise what they held. *)
Lemma init_methods (w : World) :
  originalSetItem (fst (init w)) = originalSetItem w
  /\ originalRemoveItem (fst (init w)) = originalRemoveItem w
  /\ originalClear (fst (init w)) = originalClear w
  /\ (if snd (init w)
      then Storage_setItem (fst (init w)) = Wrapper (originalSetItem w)
           /\ Storage_removeItem (fst (init w)) = Wrapper (originalRemoveItem w)
           /\ Storage_clear (fst (init w)) = Wrapper (originalClear w)
      else Storage_setItem (fst (init w)) = Storage_setItem w
           /\ Storage_removeItem (fst (init w)) = Storage_removeItem w
           /\ Storage_clear (fst (init w)) = Storage_clear w).
Proof.
  unfold init.
  pose proof (setup_methods (isEnvironmentSupported_setup w)) as H1.
  destruct (isEnvironmentSupported w) as [w1 supported]. cbn [fst] in H1.
  destruct supported; cbn [negb fst snd].
  - destruct (validated (CONFIG w1)) as [cfg configValid]. cbn [fst snd].
    pose proof (syncCookiesToStorage_methods (set_CONFIG cfg w1)) as H3.
    set (w3 := syncCookiesToStorage (set_CONFIG cfg w1)) in *.
    unfold same_methods in H1, H3.
    cbn [set_CONFIG Storage_setItem Storage_removeItem Storage_clear
         originalSetItem originalRemoveItem originalClear] in H3.
    destruct H1 as (A1 & A2 & A3 & A4 & A5 & A6).
    destruct H3 as (B1 & B2 & B3 & B4 & B5 & B6).
    unfold setupLocalChangeDetection, setupStorageListener.
    cbn [set_prototype add_storageListener Storage_setItem Storage_removeItem
         Storage_clear originalSetItem originalRemoveItem originalClear].
    repeat split; congruence.
  - unfold same_methods in H1. tauto.
Qed.

Lemma init_methods_ok (w : World) :
  methods_ok w ->
  methods_ok (fst (init w)) /\ (snd (init w) = true -> installed (fst (init w))).
Proof.
  unfold methods_ok, installed. intros (O1 & O2 & O3 & Slots).
  destruct (init_methods w) as (I1 & I2 & I3 & I4).
  rewrite O1, O2, O3 in *.
  destruct (snd (init w)).
  - split; [|intros _; exact I4]. repeat (split; [assumption|]). now right.
  - split; [|discriminate]. repeat (split; [assumption|]).
    destruct I4 as (-> & -> & ->). exact Slots.
Qed.

Lemma reinitialize_single_wrapper_step (w : World) :
  methods_ok w -> single_wrapper (fst (reinitialize w)).
Proof.
  intros H. destruct (init_methods_ok H) as [M I].
  unfold reinitialize. destruct (init w) as [w1 ok]. cbn [fst snd] in *.
  unfold single_wrapper. split; [exact M|].
  cbn [set_isInitialized isInitialized]. exact I.
Qed.

Lemma module_load_single_wrapper (p : Page) : single_wrapper (module_load p).
Proof.
  unfold module_load.
  set (w0 := mkWorld _ _ _ _ _ _ _ _ _ _ _ _ _ _ _ _ _ _).
  assert (H0 : methods_ok w0).
  { unfold methods_ok. repeat (split; [reflexivity|]). left. repeat split. }
  destruct (init_methods_ok H0) as [M I].
  destruct (init w0) as [w1 ok]. cbn [fst snd] in *.
  unfold single_wrapper. split; [exact M|].
  cbn [set_promise set_isInitialized isInitialized]. exact I.
Qed.

Lemma reinitialize_many_single_wrapper (p : Page) (n : nat) :
  single_wrapper (Nat.iter n (fun w => fst (reinitialize w)) (module_load p)).
Proof.
  induction n as [|n IH]; cbn [Nat.iter nat_rect].
  - apply module_load_single_wrapper.
  - apply reinitialize_single_wrapper_step. apply IH.
Qed.

(** One in-scope [setItem] through a wrapper of the native function is
    one [writeToCookie]. *)
Lemma wrapped_setItem_once (s : StorageId) (key value : jsval) (w : World) :
  Storage_setItem w = Wrapper Native ->
  shouldSyncStorage (CONFIG w) s = true ->
  shouldSync (CONFIG w) key = true ->
  snd (setItem s key value w) = true ->
  document (fst (setItem s key value w))
  = snd (writeToCookie (CONFIG w) (hostname w) key value (document w)).
Proof.
  intros Hslot Hs Hk. unfold setItem. rewrite Hslot.
  cbn [call_setItem].
  destruct (native_setItem (to_string key) (to_string value) (storage_of w s))
    as [st|]; cbn [fst snd]; [|discriminate].
  intros _.
  cbn [log_nativeSet set_storage CONFIG].
  rewrite Hs, Hk. cbn [andb fst].
  unfold mirror_write. cbn [set_document document log_nativeSet set_storage
                            CONFIG hostname].
  reflexivity.
Qed.

Lemma writeToCookie_assigns (cfg : Config) (host : jstring) (key value : jsval)
      (d : Document) :
  (fst (writeToCookie cfg host key value d) = true ->
   exists text, assigned (snd (writeToCookie cfg host key value d))
                = assigned d ++ [text])
  /\ (fst (writeToCookie cfg host key value d) = false ->
      snd (writeToCookie cfg host key value d) = d).
Proof.
  unfold writeToCookie.
  destruct (sanitizeKey key) as [[|c sk]|]; try (split; [discriminate | reflexivity]).
  destruct (sanitizeValue value); try (split; [discriminate | reflexivity]).
  destruct (encodeURIComponent _); try (split; [discriminate | reflexivity]).
  cbn [fst snd document_cookie_set assigned].
  split; [intros _; eexists; reflexivity | discriminate].
Qed.

(** C9.  After the module has loaded and [reinitialize] has run any
    number of times, the [setItem] slot holds the native function or one
    wrapper of the native function, never a wrapper of a wrapper, and a
    wrapper whenever the last initialisation succeeded; with the wrapper in
    place, one in-scope [setItem] that returns is exactly one
    [writeToCookie], hence exactly one assignment to [document.cookie]
    when that write succeeds and none otherwise. *)
Theorem reinitialize_single_cookie_write (p : Page) (n : nat) :
  let w := Nat.iter n (fun w => fst (reinitialize w)) (module_load p) in
  (Storage_setItem w = Native \/ Storage_setItem w = Wrapper Native)
  /\ originalSetItem w = Native
  /\ (isInitialized w = true -> Storage_setItem w = Wrapper Native)
  /\ forall s key value,
      Storage_setItem w = Wrapper Native ->
      shouldSyncStorage (CONFIG w) s = true ->
      shouldSync (CONFIG w) key = true ->
      snd (setItem s key value w) = true ->
      let written := writeToCookie (CONFIG w) (hostname w) key value (document w) in
      let w' := fst (setItem s key value w) in
      document w' = snd written
      /\ (fst written = true ->
          exists text, assigned (document w') = assigned (document w) ++ [text])
      /\ (fst written = false -> assigned (document w') = assigned (document w)).
Proof.
  intros w.
  destruct (reinitialize_many_single_wrapper p n) as [(O1 & _ & _ & Slots) I].
  fold w in O1, Slots, I.
  split.
  { destruct Slots as [(A & _) | (A & _)]; [now left | now right]. }
  split; [exact O1|].
  split; [intros H; now destruct (I H)|].
  intros s key value Hslot Hs Hk Hret written w'.
  assert (Hdoc : document w' = snd written)
    by (now apply wrapped_setItem_once).
  split; [exact Hdoc|].
  destruct (writeToCookie_assigns (CONFIG w) (hostname w) key value (document w))
    as [Hy Hn].
  fold written in Hy, Hn. rewrite Hdoc.
  split; [exact Hy | intros H; now rewrite (Hn H)].
Qed.

(** Three reinitialisations on the example page, then
    [localStorage.setItem('k', 'v')]: one more assignment. *)
Lemma reinitialize_single_cookie_write_witness :
  let w := Nat.iter 3 (fun w => fst (reinitialize w)) (module_load example_page) in
  let w' := fst (setItem LocalStorage (JStr (js "k")) (JStr (js "v")) w) in
  Storage_setItem w = Wrapper Native
  /\ exists text, assigned (document w') = assigned (document w) ++ [text].
Proof.
  intros w w'.
  destruct (reinitialize_single_cookie_write example_page 3)
    as (_ & _ & Hinst & Hone).
  fold w in Hinst, Hone.
  assert (Hslot : Storage_setItem w = Wrapper Native)
    by (apply Hinst; vm_compute; reflexivity).
  split; [exact Hslot|].
  destruct (Hone LocalStorage (JStr (js "k")) (JStr (js "v")) Hslot)
    as (_ & Hy & _);
    try (vm_compute; reflexivity).
  apply Hy. vm_compute. reflexivity.
Defined.

(* --------------------------------------------------------------------- *)
(** ** Clearing: the cross-tab notification and the same-tab wrapper *)










(* --------------------------------------------------------------------- *)
(** ** The readiness promise *)

Lemma init_dispatched (w : World) :
  syncCompleteListener w = false ->
  syncCompletePromise (fst (init w)) = syncCompletePromise w
  /\ (if snd (init w)
      then exists first, dispatched (fst (init w)) = dispatched w ++ [first]
      else dispatched (fst (init w)) = dispatched w).
Proof.
  intros Hl. unfold init.
  pose proof (isEnvironmentSupported_setup w) as H1.
  destruct (isEnvironmentSupported w) as [w1 supported]. cbn [fst] in H1.
  assert (Hl1 : syncCompleteListener w1 = false)
    by (unfold same_setup in H1; intuition congruence).
  assert (Hp1 : syncCompletePromise w1 = syncCompletePromise w)
    by (unfold same_setup in H1; tauto).
  assert (Hd1 : dispatched w1 = dispatched w) by (apply setup_dispatched, H1).
  destruct supported; cbn [negb fst snd]; [|now split].
  destruct (validated (CONFIG w1)) as [cfg configValid]. cbn [fst snd].
  unfold setupLocalChangeDetection, setupStorageListener.
  cbn [set_prototype add_storageListener syncCompletePromise dispatched].
  unfold syncCookiesToStorage.
  set (syncData := getAllSyncCookies _ _).
  set (p := replay syncData (set_CONFIG cfg w1)).
  pose proof (replay_setup syncData (set_CONFIG cfg w1)) as H2. fold p in H2.
  assert (Hl2 : syncCompleteListener (pass_world p) = false).
  { unfold same_setup in H2.
    cbn [set_CONFIG syncCompleteListener] in H2. intuition congruence. }
  assert (Hp2 : syncCompletePromise (pass_world p) = syncCompletePromise w1).
  { unfold same_setup in H2. cbn [set_CONFIG syncCompletePromise] in H2. tauto. }
  assert (Hd2 : dispatched (pass_world p) = dispatched w1).
  { apply setup_dispatched in H2. exact H2. }
  unfold dispatchSyncCompleteEvent.
  cbn [log_dispatched syncCompleteListener]. rewrite Hl2.
  cbn [log_dispatched syncCompletePromise dispatched].
  split; [congruence|].
  exists (report_of syncData p). congruence.
Qed.

Lemma replay_resolves (w : World) :
  syncCompleteListener w = true ->
  exists report,
    dispatched (syncCookiesToStorage w) = dispatched w ++ [report]
    /\ ready (syncCookiesToStorage w)
       = match syncCompletePromise w with
         | Some first => Some first
         | None => if syncCompleteResolve w then Some report else None
         end.
Proof.
  intros Hl. unfold syncCookiesToStorage, ready.
  set (syncData := getAllSyncCookies _ _).
  set (p := replay syncData w).
  pose proof (replay_setup syncData w) as H. fold p in H.
  exists (report_of syncData p).
  unfold same_setup in H.
  destruct H as (_ & _ & _ & _ & _ & _ & _ & _ & _ & L & R & P & _ & D).
  unfold dispatchSyncCompleteEvent, syncComplete_listener.
  cbn [log_dispatched syncCompleteListener syncCompleteResolve
       syncCompletePromise].
  rewrite L, Hl, R, P.
  destruct (syncCompleteResolve w);
    cbn [set_promise log_dispatched dispatched syncCompletePromise];
    rewrite D; split; try reflexivity;
    now destruct (syncCompletePromise w).
Qed.

(** C3 (as the source behaves).  When the script has run, the promise of
    [ready()] is still pending although the report of the initial replay
    has already been dispatched: the listener that resolves the promise is
    added after [init()] has returned.  The promise resolves with the
    report of the next replay pass, and a resolved promise keeps its report
    through later passes. *)
Theorem ready_misses_initial_report (p : Page) :
  let w := module_load p in
  ready w = None
  /\ (isInitialized w = true -> exists first, dispatched w = [first])
  /\ (exists second,
        dispatched (syncCookiesToStorage w) = dispatched w ++ [second]
        /\ ready (syncCookiesToStorage w) = Some second)
  /\ (forall w0 report,
        syncCompleteListener w0 = true ->
        ready w0 = Some report ->
        ready (syncCookiesToStorage w0) = Some report).
Proof.
  intros w. split; [|split; [|split]].
  - unfold w, module_load. now destruct (init _).
  - unfold w, module_load.
    set (w0 := mkWorld _ _ _ _ _ _ _ _ _ _ _ _ _ _ _ _ _ _).
    destruct (init_dispatched w0 eq_refl) as [_ Hd].
    destruct (init w0) as [w1 ok]. cbn [fst snd] in Hd.
    cbn [set_promise set_isInitialized isInitialized dispatched].
    intros ->. exact Hd.
  - assert (Hl : syncCompleteListener w = true)
      by (unfold w, module_load; now destruct (init _)).
    assert (Hr : syncCompleteResolve w = true)
      by (unfold w, module_load; now destruct (init _)).
    assert (Hp : syncCompletePromise w = None)
      by (unfold w, module_load; now destruct (init _)).
    destruct (replay_resolves w Hl) as (second & Hd & Hready).
    exists second. split; [exact Hd|]. now rewrite Hready, Hp, Hr.
  - intros w0 report Hl Hready. unfold ready in Hready.
    destruct (replay_resolves w0 Hl) as (r & _ & H).
    now rewrite H, Hready.
Qed.

(** The first visit of a sub-domain: the initial replay writes the cookie
    into storage and reports one synced key; [ready()] is pending; a
    manual replay then resolves it with its own report, which counts no
    synced key. *)
Lemma ready_misses_initial_report_witness :
  let w := module_load first_visit_page in
  isInitialized w = true
  /\ ready w = None
  /\ (exists first, dispatched w = [first] /\ syncedCount first = 1%nat)
  /\ (exists second, ready (syncCookiesToStorage w) = Some second
                     /\ syncedCount second = 0%nat).
Proof.
  intros w.
  destruct (ready_misses_initial_report first_visit_page)
    as (Hpending & Hfirst & _ & _).
  fold w in Hpending, Hfirst.
  assert (Hinit : isInitialized w = true) by (vm_compute; reflexivity).
  split; [exact Hinit|]. split; [exact Hpending|]. split.
  - destruct (Hfirst Hinit) as [first Hd]. exists first. split; [exact Hd|].
    assert (E : map syncedCount (dispatched w) = [1%nat])
      by (vm_compute; reflexivity).
    rewrite Hd in E. now injection E.
  - eexists. split; vm_compute; reflexivity.
Defined.

(* ===================================================================== *)
(** * Part III. Further properties                                        *)
(* ===================================================================== *)

(** The lemmas of this part take all their arguments explicitly. *)
Unset Implicit Arguments.

(* --------------------------------------------------------------------- *)
(** ** Sanitisation: the shape of an accepted key *)

Lemma replace_forbidden_length (k : jstring) :
  length (replace_forbidden k) = length k.
Proof. unfold replace_forbidden. apply length_map. Qed.

Lemma replace_forbidden_fixed (k : jstring) :
  clean k = true -> replace_forbidden k = k.
Proof.
  unfold clean, replace_forbidden. induction k as [|c k IH]; [reflexivity|].
  cbn [forallb map]. intros H. apply andb_true_iff in H as [Hc Hk].
  apply negb_true_iff in Hc. rewrite Hc. f_equal. now apply IH.
Qed.

Lemma sanitizeKey_Some (key : jsval) (sk : jstring) :
  sanitizeKey key = Some sk ->
  exists k, key = JStr k /\ sk = replace_forbidden k
            /\ (1 <= length k <= 200)%nat.
Proof.
  unfold sanitizeKey. destruct key; try discriminate.
  destruct (Nat.eqb_spec (length s) 0); [discriminate|].
  destruct (Nat.ltb_spec 200 (length s)); [discriminate|].
  intros [= <-]. exists s. repeat split; lia.
Qed.

Lemma sanitizeKey_accepts (k : jstring) :
  (1 <= length k <= 200)%nat -> sanitizeKey (JStr k) = Some (replace_forbidden k).
Proof.
  intros H. unfold sanitizeKey.
  destruct (Nat.eqb_spec (length k) 0); [lia|].
  destruct (Nat.ltb_spec 200 (length k)); [lia | reflexivity].
Qed.

(** X1.  A key [sanitizeKey] accepts is a string of 1 to 200 code units;
    the result has the same length, holds none of [; , =] and no white
    space, is the key itself when the key was clean, and is accepted
    unchanged when sanitised again. *)
Theorem sanitizeKey_idempotent (key : jsval) (sk : jstring) :
  sanitizeKey key = Some sk ->
  (exists k, key = JStr k /\ (1 <= length k <= 200)%nat
             /\ length sk = length k /\ (clean k = true -> sk = k))
  /\ clean sk = true
  /\ sanitizeKey (JStr sk) = Some sk.
Proof.
  intros H. destruct (sanitizeKey_Some key sk H) as (k & -> & -> & Hlen).
  split; [|split].
  - exists k. split; [reflexivity|]. split; [exact Hlen|].
    split; [apply replace_forbidden_length | apply replace_forbidden_fixed].
  - apply replace_forbidden_clean.
  - rewrite sanitizeKey_accepts by (rewrite replace_forbidden_length; exact Hlen).
    f_equal. apply replace_forbidden_fixed, replace_forbidden_clean.
Qed.

(** The key ['key;=with,bad'] of the test suite. *)
Lemma sanitizeKey_idempotent_witness :
  sanitizeKey (JStr (js "key;=with,bad")) = Some (js "key__with_bad")
  /\ sanitizeKey (JStr (js "key__with_bad")) = Some (js "key__with_bad").
Proof.
  assert (H : sanitizeKey (JStr (js "key;=with,bad")) = Some (js "key__with_bad"))
    by reflexivity.
  split; [exact H|].
  exact (proj2 (proj2 (sanitizeKey_idempotent _ _ H))).
Defined.
(* --------------------------------------------------------------------- *)
(** ** Cookie codec: how writes, deletions and reads compose *)

Lemma stored_value_put (name name' value : jstring) (j : Jar) :
  stored_value name' (jar_put name value j)
  = if jstring_eqb name name' then decodeURIComponent (trim_end value)
    else stored_value name' j.
Proof.
  unfold stored_value, jar_put.
  destruct (jstring_eqb name name') eqn:E.
  - apply jstring_eqb_eq in E as <-. now rewrite assoc_get_put_eq.
  - apply jstring_eqb_neq in E. now rewrite assoc_get_put_ne.
Qed.

Lemma stored_value_remove (name name' : jstring) (j : Jar) :
  stored_value name' (jar_remove name j)
  = if jstring_eqb name name' then None else stored_value name' j.
Proof.
  unfold stored_value, jar_remove.
  destruct (jstring_eqb name name') eqn:E.
  - apply jstring_eqb_eq in E as <-. now rewrite assoc_get_remove_eq.
  - apply jstring_eqb_neq in E. now rewrite assoc_get_remove_ne.
Qed.

Lemma prefixed_eqb (p a b : jstring) :
  jstring_eqb (p ++ a) (p ++ b) = jstring_eqb a b.
Proof.
  destruct (jstring_eqb a b) eqn:E.
  - apply jstring_eqb_eq in E as ->. apply jstring_eqb_refl.
  - apply jstring_eqb_neq. apply jstring_eqb_neq in E.
    intros H. apply app_inv_head in H. contradiction.
Qed.

(** What a successful write leaves in the document, and what any key
    reads afterwards. *)
Lemma writeToCookie_then_read (cfg : Config) (host : jstring)
      (key value : jsval) (d : Document) (sk sv : jstring) :
  writable cfg host -> jar_ok (jar d) = true ->
  sanitizeKey key = Some sk -> sanitizeValue value = Some sv ->
  is_jstring sv = true -> well_formed sv = true -> fits cfg d sk sv ->
  let d' := snd (writeToCookie cfg host key value d) in
  fst (writeToCookie cfg host key value d) = true
  /\ jar_ok (jar d') = true
  /\ size_limit d' = size_limit d
  /\ (exists enc, encodeURIComponent sv = Some enc
                  /\ jar d' = jar_put (cookiePrefix cfg ++ sk) enc (jar d))
  /\ forall key' sk', sanitizeKey key' = Some sk' ->
       readFromCookie cfg key' d'
       = if jstring_eqb sk sk' then Some sv else readFromCookie cfg key' d.
Proof.
  intros (Hp & Hage & Hh) Hj Esk Hsv Hjs Hwf Hfit d'.
  destruct (proj1 (encode_well_formed sv) Hwf) as [enc Henc].
  unfold fits, cookie_size in Hfit. rewrite Henc in Hfit.
  destruct (@writeToCookie_stores cfg host key value d sk sv enc Hp Hage Hh
              Esk Hsv Hjs Henc Hfit) as (Hok & Hjar & Hlim).
  fold d' in Hjar, Hlim.
  destruct (@sanitizeKey_clean key sk Esk) as [Hsk Hne].
  pose proof (@encoded_chars (length sv) sv enc (le_n _) Hjs Henc) as Hc.
  destruct (uri_char_facts enc Hc) as (Hes & _ & Hews).
  assert (Hj' : jar_ok (jar d') = true).
  { rewrite Hjar. apply jar_ok_put; [|exact Hj]. now apply cookie_entry_ok. }
  split; [exact Hok|]. split; [exact Hj'|]. split; [exact Hlim|].
  split; [exists enc; split; [exact Henc | exact Hjar]|].
  intros key' sk' Esk'.
  rewrite (@readFromCookie_stored cfg key' d' sk' Hj' Esk').
  rewrite (@readFromCookie_stored cfg key' d sk' Hj Esk').
  rewrite Hjar, stored_value_put, prefixed_eqb.
  destruct (jstring_eqb sk sk'); [|reflexivity].
  rewrite trim_end_none by exact Hews. now apply decode_encode.
Qed.

(** What a deletion leaves in the document, and what any key reads
    afterwards. *)
Lemma deleteFromCookie_then_read (cfg : Config) (host : jstring)
      (key : jsval) (d : Document) (sk : jstring) :
  writable cfg host -> jar_ok (jar d) = true ->
  sanitizeKey key = Some sk ->
  within (size_limit d) (octets (cookiePrefix cfg ++ sk)) = true ->
  let d' := snd (deleteFromCookie cfg host key d) in
  fst (deleteFromCookie cfg host key d) = true
  /\ jar_ok (jar d') = true
  /\ size_limit d' = size_limit d
  /\ jar d' = jar_remove (cookiePrefix cfg ++ sk) (jar d)
  /\ forall key' sk', sanitizeKey key' = Some sk' ->
       readFromCookie cfg key' d'
       = if jstring_eqb sk sk' then None else readFromCookie cfg key' d.
Proof.
  intros (Hp & _ & Hh) Hj Esk Hfit d'.
  destruct (@deleteFromCookie_removes cfg host key d sk Hp Hh Esk)
    as (Hok & Hjar & Hlim).
  fold d' in Hjar, Hlim. rewrite Hfit in Hjar.
  assert (Hj' : jar_ok (jar d') = true)
    by (rewrite Hjar; now apply jar_ok_remove).
  split; [exact Hok|]. split; [exact Hj'|]. split; [exact Hlim|].
  split; [exact Hjar|].
  intros key' sk' Esk'.
  rewrite (@readFromCookie_stored cfg key' d' sk' Hj' Esk').
  rewrite (@readFromCookie_stored cfg key' d sk' Hj Esk').
  now rewrite Hjar, stored_value_remove, prefixed_eqb.
Qed.







Lemma assoc_put_has {V} (k : jstring) (v : V) (l : list (jstring * V)) :
  In k (map fst (assoc_put k v l)).
Proof.
  induction l as [|e l IH]; cbn [assoc_put map In fst]; [now left|].
  destruct (jstring_eqb (fst e) k); cbn [map In fst]; [now left | now right].
Qed.








(** X7.  [readFromCookie] returns [null] in exactly three cases: the key
    fails sanitisation, the store holds no cookie of the key's name, or
    the value of the first cookie of that name is not a well-formed
    percent-encoding. *)
Theorem readFromCookie_null (cfg : Config) (key : jsval) (d : Document) :
  jar_ok (jar d) = true ->
  (readFromCookie cfg key d = None <->
   sanitizeKey key = None
   \/ exists sk, sanitizeKey key = Some sk
        /\ (~ In (cookiePrefix cfg ++ sk) (map fst (jar d))
            \/ exists raw,
                 assoc_get (cookiePrefix cfg ++ sk) (jar d) = Some raw
                 /\ decodeURIComponent (trim_end raw) = None)).
Proof.
  intros Hj. destruct (sanitizeKey key) as [sk|] eqn:Esk.
  - rewrite (@readFromCookie_stored cfg key d sk Hj Esk). unfold stored_value.
    destruct (assoc_get (cookiePrefix cfg ++ sk) (jar d)) as [raw|] eqn:Eg;
      cbn [bind].
    + split.
      * intros Hd. right. exists sk. split; [reflexivity|]. right.
        exists raw. now split.
      * intros [H | (sk' & [= <-] & [Habs | (raw' & Eg' & Hd)])].
        -- discriminate H.
        -- apply assoc_get_None_keys in Habs. congruence.
        -- rewrite Eg in Eg'. injection Eg' as <-. exact Hd.
    + split; [|reflexivity]. intros _. right. exists sk.
      split; [reflexivity|]. left. now apply assoc_get_None_keys.
  - split; [now left|]. intros _. unfold readFromCookie. now rewrite Esk.
Qed.

(** A store with a cookie whose value ends in a lone [%]. *)
Lemma readFromCookie_null_witness :
  let d := mkDocument [(js "sds_sync_bad", js "100%");
                       (js "sds_sync_good", js "100%25")] [] None in
  readFromCookie default_config (JStr (js "bad")) d = None
  /\ readFromCookie default_config (JStr (js "good")) d = Some (js "100%")
  /\ readFromCookie default_config (JStr (js "missing")) d = None
  /\ readFromCookie default_config (JNum (NumInt 7)) d = None.
Proof.
  intros d.
  pose proof (readFromCookie_null default_config (JStr (js "bad")) d eq_refl)
    as Hbad.
  pose proof (readFromCookie_null default_config (JStr (js "missing")) d eq_refl)
    as Hmissing.
  pose proof (readFromCookie_null default_config (JNum (NumInt 7)) d eq_refl)
    as Hnum.
  split; [|split; [reflexivity|split]].
  - apply (proj2 Hbad). right. exists (js "bad"). split; [reflexivity|].
    right. exists (js "100%"). split; reflexivity.
  - apply (proj2 Hmissing). right. exists (js "missing").
    split; [reflexivity|]. left. cbn.
    intros [H|[H|[]]]; discriminate H.
  - apply (proj2 Hnum). now left.
Defined.
(* --------------------------------------------------------------------- *)
(** ** The snapshot of the sync cookies *)

Lemma collect_cookies_step (cfg : Config) (sp : jstring)
      (e : jstring * jstring) (rest : list jstring) (syncData : Obj) :
  forallb is_whitespace sp = true -> entry_ok e = true ->
  collect_cookies cfg ((sp ++ cookie_text e) :: rest) syncData
  = if startsWith (cookiePrefix cfg) (fst e) then
      match decodeURIComponent (trim_end (snd e)) with
      | Some decoded =>
          collect_cookies cfg rest
            (obj_set (skipn (length (cookiePrefix cfg)) (fst e)) decoded
                     syncData)
      | None => syncData
      end
    else collect_cookies cfg rest syncData.
Proof.
  intros Hsp He. unfold entry_ok in He. destruct e as [n v]. cbn [fst snd] in *.
  apply andb_true_iff in He as [He Hvs].
  apply andb_true_iff in He as [He Hne].
  apply andb_true_iff in He as [Hws Hns].
  unfold cookie_text. cbn [fst snd collect_cookies].
  change (js "=" ++ v) with (equals_sign :: v).
  rewrite trim_entry; [|exact Hsp|].
  - rewrite indexOf_app by exact Hne.
    unfold substring, substring_from. rewrite Nat.sub_0_r. cbn [skipn].
    rewrite firstn_length_app.
    replace (length n + 1)%nat with (S (length n)) by lia.
    change (S (length n)) with (1 + length n)%nat.
    rewrite <- skipn_skipn, skipn_length_app. cbn [skipn].
    destruct n as [|c n]; [discriminate|]. cbn [length Nat.eqb negb andb].
    reflexivity.
  - destruct n as [|c n]; [discriminate|]. now apply negb_true_iff.
Qed.

Lemma collect_cookies_rest (cfg : Config) (j : Jar) :
  jar_ok j = true ->
  forall syncData,
    collect_cookies cfg (map (cons 32%N) (map cookie_text j)) syncData
    = snapshot_of cfg j syncData.
Proof.
  induction j as [|e j IH]; [reflexivity|].
  cbn [jar_ok forallb]. intros H syncData.
  apply andb_true_iff in H as [He Hj].
  cbn [map snapshot_of].
  change (32%N :: cookie_text e) with ([32%N] ++ cookie_text e).
  rewrite collect_cookies_step by (reflexivity || exact He).
  destruct (startsWith _ _); [|now apply IH].
  destruct (decodeURIComponent _); [now apply IH | reflexivity].
Qed.

(** [getAllSyncCookies] on a store the page can read back. *)
Lemma getAllSyncCookies_jar (cfg : Config) (d : Document) :
  jar_ok (jar d) = true ->
  getAllSyncCookies cfg d = snapshot_of cfg (jar d) [].
Proof.
  intros Hj. unfold getAllSyncCookies, document_cookie, cookie_string.
  rewrite split_join.
  - destruct (jar d) as [|e j]; [reflexivity|].
    cbn [jar_ok forallb] in Hj. apply andb_true_iff in Hj as [He Hj].
    cbn [map snapshot_of].
    pose proof (collect_cookies_step cfg [] e
                  (map (cons 32%N) (map cookie_text j)) [] eq_refl He) as Hstep.
    cbn [app] in Hstep. etransitivity; [exact Hstep|].
    destruct (startsWith _ _); [|now apply collect_cookies_rest].
    destruct (decodeURIComponent _); [now apply collect_cookies_rest | reflexivity].
  - apply Forall_forall. intros p Hp. apply in_map_iff in Hp as (e & <- & He).
    apply entry_text_lacks.
    unfold jar_ok in Hj. rewrite forallb_forall in Hj. now apply Hj.
Qed.

Lemma startsWith_app (p k : jstring) : startsWith p (p ++ k) = true.
Proof.
  induction p as [|c p IH]; [reflexivity|].
  cbn [app startsWith]. now rewrite N.eqb_refl.
Qed.

Lemma startsWith_split (p n : jstring) :
  startsWith p n = true -> n = p ++ skipn (length p) n.
Proof.
  revert n. induction p as [|c p IH]; intros n; [reflexivity|].
  destruct n as [|x n]; [discriminate|]. cbn [startsWith length skipn app].
  intros H. apply andb_true_iff in H as [Hc Hp]. apply N.eqb_eq in Hc as ->.
  f_equal. now apply IH.
Qed.

Lemma assoc_put_In {V} (k k' : jstring) (v v' : V) (l : list (jstring * V)) :
  In (k, v) (assoc_put k' v' l) -> (k = k' /\ v = v') \/ In (k, v) l.
Proof.
  induction l as [|e l IH]; cbn [assoc_put In].
  - intros [[= <- <-]|[]]. now left.
  - destruct (jstring_eqb (fst e) k'); cbn [In].
    + intros [[= <- <-]|H]; [now left | right; now right].
    + intros [H|H]; [right; now left|].
      destruct (IH H) as [H'|H']; [now left | right; now right].
Qed.

Lemma assoc_put_In_same {V} (k : jstring) (v : V) (l : list (jstring * V)) :
  In (k, v) (assoc_put k v l).
Proof.
  induction l as [|e l IH]; cbn [assoc_put]; [now left|].
  destruct (jstring_eqb (fst e) k); [now left | now right].
Qed.

Lemma assoc_put_In_other {V} (k k' : jstring) (v v' : V)
      (l : list (jstring * V)) :
  k <> k' -> In (k, v) l -> In (k, v) (assoc_put k' v' l).
Proof.
  intros Hne. induction l as [|e l IH]; cbn [assoc_put In]; [intros []|].
  destruct (jstring_eqb (fst e) k') eqn:E; cbn [In].
  - apply jstring_eqb_eq in E. intros [->|H]; [|now right].
    cbn [fst] in E. congruence.
  - intros [H|H]; [now left | right; now apply IH].
Qed.

Lemma snapshot_of_sound (cfg : Config) (J : Jar) (P : jstring -> jstring -> Prop) :
  (forall k raw v, In (cookiePrefix cfg ++ k, raw) J -> k <> js "__proto__" ->
                   decodeURIComponent (trim_end raw) = Some v -> P k v) ->
  forall j syncData,
    incl j J -> (forall k v, In (k, v) syncData -> P k v) ->
    forall k v, In (k, v) (snapshot_of cfg j syncData) -> P k v.
Proof.
  intros HP. induction j as [|e j IH]; intros syncData Hin Hacc k v;
    cbn [snapshot_of]; [apply Hacc|].
  assert (Hj : incl j J) by (intros x Hx; apply Hin; now right).
  destruct (startsWith (cookiePrefix cfg) (fst e)) eqn:Hs; [|now apply IH].
  destruct (decodeURIComponent (trim_end (snd e))) as [dv|] eqn:Hd;
    [|apply Hacc].
  apply IH; [exact Hj|].
  intros k' v'. unfold obj_set.
  destruct (jstring_eqb _ (js "__proto__")) eqn:Hproto; [apply Hacc|].
  intros H. apply assoc_put_In in H as [[-> ->]|H]; [|now apply Hacc].
  apply (HP _ (snd e)).
  - apply startsWith_split in Hs. rewrite <- Hs.
    apply Hin. left. now destruct e.
  - now apply jstring_eqb_neq.
  - exact Hd.
Qed.

Lemma snapshot_of_complete (cfg : Config) (j : Jar) :
  sync_decodable cfg j = true -> NoDup (map fst j) ->
  forall syncData,
    (forall k v, In (k, v) syncData ->
                 ~ In (cookiePrefix cfg ++ k) (map fst j) ->
                 In (k, v) (snapshot_of cfg j syncData))
    /\ (forall k raw v, In (cookiePrefix cfg ++ k, raw) j ->
                        k <> js "__proto__" ->
                        decodeURIComponent (trim_end raw) = Some v ->
                        In (k, v) (snapshot_of cfg j syncData)).
Proof.
  induction j as [|e j IH]; intros Hdec Hnd syncData.
  { split; [intros k v H _; exact H | intros k raw v []]. }
  cbn [sync_decodable forallb] in Hdec.
  apply andb_true_iff in Hdec as [He Hdec].
  cbn [map] in Hnd. apply NoDup_cons_iff in Hnd as [Hfresh Hnd].
  cbn [snapshot_of].
  destruct (startsWith (cookiePrefix cfg) (fst e)) eqn:Hs.
  - unfold is_sync_cookie, decodes in He. rewrite Hs in He. cbn [negb orb] in He.
    destruct (decodeURIComponent (trim_end (snd e))) as [dv|] eqn:Hd;
      [|discriminate].
    pose proof (startsWith_split _ _ Hs) as Hname.
    set (key := skipn (length (cookiePrefix cfg)) (fst e)) in *.
    destruct (IH Hdec Hnd (obj_set key dv syncData)) as [IH1 IH2].
    split.
    + intros k v Hin Habs. cbn [map In] in Habs.
      apply IH1; [|tauto].
      unfold obj_set. destruct (jstring_eqb key (js "__proto__")); [exact Hin|].
      apply assoc_put_In_other; [|exact Hin].
      intros ->. apply Habs. left. exact Hname.
    + intros k raw v [E|Hin] Hproto Hv; [|now apply (IH2 k raw v)].
      assert (Hk : key = k).
      { rewrite E in Hname. cbn [fst] in Hname.
        symmetry. now apply app_inv_head in Hname. }
      assert (Hdv : dv = v).
      { rewrite E in Hd. cbn [snd] in Hd. congruence. }
      subst k dv. apply IH1.
      * unfold obj_set. apply jstring_eqb_neq in Hproto. rewrite Hproto.
        apply assoc_put_In_same.
      * rewrite <- Hname. exact Hfresh.
  - destruct (IH Hdec Hnd syncData) as [IH1 IH2].
    split.
    + intros k v Hin Habs. cbn [map In] in Habs. apply IH1; tauto.
    + intros k raw v [E|Hin] Hproto Hv; [|now apply (IH2 k raw v)].
      rewrite E in Hs. cbn [fst] in Hs. now rewrite startsWith_app in Hs.
Qed.

(** X8.  Every entry of the snapshot [getAllSyncCookies] returns comes
    from a cookie of the store whose name is the prefix followed by the
    entry's key and whose value decodes to the entry's value, so a cookie
    without the prefix never shows in it.  When the names of the store are
    distinct and every prefixed value decodes, the converse holds for every
    key but [__proto__], which a plain object cannot hold. *)
Theorem getAllSyncCookies_entries (cfg : Config) (d : Document) :
  jar_ok (jar d) = true ->
  (forall k v, In (k, v) (getAllSyncCookies cfg d) ->
     k <> js "__proto__"
     /\ exists raw, In (cookiePrefix cfg ++ k, raw) (jar d)
                    /\ decodeURIComponent (trim_end raw) = Some v)
  /\ (sync_decodable cfg (jar d) = true -> NoDup (map fst (jar d)) ->
      forall k raw v,
        In (cookiePrefix cfg ++ k, raw) (jar d) -> k <> js "__proto__" ->
        decodeURIComponent (trim_end raw) = Some v ->
        In (k, v) (getAllSyncCookies cfg d)).
Proof.
  intros Hj. rewrite (getAllSyncCookies_jar cfg d Hj). split.
  - apply (snapshot_of_sound cfg (jar d)
             (fun k v => k <> js "__proto__"
                /\ exists raw, In (cookiePrefix cfg ++ k, raw) (jar d)
                     /\ decodeURIComponent (trim_end raw) = Some v)).
    + intros k raw v Hin Hproto Hd. split; [exact Hproto|]. now exists raw.
    + apply incl_refl.
    + intros k v [].
  - intros Hdec Hnd. apply (snapshot_of_complete cfg (jar d) Hdec Hnd []).
Qed.

(** A store with two cookies of the library and a foreign one. *)
Lemma getAllSyncCookies_entries_witness :
  let d := mkDocument [(js "sds_sync_token", js "a%20b");
                       (js "theme", js "dark");
                       (js "sds_sync_lang", js "en")] [] None in
  In (js "token", js "a b") (getAllSyncCookies default_config d)
  /\ In (js "lang", js "en") (getAllSyncCookies default_config d)
  /\ forall v, ~ In (js "theme", v) (getAllSyncCookies default_config d).
Proof.
  intros d.
  destruct (getAllSyncCookies_entries default_config d eq_refl)
    as [Hsound Hcomplete].
  assert (Hnd : NoDup (map fst (jar d))).
  { repeat constructor; cbn; intuition discriminate. }
  split; [|split].
  - apply (Hcomplete eq_refl Hnd (js "token") (js "a%20b") (js "a b")).
    + left. reflexivity.
    + discriminate.
    + reflexivity.
  - apply (Hcomplete eq_refl Hnd (js "lang") (js "en") (js "en")).
    + right. right. left. reflexivity.
    + discriminate.
    + reflexivity.
  - intros v Hin. destruct (Hsound _ _ Hin) as (_ & raw & Hraw & _).
    cbn in Hraw. destruct Hraw as [H|[H|[H|[]]]]; discriminate H.
Defined.

Lemma snapshot_of_stops (cfg : Config) (j1 j2 : Jar) (e : jstring * jstring) :
  is_sync_cookie cfg e = true -> decodes e = false ->
  forall syncData,
    snapshot_of cfg (j1 ++ e :: j2) syncData = snapshot_of cfg j1 syncData.
Proof.
  unfold is_sync_cookie, decodes. intros Hs Hd.
  induction j1 as [|x j1 IH]; intros syncData; cbn [app snapshot_of].
  - rewrite Hs. now destruct (decodeURIComponent _).
  - destruct (startsWith _ (fst x)); [|apply IH].
    destruct (decodeURIComponent (trim_end (snd x))); [apply IH | reflexivity].
Qed.

(** X9.  The enumeration of [getAllSyncCookies] ends at the first cookie
    of the library whose value does not decode: the snapshot is the one of
    the cookies before it, and the cookies after it are left out, whatever
    their values. *)
Theorem getAllSyncCookies_stops_at_bad_value (cfg : Config) (d d1 : Document)
        (name bad : jstring) (later : Jar) :
  jar d = jar d1 ++ (name, bad) :: later ->
  jar_ok (jar d) = true ->
  startsWith (cookiePrefix cfg) name = true ->
  decodeURIComponent (trim_end bad) = None ->
  getAllSyncCookies cfg d = getAllSyncCookies cfg d1.
Proof.
  intros Hjar Hj Hs Hd.
  assert (Hj1 : jar_ok (jar d1) = true).
  { unfold jar_ok in *. rewrite Hjar, forallb_app in Hj.
    now apply andb_true_iff in Hj as [Hj _]. }
  rewrite (getAllSyncCookies_jar cfg d Hj), (getAllSyncCookies_jar cfg d1 Hj1).
  rewrite Hjar. apply snapshot_of_stops.
  - exact Hs.
  - unfold decodes. cbn [snd]. now rewrite Hd.
Qed.

(** A value cut off in the middle of an escape hides the cookie after
    it. *)
Lemma getAllSyncCookies_stops_at_bad_value_witness :
  let d := mkDocument [(js "sds_sync_a", js "1"); (js "sds_sync_b", js "%E0%A4%A");
                       (js "sds_sync_c", js "3")] [] None in
  getAllSyncCookies default_config d = [(js "a", js "1")].
Proof.
  intros d.
  apply (getAllSyncCookies_stops_at_bad_value default_config d
           (mkDocument [(js "sds_sync_a", js "1")] [] None)
           (js "sds_sync_b") (js "%E0%A4%A") [(js "sds_sync_c", js "3")]);
    reflexivity.
Defined.

(* --------------------------------------------------------------------- *)
(** ** Clearing the sync cookies *)

Lemma deleteFromCookie_result (cfg : Config) (host : jstring) (key : jsval)
      (d : Document) :
  fst (deleteFromCookie cfg host key d)
  = match sanitizeKey key with Some _ => true | None => false end.
Proof.
  unfold deleteFromCookie. destruct (sanitizeKey key) as [sk|] eqn:E;
    [|reflexivity].
  destruct (@sanitizeKey_clean key sk E) as [_ Hne].
  destruct sk; [contradiction | reflexivity].
Qed.

Lemma filter_twice {A} (f g : A -> bool) (l : list A) :
  filter f (filter g l) = filter (fun x => g x && f x) l.
Proof.
  induction l as [|x l IH]; [reflexivity|]. cbn [filter].
  destruct (g x); cbn [filter andb]; [destruct (f x)|]; now rewrite IH.
Qed.

(** The loop of [clearAllSyncCookies] over keys that sanitisation leaves
    as they are. *)
Lemma clear_loop (cfg : Config) (host : jstring) (keys : list jstring) :
  clean (cookiePrefix cfg) = true -> lacks semicolon host = true ->
  forall count d,
    (forall k, In k keys ->
       sanitizeKey (JStr k) = Some k
       /\ within (size_limit d) (octets (cookiePrefix cfg ++ k)) = true) ->
    let result := fold_left (clear_one cfg host) keys (count, d) in
    fst result = (count + length keys)%nat
    /\ size_limit (snd result) = size_limit d
    /\ jar (snd result)
       = filter (fun e => negb (existsb (fun k =>
                           jstring_eqb (fst e) (cookiePrefix cfg ++ k)) keys))
                (jar d).
Proof.
  intros Hp Hh. induction keys as [|k keys IH]; intros count d Hkeys;
    cbn [fold_left].
  - cbn [fst snd length existsb negb]. split; [lia|]. split; [reflexivity|].
    symmetry. clear. induction (jar d) as [|e j IHj]; [reflexivity|].
    cbn [filter]. now f_equal.
  - destruct (Hkeys k (or_introl eq_refl)) as [Ek Hfit].
    destruct (@deleteFromCookie_removes cfg host (JStr k) d k Hp Hh Ek)
      as (Hok & Hjar & Hlim).
    rewrite Hfit in Hjar.
    set (d' := snd (deleteFromCookie cfg host (JStr k) d)) in *.
    assert (Hstep : clear_one cfg host (count, d) k = (S count, d')).
    { unfold clear_one. subst d'.
      destruct (deleteFromCookie cfg host (JStr k) d) as [deleted d1].
      cbn [fst snd] in *. now rewrite Hok. }
    rewrite Hstep.
    destruct (IH (S count) d') as (Hc & Hl & Hj).
    { intros k' Hin. destruct (Hkeys k' (or_intror Hin)) as [E F].
      split; [exact E | now rewrite Hlim]. }
    cbn zeta in *. split; [rewrite Hc; cbn [length]; lia|].
    split; [now rewrite Hl|].
    rewrite Hj, Hjar. unfold jar_remove, assoc_remove.
    rewrite filter_twice. apply filter_ext. intros e. cbn [existsb].
    now rewrite negb_orb.
Qed.

Lemma snapshot_of_keys (cfg : Config) (j : Jar) :
  sync_decodable cfg j = true ->
  forall syncData k,
    In k (map fst (snapshot_of cfg j syncData))
    <-> In k (map fst syncData)
        \/ (k <> js "__proto__" /\ In (cookiePrefix cfg ++ k) (map fst j)).
Proof.
  induction j as [|e j IH]; intros Hdec syncData k.
  { cbn [snapshot_of map In]. tauto. }
  cbn [sync_decodable forallb] in Hdec.
  apply andb_true_iff in Hdec as [He Hdec].
  cbn [snapshot_of map In].
  destruct (startsWith (cookiePrefix cfg) (fst e)) eqn:Hs.
  - unfold is_sync_cookie, decodes in He. rewrite Hs in He. cbn [negb orb] in He.
    destruct (decodeURIComponent (trim_end (snd e))) as [dv|]; [|discriminate].
    pose proof (startsWith_split _ _ Hs) as Hname.
    set (key := skipn (length (cookiePrefix cfg)) (fst e)) in *.
    rewrite (IH Hdec). unfold obj_set.
    destruct (jstring_eqb key (js "__proto__")) eqn:Hproto.
    + apply jstring_eqb_eq in Hproto. split; [tauto|].
      intros [H|[Hk [H|H]]]; [tauto| |tauto].
      exfalso. apply Hk. rewrite Hname in H. apply app_inv_head in H. congruence.
    + apply jstring_eqb_neq in Hproto. split.
      * intros [H|[Hk H]]; [|tauto].
        apply in_map_iff in H as ((k' & v') & <- & H). cbn [fst].
        apply assoc_put_In in H as [[-> ->]|H].
        -- right. split; [exact Hproto|]. left. exact Hname.
        -- left. apply in_map_iff. now exists (k', v').
      * intros [H|[Hk [H|H]]]; [| |tauto].
        -- left. apply in_map_iff in H as ((k' & v') & <- & H). cbn [fst].
           destruct (jstring_eqb_eq k' key) as [_ Heq].
           destruct (jstring_eqb k' key) eqn:E.
           ++ apply jstring_eqb_eq in E as ->. apply assoc_put_has.
           ++ apply jstring_eqb_neq in E. apply in_map_iff.
              exists (k', v'). split; [reflexivity|].
              now apply assoc_put_In_other.
        -- left. rewrite Hname in H. apply app_inv_head in H as <-.
           apply assoc_put_has.
  - rewrite (IH Hdec). split; [tauto|].
    intros [H|[Hk [H|H]]]; [tauto| |tauto].
    rewrite H in Hs. now rewrite startsWith_app in Hs.
Qed.

Lemma snapshot_of_none (cfg : Config) (j : Jar) (syncData : Obj) :
  forallb (fun e => negb (is_sync_cookie cfg e)) j = true ->
  snapshot_of cfg j syncData = syncData.
Proof.
  induction j as [|e j IH]; [reflexivity|]. cbn [forallb snapshot_of].
  intros H. apply andb_true_iff in H as [He Hj].
  unfold is_sync_cookie in He. apply negb_true_iff in He. rewrite He.
  now apply IH.
Qed.

Lemma forallb_filter_self {A} (f : A -> bool) (l : list A) :
  forallb f (filter f l) = true.
Proof.
  induction l as [|x l IH]; [reflexivity|]. cbn [filter].
  destruct (f x) eqn:E; [cbn [forallb]; now rewrite E | exact IH].
Qed.

Lemma forallb_filter_keep {A} (f g : A -> bool) (l : list A) :
  forallb f l = true -> forallb f (filter g l) = true.
Proof.
  induction l as [|x l IH]; [reflexivity|]. cbn [forallb filter].
  intros H. apply andb_true_iff in H as [Hx Hl].
  destruct (g x); [cbn [forallb]; rewrite Hx|]; now apply IH.
Qed.

Lemma assoc_put_length_fresh {V} (k : jstring) (v : V)
      (l : list (jstring * V)) :
  ~ In k (map fst l) -> length (assoc_put k v l) = S (length l).
Proof.
  induction l as [|e l IH]; cbn [map In assoc_put length]; [reflexivity|].
  intros H. destruct (jstring_eqb (fst e) k) eqn:E.
  - apply jstring_eqb_eq in E. tauto.
  - cbn [length]. f_equal. apply IH. tauto.
Qed.

Lemma snapshot_of_length (cfg : Config) (j : Jar) :
  sync_decodable cfg j = true -> NoDup (map fst j) ->
  forallb (fun e => negb (is_sync_cookie cfg e)
                    || negb (jstring_eqb (skipn (length (cookiePrefix cfg)) (fst e))
                                         (js "__proto__"))) j = true ->
  forall syncData,
    (forall k, In k (map fst syncData) ->
               ~ In (cookiePrefix cfg ++ k) (map fst j)) ->
    length (snapshot_of cfg j syncData)
    = (length syncData + length (filter (is_sync_cookie cfg) j))%nat.
Proof.
  induction j as [|e j IH]; intros Hdec Hnd Hproto syncData Hfresh.
  { cbn [snapshot_of filter length]. now rewrite Nat.add_0_r. }
  cbn [sync_decodable forallb] in Hdec, Hproto.
  apply andb_true_iff in Hdec as [He Hdec].
  apply andb_true_iff in Hproto as [Hpe Hproto].
  cbn [map] in Hnd. apply NoDup_cons_iff in Hnd as [Hnew Hnd].
  cbn [snapshot_of filter]. unfold is_sync_cookie in *.
  destruct (startsWith (cookiePrefix cfg) (fst e)) eqn:Hs.
  - unfold decodes in He. cbn [negb orb] in He, Hpe.
    destruct (decodeURIComponent (trim_end (snd e))) as [dv|]; [|discriminate].
    pose proof (startsWith_split _ _ Hs) as Hname.
    set (key := skipn (length (cookiePrefix cfg)) (fst e)) in *.
    apply negb_true_iff in Hpe.
    rewrite IH; try assumption.
    + unfold obj_set. rewrite Hpe. cbn [length].
      rewrite assoc_put_length_fresh; [now rewrite Nat.add_succ_r|].
      intros H. apply (Hfresh key H). left. exact Hname.
    + intros k Hk Hin. unfold obj_set in Hk. rewrite Hpe in Hk.
      apply assoc_put_keys_in in Hk as [->|Hk].
      * apply Hnew. now rewrite Hname.
      * apply (Hfresh k Hk). now right.
  - apply IH; try assumption.
    intros k Hk Hin. apply (Hfresh k Hk). now right.
Qed.

Lemma Object_keys_In (o : Obj) (k : jstring) :
  In k (Object_keys o) <-> In k (map fst o).
Proof.
  unfold Object_keys.
  pose proof (Permutation_map fst (Object_entries_perm o)) as P.
  split; intros H.
  - eapply Permutation_in; [symmetry; exact P | exact H].
  - eapply Permutation_in; [exact P | exact H].
Qed.

Lemma own_cookies_facts (cfg : Config) (d : Document) :
  own_cookies cfg d = true ->
  sync_decodable cfg (jar d) = true
  /\ forallb (fun e => negb (is_sync_cookie cfg e)
                       || negb (jstring_eqb
                                  (skipn (length (cookiePrefix cfg)) (fst e))
                                  (js "__proto__"))) (jar d) = true
  /\ forall k, In (cookiePrefix cfg ++ k) (map fst (jar d)) ->
       sanitizeKey (JStr k) = Some k
       /\ k <> js "__proto__"
       /\ within (size_limit d) (octets (cookiePrefix cfg ++ k)) = true.
Proof.
  unfold own_cookies, sync_decodable. intros H.
  rewrite forallb_forall in H.
  assert (Hown : forall e, In e (jar d) -> is_sync_cookie cfg e = true ->
                           own_cookie cfg (size_limit d) e = true).
  { intros e He Hs. specialize (H e He). rewrite Hs in H. exact H. }
  split; [|split].
  - apply forallb_forall. intros e He.
    destruct (is_sync_cookie cfg e) eqn:Hs; [|reflexivity].
    specialize (Hown e He Hs). unfold own_cookie in Hown.
    apply andb_true_iff in Hown as [Hown _].
    apply andb_true_iff in Hown as [_ Hd]. exact Hd.
  - apply forallb_forall. intros e He.
    destruct (is_sync_cookie cfg e) eqn:Hs; [|reflexivity].
    specialize (Hown e He Hs). unfold own_cookie in Hown.
    apply andb_true_iff in Hown as [Hown _].
    apply andb_true_iff in Hown as [Hown _].
    apply andb_true_iff in Hown as [_ Hp]. exact Hp.
  - intros k Hin. apply in_map_iff in Hin as (e & Hname & He).
    assert (Hs : is_sync_cookie cfg e = true).
    { unfold is_sync_cookie. rewrite Hname. apply startsWith_app. }
    specialize (Hown e He Hs). unfold own_cookie in Hown.
    rewrite Hname, skipn_length_app in Hown.
    apply andb_true_iff in Hown as [Hown Hfit].
    apply andb_true_iff in Hown as [Hown _].
    apply andb_true_iff in Hown as [Hk Hp].
    split; [|split; [|exact Hfit]].
    + destruct (sanitizeKey (JStr k)) as [sk|]; [|discriminate].
      apply jstring_eqb_eq in Hk. now subst.
    + apply negb_true_iff in Hp. now apply jstring_eqb_neq.
Qed.

(** X10.  On a store whose prefixed cookies are the library's own,
    [clearAllSyncCookies] deletes exactly the cookies whose name begins
    with the prefix and keeps the others in place; it returns the size of
    the snapshot it took, which is the number of those cookies when the
    names of the store are distinct; the snapshot taken afterwards is
    empty. *)
Theorem clearAllSyncCookies_clears (cfg : Config) (host : jstring)
        (d : Document) :
  writable cfg host -> jar_ok (jar d) = true -> own_cookies cfg d = true ->
  let result := clearAllSyncCookies cfg host d in
  fst result = length (getAllSyncCookies cfg d)
  /\ (NoDup (map fst (jar d)) ->
      fst result = length (filter (is_sync_cookie cfg) (jar d)))
  /\ jar (snd result) = filter (fun e => negb (is_sync_cookie cfg e)) (jar d)
  /\ getAllSyncCookies cfg (snd result) = [].
Proof.
  intros (Hp & _ & Hh) Hj Hown result.
  destruct (own_cookies_facts cfg d Hown) as (Hdec & Hproto & Hkeys).
  pose proof (getAllSyncCookies_jar cfg d Hj) as Hsnap.
  assert (Hin : forall k, In k (Object_keys (getAllSyncCookies cfg d)) <->
                          k <> js "__proto__"
                          /\ In (cookiePrefix cfg ++ k) (map fst (jar d))).
  { intros k. rewrite Object_keys_In, Hsnap, (snapshot_of_keys cfg (jar d) Hdec).
    cbn [map In]. tauto. }
  destruct (clear_loop cfg host (Object_keys (getAllSyncCookies cfg d)) Hp Hh
              0%nat d) as (Hcount & _ & Hjar).
  { intros k Hk. apply Hin in Hk as [_ Hk].
    destruct (Hkeys k Hk) as (A & _ & B). now split. }
  fold (clearAllSyncCookies cfg host d) in Hcount, Hjar. fold result in Hcount, Hjar.
  cbn [Nat.add] in Hcount. rewrite Object_keys_length in Hcount.
  assert (Hjar' : jar (snd result)
                  = filter (fun e => negb (is_sync_cookie cfg e)) (jar d)).
  { rewrite Hjar. apply filter_ext_in. intros e He. f_equal.
    unfold is_sync_cookie.
    destruct (startsWith (cookiePrefix cfg) (fst e)) eqn:Hs.
    - apply existsb_exists.
      pose proof (startsWith_split _ _ Hs) as Hname.
      exists (skipn (length (cookiePrefix cfg)) (fst e)). split.
      + apply Hin.
        assert (Hn : In (cookiePrefix cfg
                         ++ skipn (length (cookiePrefix cfg)) (fst e))
                        (map fst (jar d))).
        { rewrite <- Hname. now apply in_map. }
        split; [|exact Hn]. now destruct (Hkeys _ Hn) as (_ & B & _).
      + rewrite <- Hname. apply jstring_eqb_refl.
    - destruct (existsb _ _) eqn:Hex; [|reflexivity].
      apply existsb_exists in Hex as (k & _ & Hk).
      apply jstring_eqb_eq in Hk. rewrite Hk, startsWith_app in Hs.
      discriminate Hs. }
  split; [exact Hcount|]. split; [|split; [exact Hjar'|]].
  - intros Hnd. rewrite Hcount, Hsnap.
    apply (snapshot_of_length cfg (jar d) Hdec Hnd Hproto []).
    intros k [].
  - assert (Hj' : jar_ok (jar (snd result)) = true).
    { rewrite Hjar'. now apply forallb_filter_keep. }
    rewrite (getAllSyncCookies_jar cfg (snd result) Hj'), Hjar'.
    apply snapshot_of_none. apply forallb_filter_self.
Qed.

(** Two cookies of the library around a foreign one. *)
Lemma clearAllSyncCookies_clears_witness :
  let d := mkDocument [(js "sds_sync_token", js "a%20b");
                       (js "theme", js "dark");
                       (js "sds_sync_lang", js "en")] [] (Some 4096%nat) in
  let result := clearAllSyncCookies default_config (js "app.example.com") d in
  fst result = 2%nat
  /\ jar (snd result) = [(js "theme", js "dark")]
  /\ getAllSyncCookies default_config (snd result) = [].
Proof.
  intros d result.
  assert (Hw : writable default_config (js "app.example.com"))
    by (repeat split).
  destruct (clearAllSyncCookies_clears default_config (js "app.example.com") d
              Hw eq_refl eq_refl) as (Hcount & _ & Hjar & Hempty).
  fold result in Hcount, Hjar, Hempty.
  split; [exact Hcount|]. split; [exact Hjar | exact Hempty].
Defined.
(* --------------------------------------------------------------------- *)
(** ** Validation: what it returns and what it keeps *)

Lemma includes_In (t : jstring) :
  In t validStorageTypes -> includes validStorageTypes (JStr t) = true.
Proof.
  intros H. unfold includes. apply existsb_exists. exists t.
  split; [exact H | apply jstring_eqb_refl].
Qed.

Lemma filter_all {A} (f : A -> bool) (l : list A) :
  Forall (fun x => f x = true) l -> filter f l = l.
Proof.
  induction 1 as [|x l Hx Hl IH]; [reflexivity|].
  cbn [filter]. now rewrite Hx, IH.
Qed.

(** A record with nothing to repair comes out with its rules filtered and
    nothing else changed. *)
Lemma validateConfig_valid (CONFIG : RawConfig) :
  valid_fields CONFIG ->
  validateConfig CONFIG
  = (set_syncKeys (JArr (filter valid_syncKey (rules_of CONFIG))) CONFIG, true).
Proof.
  intros ((t & Ht & Hin) & (o & Ho) & (g & Hg) & (p & Hp & Hne) & (n & Hn & Hpos)
          & (ks & Hks)).
  destruct CONFIG as [cp ca ck co ct cd]. cbn [raw_storageType
    raw_overwriteExisting raw_debug raw_cookiePrefix raw_cookieMaxAge
    raw_syncKeys] in *. subst.
  destruct p as [|c p]; [contradiction|].
  assert (R : forall f s, repair false f s = s) by reflexivity.
  unfold validateConfig, rules_of. cbv zeta.
  cbn [fst snd raw_storageType raw_overwriteExisting raw_debug
       raw_cookiePrefix raw_cookieMaxAge raw_syncKeys].
  rewrite (includes_In t Hin). cbn [negb]. rewrite !R.
  cbn [fst snd raw_storageType raw_overwriteExisting raw_debug
       raw_cookiePrefix raw_cookieMaxAge raw_syncKeys].
  change (is_typeof (JNum n) "number") with true. cbn [negb orb].
  rewrite Hpos, !R.
  cbn [fst snd raw_syncKeys]. reflexivity.
Qed.

Lemma repair_snd (violated : bool) (fix_it : RawConfig -> RawConfig)
      (s : RawConfig * bool) :
  snd (repair violated fix_it s) = negb violated && snd s.
Proof. unfold repair. now destruct violated. Qed.

(** The value [validateConfig] returns, as a test of the record it was
    given. *)
Lemma validateConfig_isValid (CONFIG : RawConfig) :
  snd (validateConfig CONFIG)
  = includes validStorageTypes (raw_storageType CONFIG)
    && is_typeof (raw_overwriteExisting CONFIG) "boolean"
    && is_typeof (raw_debug CONFIG) "boolean"
    && negb (negb (is_typeof (raw_cookiePrefix CONFIG) "string")
             || match raw_cookiePrefix CONFIG with
                | JStr p => Nat.eqb (length p) 0
                | _ => false
                end)
    && negb (negb (is_typeof (raw_cookieMaxAge CONFIG) "number")
             || match raw_cookieMaxAge CONFIG with
                | JNum n => num_le_zero n
                | _ => false
                end)
    && match raw_syncKeys CONFIG with JArr _ => true | _ => false end.
Proof.
  unfold validateConfig.
  set (s0 := (CONFIG, true)).
  set (s1 := repair _ _ s0).
  assert (K1 : raw_overwriteExisting (fst s1) = raw_overwriteExisting CONFIG
               /\ raw_debug (fst s1) = raw_debug CONFIG
               /\ raw_cookiePrefix (fst s1) = raw_cookiePrefix CONFIG
               /\ raw_cookieMaxAge (fst s1) = raw_cookieMaxAge CONFIG
               /\ raw_syncKeys (fst s1) = raw_syncKeys CONFIG).
  { subst s1. now rewrite (repair_keeps raw_overwriteExisting),
                (repair_keeps raw_debug), (repair_keeps raw_cookiePrefix),
                (repair_keeps raw_cookieMaxAge), (repair_keeps raw_syncKeys). }
  assert (V1 : snd s1 = includes validStorageTypes (raw_storageType CONFIG)).
  { subst s1. rewrite repair_snd. subst s0. cbn [fst snd].
    now rewrite negb_involutive, andb_true_r. }
  destruct K1 as (K1a & K1b & K1c & K1d & K1e).
  clearbody s1. clear s0.
  set (s2 := repair _ _ s1).
  assert (K2 : raw_debug (fst s2) = raw_debug (fst s1)
               /\ raw_cookiePrefix (fst s2) = raw_cookiePrefix (fst s1)
               /\ raw_cookieMaxAge (fst s2) = raw_cookieMaxAge (fst s1)
               /\ raw_syncKeys (fst s2) = raw_syncKeys (fst s1)).
  { subst s2. now rewrite (repair_keeps raw_debug),
                (repair_keeps raw_cookiePrefix),
                (repair_keeps raw_cookieMaxAge), (repair_keeps raw_syncKeys). }
  assert (V2 : snd s2 = is_typeof (raw_overwriteExisting CONFIG) "boolean"
                        && snd s1).
  { subst s2. now rewrite repair_snd, negb_involutive, K1a. }
  destruct K2 as (K2b & K2c & K2d & K2e).
  rewrite K1b in K2b. rewrite K1c in K2c. rewrite K1d in K2d. rewrite K1e in K2e.
  rewrite V1 in V2. clearbody s2. clear K1a K1b K1c K1d K1e V1 s1.
  set (s3 := repair _ _ s2).
  assert (K3 : raw_cookiePrefix (fst s3) = raw_cookiePrefix (fst s2)
               /\ raw_cookieMaxAge (fst s3) = raw_cookieMaxAge (fst s2)
               /\ raw_syncKeys (fst s3) = raw_syncKeys (fst s2)).
  { subst s3. now rewrite (repair_keeps raw_cookiePrefix),
                (repair_keeps raw_cookieMaxAge), (repair_keeps raw_syncKeys). }
  assert (V3 : snd s3 = is_typeof (raw_debug CONFIG) "boolean" && snd s2).
  { subst s3. now rewrite repair_snd, negb_involutive, K2b. }
  destruct K3 as (K3c & K3d & K3e).
  rewrite K2c in K3c. rewrite K2d in K3d. rewrite K2e in K3e.
  rewrite V2 in V3. clearbody s3. clear K2b K2c K2d K2e V2 s2.
  set (s4 := repair _ _ s3).
  assert (K4 : raw_cookieMaxAge (fst s4) = raw_cookieMaxAge (fst s3)
               /\ raw_syncKeys (fst s4) = raw_syncKeys (fst s3)).
  { subst s4. now rewrite (repair_keeps raw_cookieMaxAge),
                (repair_keeps raw_syncKeys). }
  assert (V4 : snd s4
               = negb (negb (is_typeof (raw_cookiePrefix CONFIG) "string")
                       || match raw_cookiePrefix CONFIG with
                          | JStr p => Nat.eqb (length p) 0
                          | _ => false
                          end) && snd s3).
  { subst s4. now rewrite repair_snd, K3c. }
  destruct K4 as (K4d & K4e). rewrite K3d in K4d. rewrite K3e in K4e.
  rewrite V3 in V4. clearbody s4. clear K3c K3d K3e V3 s3.
  set (s5 := repair _ _ s4).
  assert (K5 : raw_syncKeys (fst s5) = raw_syncKeys (fst s4)).
  { subst s5. now rewrite (repair_keeps raw_syncKeys). }
  assert (V5 : snd s5
               = negb (negb (is_typeof (raw_cookieMaxAge CONFIG) "number")
                       || match raw_cookieMaxAge CONFIG with
                          | JNum n => num_le_zero n
                          | _ => false
                          end) && snd s4).
  { subst s5. now rewrite repair_snd, K4d. }
  rewrite K4e in K5. rewrite V4 in V5. clearbody s5. clear K4d K4e V4 s4.
  rewrite K5.
  destruct (raw_syncKeys CONFIG); cbn [snd]; rewrite ?V5;
    rewrite ?andb_false_r; try reflexivity.
  rewrite andb_true_r.
  repeat match goal with
         | |- context [includes ?a ?b] => destruct (includes a b)
         | |- context [is_typeof ?a ?b] => destruct (is_typeof a b)
         | |- context [negb (?a || ?b)] => destruct (negb (a || b))
         end; reflexivity.
Qed.

(** X11.  After [validateConfig] the record has nothing left to repair
    and its rules are all non-empty strings or regular expressions;
    validating it again returns [true] and changes nothing. *)
Theorem validateConfig_idempotent (CONFIG : RawConfig) :
  let r := fst (validateConfig CONFIG) in
  valid_fields r
  /\ Forall (fun k => valid_syncKey k = true) (rules_of r)
  /\ validateConfig r = (r, true).
Proof.
  intros r.
  destruct (validateConfig_fields CONFIG)
    as (T1 & T2 & T3 & T4 & T5 & (ks & Hks & Hall)).
  fold r in T1, T2, T3, T4, T5, Hks.
  assert (Hvalid : valid_fields r).
  { unfold valid_fields. repeat (split; [assumption|]). now exists ks. }
  assert (Hrules : rules_of r = ks) by (unfold rules_of; now rewrite Hks).
  split; [exact Hvalid|]. split; [now rewrite Hrules|].
  rewrite (validateConfig_valid r Hvalid), Hrules, (filter_all _ _ Hall).
  f_equal. clearbody r. destruct r as [cp ca ck co ct cd].
  cbn [raw_syncKeys] in Hks. subst.
  reflexivity.
Qed.

Lemma is_typeof_string (v : jsval) :
  is_typeof v "string" = true -> exists s, v = JStr s.
Proof. destruct v; try discriminate. intros _. now exists s. Qed.

Lemma is_typeof_number (v : jsval) :
  is_typeof v "number" = true -> exists n, v = JNum n.
Proof. destruct v; try discriminate. intros _. now exists n. Qed.

(** X12.  [validateConfig] returns [true] exactly when the five scalar
    fields are valid and [syncKeys] is an array; the record is then left as
    it was but for the rules that are neither a non-empty string nor a
    regular expression, which are dropped without turning the result into
    [false]. *)
Theorem validateConfig_true_iff (CONFIG : RawConfig) :
  (snd (validateConfig CONFIG) = true <-> valid_fields CONFIG)
  /\ (valid_fields CONFIG ->
      fst (validateConfig CONFIG)
      = set_syncKeys (JArr (filter valid_syncKey (rules_of CONFIG))) CONFIG).
Proof.
  split.
  - split.
    + rewrite validateConfig_isValid. intros H.
      apply andb_true_iff in H as [H H6].
      apply andb_true_iff in H as [H H5].
      apply andb_true_iff in H as [H H4].
      apply andb_true_iff in H as [H H3].
      apply andb_true_iff in H as [H1 H2].
      apply negb_true_iff, orb_false_iff in H4 as [H4a H4b].
      apply negb_true_iff, orb_false_iff in H5 as [H5a H5b].
      apply negb_false_iff in H4a, H5a.
      unfold valid_fields.
      split; [now apply includes_valid|].
      split; [now apply typeof_boolean|].
      split; [now apply typeof_boolean|].
      split; [|split].
      * destruct (is_typeof_string _ H4a) as [p Hp]. rewrite Hp in H4b.
        exists p. split; [exact Hp|]. intros ->. discriminate H4b.
      * destruct (is_typeof_number _ H5a) as [n Hn]. rewrite Hn in H5b.
        now exists n.
      * destruct (raw_syncKeys CONFIG); try discriminate. now exists l.
    + intros H. now rewrite (validateConfig_valid CONFIG H).
  - intros H. now rewrite (validateConfig_valid CONFIG H).
Qed.

(** The default record with the rules [['a', '', 5]]: the result is
    [true] although two rules are dropped. *)
Lemma validateConfig_true_iff_witness :
  let CONFIG := set_syncKeys (JArr [JStr (js "a"); JStr []; JNum (NumInt 5)])
                             (to_raw default_config) in
  snd (validateConfig CONFIG) = true
  /\ raw_syncKeys (fst (validateConfig CONFIG)) = JArr [JStr (js "a")].
Proof.
  intros CONFIG.
  assert (H : valid_fields CONFIG).
  { unfold valid_fields. split; [|split; [|split; [|split; [|split]]]].
    - exists (js "localStorage"). split; [reflexivity | now left].
    - now exists false.
    - now exists false.
    - exists (js "sds_sync_"). split; [reflexivity | discriminate].
    - exists (NumInt one_year). split; reflexivity.
    - eexists. reflexivity. }
  destruct (validateConfig_true_iff CONFIG) as [Hiff Hkeep].
  split; [now apply Hiff|]. now rewrite (Hkeep H).
Defined.

(* --------------------------------------------------------------------- *)
(** ** Storage selection *)

(** X13.  The areas the replay writes to are the areas whose changes the
    interceptors mirror; [localStorage] comes before [sessionStorage];
    one of the three storage types gives at least one area and any other
    value gives none. *)
Theorem getStorageObjects_scope (cfg : Config) :
  (forall s, In s (getStorageObjects cfg) <-> shouldSyncStorage cfg s = true)
  /\ (storageType cfg = js "both" ->
      getStorageObjects cfg = [LocalStorage; SessionStorage])
  /\ (In (storageType cfg) validStorageTypes -> getStorageObjects cfg <> [])
  /\ (~ In (storageType cfg) validStorageTypes -> getStorageObjects cfg = []).
Proof.
  unfold getStorageObjects, shouldSyncStorage, validStorageTypes.
  split; [|split; [|split]].
  - intros s.
    destruct (jstring_eqb (storageType cfg) (js "localStorage"));
      destruct (jstring_eqb (storageType cfg) (js "sessionStorage"));
      destruct (jstring_eqb (storageType cfg) (js "both"));
      destruct s; cbn; intuition congruence.
  - intros ->. reflexivity.
  - intros [<-|[<-|[<-|[]]]]; discriminate.
  - intros H.
    destruct (jstring_eqb (storageType cfg) (js "localStorage")) eqn:E1.
    { apply jstring_eqb_eq in E1. exfalso. apply H. now left. }
    destruct (jstring_eqb (storageType cfg) (js "sessionStorage")) eqn:E2.
    { apply jstring_eqb_eq in E2. exfalso. apply H. right. now left. }
    destruct (jstring_eqb (storageType cfg) (js "both")) eqn:E3.
    { apply jstring_eqb_eq in E3. exfalso. apply H. right. right. now left. }
    reflexivity.
Qed.

Lemma getStorageObjects_scope_witness :
  let both := mkConfig (js "sds_sync_") (NumInt one_year) [] false
                       (js "both") false in
  let odd := mkConfig (js "sds_sync_") (NumInt one_year) [] false
                      (js "local") false in
  getStorageObjects both = [LocalStorage; SessionStorage]
  /\ shouldSyncStorage both SessionStorage = true
  /\ getStorageObjects default_config <> []
  /\ getStorageObjects odd = [].
Proof.
  intros both odd.
  destruct (getStorageObjects_scope both) as (Hin & Hboth & _ & _).
  destruct (getStorageObjects_scope default_config) as (_ & _ & Hsome & _).
  destruct (getStorageObjects_scope odd) as (_ & _ & _ & Hnone).
  split; [apply Hboth; reflexivity|].
  split; [apply Hin; rewrite (Hboth eq_refl); right; now left|].
  split; [apply Hsome; now left|].
  apply Hnone. cbn. intros [H|[H|[H|[]]]]; discriminate H.
Defined.

(* --------------------------------------------------------------------- *)
(** ** Domain resolver: hosts of one site *)

Lemma split_nonempty (sep : codeunit) (s : jstring) : split sep s <> [].
Proof.
  destruct s as [|c s]; cbn [split]; [discriminate|].
  destruct (c =? sep)%N; [discriminate|].
  destruct (split sep s); discriminate.
Qed.

Lemma join_split (sep : codeunit) (s : jstring) :
  join [sep] (split sep s) = s.
Proof.
  induction s as [|c s IH]; [reflexivity|]. cbn [split].
  pose proof (split_nonempty sep s) as Hne.
  destruct (N.eqb_spec c sep) as [->|Hc].
  - destruct (split sep s) as [|p ps]; [contradiction|].
    cbn [join app] in *. now rewrite IH.
  - destruct (split sep s) as [|p ps]; [contradiction|].
    destruct ps as [|q ps]; cbn [join app] in *; now rewrite <- IH.
Qed.

Lemma getParentDomain_two_labels (h a b : jstring) (front : list jstring) :
  h <> js "localhost" -> ~ dotted_quad h ->
  split dot h = front ++ [a; b] ->
  getParentDomain h = js "." ++ a ++ js "." ++ b.
Proof.
  intros Hl Hq Hs. unfold getParentDomain.
  apply jstring_eqb_neq in Hl. rewrite Hl.
  destruct (dotted_quad_test h) eqn:Ht;
    [apply dotted_quad_test_iff in Ht; contradiction|].
  cbn [orb]. rewrite Hs.
  destruct front as [|x front].
  - cbn [app length Nat.ltb Nat.leb]. f_equal.
    rewrite <- (join_split dot h), Hs. reflexivity.
  - rewrite slice_last_two.
    replace (Nat.ltb 2 (length ((x :: front) ++ [a; b]))) with true.
    + reflexivity.
    + symmetry. apply Nat.ltb_lt. rewrite length_app. cbn [length]. lia.
Qed.

(** X14.  A host of at least two labels that is neither [localhost] nor
    a dotted quad gets the dot followed by its last two labels, so two
    hosts that end in the same two labels write their cookies to the same
    domain. *)
Theorem getParentDomain_shared (h1 h2 a b : jstring)
        (front1 front2 : list jstring) :
  h1 <> js "localhost" -> ~ dotted_quad h1 ->
  h2 <> js "localhost" -> ~ dotted_quad h2 ->
  split dot h1 = front1 ++ [a; b] -> split dot h2 = front2 ++ [a; b] ->
  getParentDomain h1 = js "." ++ a ++ js "." ++ b
  /\ getParentDomain h2 = getParentDomain h1.
Proof.
  intros Hl1 Hq1 Hl2 Hq2 Hs1 Hs2.
  rewrite (getParentDomain_two_labels h1 a b front1 Hl1 Hq1 Hs1).
  rewrite (getParentDomain_two_labels h2 a b front2 Hl2 Hq2 Hs2).
  now split.
Qed.

(** [example.com] and [admin.eu.example.com]. *)
Lemma getParentDomain_shared_witness :
  getParentDomain (js "example.com") = js ".example.com"
  /\ getParentDomain (js "admin.eu.example.com")
     = getParentDomain (js "example.com").
Proof.
  apply (getParentDomain_shared (js "example.com") (js "admin.eu.example.com")
           (js "example") (js "com") [] [js "admin"; js "eu"]);
    try discriminate; try reflexivity;
    intros Hq; apply dotted_quad_test_iff in Hq; discriminate Hq.
Defined.

(* --------------------------------------------------------------------- *)
(** ** The replay pass: what it leaves alone *)

(** One entry changes at most the value of its own key. *)
Lemma sync_entry_changes (s : StorageId) (k v : jstring) (p : Pass) :
  originalSetItem (pass_world p) = Native ->
  let w := pass_world p in
  let w1 := pass_world (sync_entry s (k, v) p) in
  forall k',
    native_getItem k' (storage_of w1 s) = native_getItem k' (storage_of w s)
    \/ (k' = k /\ shouldSync (CONFIG w) (JStr k) = true
        /\ replay_writes (CONFIG w) (storage_of w s) k v
        /\ native_getItem k (storage_of w1 s) = Some v).
Proof.
  intros Horig w w1 k'. subst w w1. unfold sync_entry. cbn [fst snd].
  set (w := pass_world p) in *.
  destruct (shouldSync (CONFIG w) (JStr k)) eqn:Hsync; cbn [negb];
    [|now left].
  destruct ((overwriteExisting (CONFIG w)
             || is_null (native_getItem k (storage_of w s)))
            && truthy (JStr v)) eqn:Hcond.
  - apply replay_writes_iff in Hcond. rewrite Horig.
    cbn [call_setItem to_string].
    destruct (native_setItem k v (storage_of w s)) as [st'|] eqn:Hset;
      cbn [pass_world].
    + destruct (@native_setItem_get k v (storage_of w s) st' Hset)
        as [Hget Hothers].
      assert (Hst : storage_of (log_nativeSet (mkNativeSet s k v true)
                                              (set_storage s st' w)) s = st')
        by (destruct s; reflexivity).
      rewrite Hst.
      destruct (jstring_eqb k' k) eqn:E.
      * apply jstring_eqb_eq in E as ->. right.
        split; [reflexivity|]. split; [reflexivity|].
        split; [exact Hcond | exact Hget].
      * apply jstring_eqb_neq in E. left. now apply Hothers.
    + left. now destruct s.
  - destruct (negb (is_null (native_getItem k (storage_of w s)))
              && negb (overwriteExisting (CONFIG w))); left; reflexivity.
Qed.

Lemma sync_entries_changes (s : StorageId) (es : list (jstring * jstring)) :
  NoDup (map fst es) ->
  forall p, originalSetItem (pass_world p) = Native ->
  let w := pass_world p in
  let w' := pass_world (fold_left (fun p e => sync_entry s e p) es p) in
  forall k,
    native_getItem k (storage_of w' s) = native_getItem k (storage_of w s)
    \/ exists v, In (k, v) es /\ shouldSync (CONFIG w) (JStr k) = true
                 /\ replay_writes (CONFIG w) (storage_of w s) k v
                 /\ native_getItem k (storage_of w' s) = Some v.
Proof.
  induction es as [|[k0 v0] es IH]; intros Hnd p Horig; cbn [fold_left].
  - intros k. now left.
  - cbn [map fst] in Hnd. inversion Hnd as [|? ? Hk0 Hnd']; subst.
    pose proof (sync_entry_changes s k0 v0 p Horig) as H1.
    pose proof (sync_entry_setup s (k0, v0) p) as S1.
    set (p1 := sync_entry s (k0, v0) p) in *.
    assert (Horig1 : originalSetItem (pass_world p1) = Native)
      by (rewrite (setup_originalSetItem S1); exact Horig).
    assert (Hcfg : CONFIG (pass_world p1) = CONFIG (pass_world p))
      by (apply setup_CONFIG; exact S1).
    pose proof (IH Hnd' p1 Horig1) as H2.
    cbn zeta in *. intros k.
    destruct (H2 k) as [E2 | (v & Hin & Hsync & Hw & Hget)].
    + destruct (H1 k) as [E1 | (-> & Hsync & Hw & Hget)].
      * left. now rewrite E2.
      * right. exists v0. split; [now left|].
        split; [exact Hsync|]. split; [exact Hw|]. rewrite E2. exact Hget.
    + right. exists v. split; [now right|].
      assert (Hne : k <> k0).
      { intros ->. apply Hk0. apply in_map_iff. exists (k0, v). now split. }
      rewrite Hcfg in Hsync, Hw.
      destruct (H1 k) as [E1 | (-> & _)]; [|contradiction].
      split; [exact Hsync|]. split; [|exact Hget].
      now apply (@replay_writes_same (CONFIG (pass_world p))
                   (storage_of (pass_world p) s)
                   (storage_of (pass_world p1) s) k v E1).
Qed.

Lemma replay_changes (es : list (jstring * jstring)) (L : list StorageId) :
  NoDup (map fst es) -> NoDup L ->
  forall total, originalSetItem (pass_world total) = Native ->
  let w := pass_world total in
  let w' := pass_world (fold_left (sync_storage es) L total) in
  forall s k,
    native_getItem k (storage_of w' s) = native_getItem k (storage_of w s)
    \/ (In s L
        /\ exists v, In (k, v) es /\ shouldSync (CONFIG w) (JStr k) = true
                     /\ replay_writes (CONFIG w) (storage_of w s) k v
                     /\ native_getItem k (storage_of w' s) = Some v).
Proof.
  intros Hes. induction L as [|s0 L IH]; intros HL total Horig;
    cbn [fold_left].
  - intros s k. now left.
  - inversion HL as [|? ? Hs0 HL']; subst.
    set (p0 := mkPass (pass_world total) 0 (pass_syncedKeys total)
                      (pass_skippedKeys total)).
    pose proof (@sync_entries_changes s0 es Hes p0 Horig) as H1.
    destruct (@sync_entries_native s0 es Hes p0 Horig)
      as (S1 & _ & O1 & _).
    set (p1 := sync_storage es total s0).
    assert (Hw1 : pass_world p1
                  = pass_world (fold_left (fun p e => sync_entry s0 e p) es p0))
      by reflexivity.
    rewrite <- Hw1 in *. change (pass_world p0) with (pass_world total) in *.
    assert (Horig1 : originalSetItem (pass_world p1) = Native)
      by (rewrite (setup_originalSetItem S1); exact Horig).
    assert (Hcfg : CONFIG (pass_world p1) = CONFIG (pass_world total))
      by (apply setup_CONFIG; exact S1).
    assert (Hother : forall s, s <> s0 ->
              storage_of (pass_world p1) s = storage_of (pass_world total) s).
    { intros s Hne. rewrite (other_storage_spec Hne). exact O1. }
    pose proof (IH HL' p1 Horig1) as H2.
    destruct (@replay_native es L Hes HL' p1 Horig1) as (_ & _ & O2 & _).
    cbn zeta in *. intros s k.
    destruct (H2 s k) as [E2 | (Hs & v & Hin & Hsync & Hw & Hget)].
    + rewrite E2. destruct s, s0;
        try (left; apply f_equal; apply Hother; discriminate).
      * destruct (H1 k) as [E1 | (v & R)]; [now left|].
        right. split; [now left | now exists v].
      * destruct (H1 k) as [E1 | (v & R)]; [now left|].
        right. split; [now left | now exists v].
    + right. split; [now right|]. exists v. split; [exact Hin|].
      assert (Hne : s <> s0) by (intros ->; contradiction).
      rewrite Hcfg in Hsync, Hw. rewrite (Hother s Hne) in Hw.
      split; [exact Hsync|]. split; [exact Hw | exact Hget].
Qed.

(** X15.  A replay pass assigns nothing to [document.cookie] and leaves
    the configuration, the installed methods and the areas out of scope as
    they were.  In an area in scope it changes the value of a key only by
    writing the non-empty value of a snapshot entry whose key passes the key
    matcher; without [overwriteExisting] a key that held a value keeps
    it. *)
Theorem syncCookiesToStorage_changes (w : World) :
  originalSetItem w = Native ->
  let cfg := CONFIG w in
  let syncData := getAllSyncCookies cfg (document w) in
  let w' := syncCookiesToStorage w in
  document w' = document w
  /\ CONFIG w' = cfg
  /\ same_methods w w'
  /\ (forall s, ~ In s (getStorageObjects cfg) -> storage_of w' s = storage_of w s)
  /\ (forall s k,
        native_getItem k (storage_of w' s) <> native_getItem k (storage_of w s) ->
        In s (getStorageObjects cfg)
        /\ exists v, In (k, v) (Object_entries syncData)
             /\ shouldSync cfg (JStr k) = true /\ v <> []
             /\ (overwriteExisting cfg = true
                 \/ native_getItem k (storage_of w s) = None)
             /\ native_getItem k (storage_of w' s) = Some v)
  /\ (overwriteExisting cfg = false ->
      forall s k v0, native_getItem k (storage_of w s) = Some v0 ->
                     native_getItem k (storage_of w' s) = Some v0).
Proof.
  intros Horig cfg syncData w'.
  destruct (@replay_native (Object_entries syncData) (getStorageObjects cfg)
              (snapshot_keys cfg (document w))
              (getStorageObjects_NoDup cfg) (mkPass w 0 [] []) Horig)
    as (S & D & O & _).
  pose proof (@replay_changes (Object_entries syncData) (getStorageObjects cfg)
                (snapshot_keys cfg (document w))
                (getStorageObjects_NoDup cfg) (mkPass w 0 [] []) Horig) as Hch.
  cbn [pass_world] in *. cbn zeta in Hch.
  subst w'. unfold syncCookiesToStorage. fold cfg. fold syncData.
  unfold replay in *. fold cfg in S, D, O, Hch |- *.
  set (p := fold_left (sync_storage (Object_entries syncData))
                      (getStorageObjects cfg) (mkPass w 0 [] [])) in *.
  destruct (dispatch_frame (report_of syncData p) (pass_world p))
    as (_ & FD & FS & FC & _).
  assert (Hchange : forall s k,
    native_getItem k (storage_of (dispatchSyncCompleteEvent
                                    (report_of syncData p) (pass_world p)) s)
    <> native_getItem k (storage_of w s) ->
    In s (getStorageObjects cfg)
    /\ exists v, In (k, v) (Object_entries syncData)
         /\ shouldSync cfg (JStr k) = true /\ v <> []
         /\ (overwriteExisting cfg = true
             \/ native_getItem k (storage_of w s) = None)
         /\ native_getItem k (storage_of (dispatchSyncCompleteEvent
                                  (report_of syncData p) (pass_world p)) s)
            = Some v).
  { intros s k Hne. rewrite FS in *.
    destruct (Hch s k) as [E | (Hs & v & Hin & Hsync & (Hcond & Hv) & Hget)];
      [contradiction|].
    split; [exact Hs|]. exists v. split; [exact Hin|].
    split; [exact Hsync|]. split; [exact Hv|]. split; [exact Hcond | exact Hget]. }
  split; [now rewrite FD|].
  split; [rewrite FC; apply (setup_CONFIG S)|].
  split.
  { eapply same_methods_trans; [apply setup_methods; exact S|].
    apply dispatch_methods. }
  split; [intros s Hs; rewrite FS; now apply O|].
  split; [exact Hchange|].
  intros Hsafe s k v0 Hbefore.
  rewrite FS.
  destruct (Hch s k) as [E | (_ & v & _ & _ & ([Hov|Hnone] & _) & _)];
    congruence.
Qed.

(** The example page with the module loaded: the wrappers are installed,
    [token] is held by [localStorage] and by a cookie; the replay keeps the
    local value and writes no cookie. *)
Lemma syncCookiesToStorage_changes_witness :
  let w := module_load example_page in
  let w' := syncCookiesToStorage w in
  Storage_setItem w = Wrapper Native
  /\ document w' = document w
  /\ storage_of w' SessionStorage = storage_of w SessionStorage
  /\ native_getItem (js "token") (storage_of w' LocalStorage) = Some (js "old").
Proof.
  intros w w'.
  assert (Horig : originalSetItem w = Native) by reflexivity.
  destruct (syncCookiesToStorage_changes w Horig)
    as (Hdoc & _ & _ & Hout & _ & Hsafe).
  fold w' in Hdoc, Hout, Hsafe.
  split; [vm_compute; reflexivity|]. split; [exact Hdoc|]. split.
  - apply Hout. vm_compute. intros [H|[]]. discriminate H.
  - apply Hsafe; vm_compute; reflexivity.
Defined.

(* --------------------------------------------------------------------- *)
(** ** The replay pass: what the report lists *)

Lemma sync_entry_report (s : StorageId) (k v : jstring) (p : Pass) :
  originalSetItem (pass_world p) = Native ->
  let w := pass_world p in
  let p1 := sync_entry s (k, v) p in
  exists calls newS newK,
    nativeSets (pass_world p1) = nativeSets w ++ calls
    /\ pass_syncedKeys p1 = pass_syncedKeys p ++ newS
    /\ pass_skippedKeys p1 = pass_skippedKeys p ++ newK
    /\ map synced_pair newS = map written_pair (filter ns_ok calls)
    /\ (forall r, In r newS ->
          r = mkSyncedKey k (getStorageName s)
                (negb (is_null (native_getItem k (storage_of w s)))))
    /\ (forall r, In r newK ->
          r = mkSkippedKey k (getStorageName s) (js "exists"))
    /\ (newK <> [] <-> replay_skips (CONFIG w) (storage_of w s) k).
Proof.
  intros Horig w p1. subst p1. unfold sync_entry, replay_skips. cbn [fst snd].
  fold w.
  destruct (shouldSync (CONFIG w) (JStr k)) eqn:Hsync; cbn [negb].
  2:{ exists [], [], []. rewrite !app_nil_r.
      repeat (split; [reflexivity || (intros r []) |]).
      split; [congruence | intros (H & _); discriminate H]. }
  destruct ((overwriteExisting (CONFIG w)
             || is_null (native_getItem k (storage_of w s)))
            && truthy (JStr v)) eqn:Hcond.
  - assert (Hno : ~ (true = true /\ overwriteExisting (CONFIG w) = false
                     /\ native_getItem k (storage_of w s) <> None)).
    { intros (_ & A & B). rewrite A in Hcond.
      destruct (native_getItem k (storage_of w s)); [discriminate | congruence]. }
    change (originalSetItem w = Native) in Horig.
    rewrite Horig. cbn [call_setItem to_string].
    destruct (native_setItem k v (storage_of w s)) as [st'|].
    + exists [mkNativeSet s k v true],
             [mkSyncedKey k (getStorageName s)
                (negb (is_null (native_getItem k (storage_of w s))))], [].
      rewrite !app_nil_r.
      split; [reflexivity|]. split; [reflexivity|]. split; [reflexivity|].
      split; [reflexivity|].
      split; [intros r [<-|[]]; reflexivity|].
      split; [intros r []|].
      split; [congruence | intros H; now apply Hno in H].
    + exists [mkNativeSet s k v false], [], []. rewrite !app_nil_r.
      split; [reflexivity|]. split; [reflexivity|]. split; [reflexivity|].
      split; [reflexivity|].
      split; [intros r []|]. split; [intros r []|].
      split; [congruence | intros H; now apply Hno in H].
  - destruct (negb (is_null (native_getItem k (storage_of w s)))
              && negb (overwriteExisting (CONFIG w))) eqn:Hskip.
    + exists [], [], [mkSkippedKey k (getStorageName s) (js "exists")].
      rewrite !app_nil_r.
      split; [reflexivity|]. split; [reflexivity|]. split; [reflexivity|].
      split; [reflexivity|].
      split; [intros r []|].
      split; [intros r [<-|[]]; reflexivity|].
      apply andb_true_iff in Hskip as [A B].
      apply negb_true_iff in A, B.
      split; [|discriminate]. intros _. split; [reflexivity|].
      split; [exact B|]. intros E. rewrite E in A. discriminate A.
    + exists [], [], []. rewrite !app_nil_r.
      split; [reflexivity|]. split; [reflexivity|]. split; [reflexivity|].
      split; [reflexivity|].
      split; [intros r []|]. split; [intros r []|].
      split; [congruence|]. intros (_ & A & B). rewrite A in Hskip.
      destruct (native_getItem k (storage_of w s)); [discriminate | congruence].
Qed.

Lemma getStorageName_inj (s s' : StorageId) :
  getStorageName s = getStorageName s' -> s = s'.
Proof. destruct s, s'; (reflexivity || discriminate). Qed.

Lemma replay_skips_same (cfg : Config) (st st' : Storage) (k : jstring) :
  native_getItem k st' = native_getItem k st ->
  replay_skips cfg st' k <-> replay_skips cfg st k.
Proof. unfold replay_skips. now intros ->. Qed.

Lemma sync_entries_report (s : StorageId) (es : list (jstring * jstring)) :
  NoDup (map fst es) ->
  forall p, originalSetItem (pass_world p) = Native ->
  let w := pass_world p in
  let p' := fold_left (fun p e => sync_entry s e p) es p in
  exists calls newS newK,
    nativeSets (pass_world p') = nativeSets w ++ calls
    /\ pass_syncedKeys p' = pass_syncedKeys p ++ newS
    /\ pass_skippedKeys p' = pass_skippedKeys p ++ newK
    /\ map synced_pair newS = map written_pair (filter ns_ok calls)
    /\ (forall r, In r newS ->
          synced_storageType r = getStorageName s
          /\ In (synced_key r) (map fst es)
          /\ synced_overwritten r
             = negb (is_null (native_getItem (synced_key r) (storage_of w s))))
    /\ (forall r, In r newK ->
          skipped_storageType r = getStorageName s
          /\ skipped_reason r = js "exists")
    /\ (forall k, (exists r, In r newK /\ skipped_key r = k)
                  <-> In k (map fst es)
                      /\ replay_skips (CONFIG w) (storage_of w s) k).
Proof.
  induction es as [|[k0 v0] es IH]; intros Hnd p Horig; cbn [fold_left].
  - cbn zeta. exists [], [], []. rewrite !app_nil_r.
    split; [reflexivity|]. split; [reflexivity|]. split; [reflexivity|].
    split; [reflexivity|]. split; [intros r []|]. split; [intros r []|].
    intros k. split; [intros (r & [] & _) | intros ([] & _)].
  - cbn [map fst] in Hnd. inversion Hnd as [|? ? Hk0 Hnd']; subst.
    destruct (sync_entry_report s k0 v0 p Horig)
      as (calls1 & newS1 & newK1 & N1 & A1 & B1 & M1 & RS1 & RK1 & Sk1).
    pose proof (sync_entry_changes s k0 v0 p Horig) as G1.
    pose proof (sync_entry_setup s (k0, v0) p) as S1.
    set (p1 := sync_entry s (k0, v0) p) in *.
    assert (Horig1 : originalSetItem (pass_world p1) = Native)
      by (rewrite (setup_originalSetItem S1); exact Horig).
    assert (Hcfg : CONFIG (pass_world p1) = CONFIG (pass_world p))
      by (apply setup_CONFIG; exact S1).
    destruct (IH Hnd' p1 Horig1)
      as (calls2 & newS2 & newK2 & N2 & A2 & B2 & M2 & RS2 & RK2 & Sk2).
    cbn zeta in *.
    assert (Hsame : forall k, In k (map fst es) ->
              native_getItem k (storage_of (pass_world p1) s)
              = native_getItem k (storage_of (pass_world p) s)).
    { intros k Hk. destruct (G1 k) as [E | (-> & _)]; [exact E | contradiction]. }
    exists (calls1 ++ calls2), (newS1 ++ newS2), (newK1 ++ newK2).
    split; [rewrite N2, N1, app_assoc; reflexivity|].
    split; [rewrite A2, A1, app_assoc; reflexivity|].
    split; [rewrite B2, B1, app_assoc; reflexivity|].
    split; [now rewrite filter_app, !map_app, M1, M2|].
    split.
    { intros r Hr. apply in_app_or in Hr as [Hr|Hr].
      - rewrite (RS1 r Hr). cbn [synced_storageType synced_key synced_overwritten
                                   map fst In].
        split; [reflexivity|]. split; [now left | reflexivity].
      - destruct (RS2 r Hr) as (T & K & O).
        split; [exact T|]. split; [now right|].
        rewrite O. now rewrite (Hsame _ K). }
    split.
    { intros r Hr. apply in_app_or in Hr as [Hr|Hr].
      - rewrite (RK1 r Hr). now split.
      - exact (RK2 r Hr). }
    intros k. split.
    + intros (r & Hr & <-). apply in_app_or in Hr as [Hr|Hr].
      * rewrite (RK1 r Hr). cbn [skipped_key map fst In].
        split; [now left|]. apply Sk1. intros E. rewrite E in Hr. destruct Hr.
      * destruct (proj1 (Sk2 (skipped_key r))) as [K Hs];
          [exists r; now split|].
        split; [now right|]. rewrite Hcfg in Hs.
        now apply (replay_skips_same (CONFIG (pass_world p))
                     (storage_of (pass_world p) s)
                     (storage_of (pass_world p1) s) (skipped_key r)
                     (Hsame _ K)).
    + intros ([<-|K] & Hs).
      * apply Sk1 in Hs. destruct newK1 as [|r newK1]; [contradiction|].
        exists r. split; [now left|].
        rewrite (RK1 r (or_introl eq_refl)). reflexivity.
      * destruct (proj2 (Sk2 k)) as (r & Hr & Hkey).
        { split; [exact K|]. rewrite Hcfg.
          now apply (replay_skips_same (CONFIG (pass_world p))
                       (storage_of (pass_world p) s)
                       (storage_of (pass_world p1) s) k (Hsame _ K)). }
        exists r. split; [apply in_or_app; now right | exact Hkey].
Qed.

Lemma replay_report (es : list (jstring * jstring)) (L : list StorageId) :
  NoDup (map fst es) -> NoDup L ->
  forall total, originalSetItem (pass_world total) = Native ->
  let w := pass_world total in
  let p' := fold_left (sync_storage es) L total in
  exists calls newS newK,
    nativeSets (pass_world p') = nativeSets w ++ calls
    /\ pass_syncedKeys p' = pass_syncedKeys total ++ newS
    /\ pass_skippedKeys p' = pass_skippedKeys total ++ newK
    /\ map synced_pair newS = map written_pair (filter ns_ok calls)
    /\ (forall r, In r newS ->
          exists s, In s L /\ synced_storageType r = getStorageName s
            /\ In (synced_key r) (map fst es)
            /\ synced_overwritten r
               = negb (is_null (native_getItem (synced_key r)
                                               (storage_of w s))))
    /\ (forall r, In r newK ->
          skipped_reason r = js "exists"
          /\ exists s, In s L /\ skipped_storageType r = getStorageName s)
    /\ (forall s k,
          (exists r, In r newK /\ skipped_key r = k
                     /\ skipped_storageType r = getStorageName s)
          <-> In s L /\ In k (map fst es)
              /\ replay_skips (CONFIG w) (storage_of w s) k).
Proof.
  intros Hes. induction L as [|s0 L IH]; intros HL total Horig;
    cbn [fold_left].
  - cbn zeta. exists [], [], []. rewrite !app_nil_r.
    split; [reflexivity|]. split; [reflexivity|]. split; [reflexivity|].
    split; [reflexivity|]. split; [intros r []|]. split; [intros r []|].
    intros s k. split; [intros (r & [] & _) | intros ([] & _)].
  - inversion HL as [|? ? Hs0 HL']; subst.
    set (p0 := mkPass (pass_world total) 0 (pass_syncedKeys total)
                      (pass_skippedKeys total)).
    destruct (sync_entries_report s0 es Hes p0 Horig)
      as (calls1 & newS1 & newK1 & N1 & A1 & B1 & M1 & RS1 & RK1 & Sk1).
    destruct (@sync_entries_native s0 es Hes p0 Horig)
      as (S1 & _ & O1 & _).
    set (p1 := sync_storage es total s0).
    assert (Hw1 : pass_world p1
                  = pass_world (fold_left (fun p e => sync_entry s0 e p) es p0))
      by reflexivity.
    assert (HA1 : pass_syncedKeys p1 = pass_syncedKeys total ++ newS1)
      by exact A1.
    assert (HB1 : pass_skippedKeys p1 = pass_skippedKeys total ++ newK1)
      by exact B1.
    cbn zeta in N1, RS1, Sk1, S1, O1.
    rewrite <- Hw1 in *. change (pass_world p0) with (pass_world total) in *.
    assert (Horig1 : originalSetItem (pass_world p1) = Native)
      by (rewrite (setup_originalSetItem S1); exact Horig).
    assert (Hcfg : CONFIG (pass_world p1) = CONFIG (pass_world total))
      by (apply setup_CONFIG; exact S1).
    assert (Hother : forall s, s <> s0 ->
              storage_of (pass_world p1) s = storage_of (pass_world total) s).
    { intros s Hne. rewrite (other_storage_spec Hne). exact O1. }
    destruct (IH HL' p1 Horig1)
      as (calls2 & newS2 & newK2 & N2 & A2 & B2 & M2 & RS2 & RK2 & Sk2).
    cbn zeta in *.
    exists (calls1 ++ calls2), (newS1 ++ newS2), (newK1 ++ newK2).
    split; [rewrite N2, N1, app_assoc; reflexivity|].
    split; [rewrite A2, HA1, app_assoc; reflexivity|].
    split; [rewrite B2, HB1, app_assoc; reflexivity|].
    split; [now rewrite filter_app, !map_app, M1, M2|].
    split.
    { intros r Hr. apply in_app_or in Hr as [Hr|Hr].
      - destruct (RS1 r Hr) as (T & K & O). exists s0.
        split; [now left|]. now repeat split.
      - destruct (RS2 r Hr) as (s & Hs & T & K & O). exists s.
        split; [now right|]. split; [exact T|]. split; [exact K|].
        rewrite O. rewrite Hother; [reflexivity|]. intros ->. contradiction. }
    split.
    { intros r Hr. apply in_app_or in Hr as [Hr|Hr].
      - destruct (RK1 r Hr) as [T R]. split; [exact R|]. exists s0.
        split; [now left | exact T].
      - destruct (RK2 r Hr) as (R & s & Hs & T). split; [exact R|].
        exists s. split; [now right | exact T]. }
    intros s k. split.
    + intros (r & Hr & <- & T). apply in_app_or in Hr as [Hr|Hr].
      * destruct (RK1 r Hr) as [T1 _]. rewrite T1 in T.
        apply getStorageName_inj in T as <-.
        split; [now left|]. apply Sk1. now exists r.
      * destruct (proj1 (Sk2 s (skipped_key r))) as (Hs & K & Hsk);
          [exists r; now repeat split|].
        split; [now right|]. split; [exact K|].
        rewrite Hcfg in Hsk. rewrite Hother in Hsk; [exact Hsk|].
        intros ->. contradiction.
    + intros ([<-|Hs] & K & Hsk).
      * destruct (proj2 (Sk1 k)) as (r & Hr & Hkey); [now split|].
        exists r. split; [apply in_or_app; now left|].
        split; [exact Hkey|]. now destruct (RK1 r Hr).
      * destruct (proj2 (Sk2 s k)) as (r & Hr & Hkey & T).
        { split; [exact Hs|]. split; [exact K|]. rewrite Hcfg.
          rewrite Hother; [exact Hsk|]. intros ->. contradiction. }
        exists r. split; [apply in_or_app; now right|]. now split.
Qed.

Lemma syncCookiesToStorage_report (w : World) :
  originalSetItem w = Native ->
  let cfg := CONFIG w in
  let syncData := getAllSyncCookies cfg (document w) in
  let w' := syncCookiesToStorage w in
  exists calls report,
    nativeSets w' = nativeSets w ++ calls
    /\ dispatched w' = dispatched w ++ [report]
    /\ map synced_pair (syncedKeys report)
       = map written_pair (filter ns_ok calls)
    /\ (forall r, In r (syncedKeys report) ->
          exists s, In s (getStorageObjects cfg)
            /\ synced_storageType r = getStorageName s
            /\ In (synced_key r) (Object_keys syncData)
            /\ synced_overwritten r
               = negb (is_null (native_getItem (synced_key r)
                                               (storage_of w s))))
    /\ (forall r, In r (skippedKeys report) ->
          skipped_reason r = js "exists"
          /\ exists s, In s (getStorageObjects cfg)
                       /\ skipped_storageType r = getStorageName s)
    /\ (forall s k,
          (exists r, In r (skippedKeys report) /\ skipped_key r = k
                     /\ skipped_storageType r = getStorageName s)
          <-> In s (getStorageObjects cfg) /\ In k (Object_keys syncData)
              /\ replay_skips cfg (storage_of w s) k).
Proof.
  intros Horig cfg syncData w'.
  destruct (replay_report (Object_entries syncData) (getStorageObjects cfg)
              (snapshot_keys cfg (document w))
              (getStorageObjects_NoDup cfg) (mkPass w 0 [] []) Horig)
    as (calls & newS & newK & N & A & B & M & RS & RK & Sk).
  cbn [pass_world pass_syncedKeys pass_skippedKeys app] in *.
  subst w'. unfold syncCookiesToStorage. fold cfg. fold syncData.
  unfold replay. fold cfg.
  set (p := fold_left (sync_storage (Object_entries syncData))
                      (getStorageObjects cfg) (mkPass w 0 [] [])) in *.
  destruct (dispatch_frame (report_of syncData p) (pass_world p))
    as (FN & _ & _ & _ & FD).
  exists calls, (report_of syncData p).
  split; [rewrite FN; exact N|].
  split.
  { rewrite FD. f_equal.
    apply (setup_dispatched (replay_setup syncData w)). }
  cbn [report_of syncedKeys skippedKeys]. rewrite A, B.
  split; [exact M|]. split; [exact RS|]. split; [exact RK | exact Sk].
Qed.

(** X16.  The [syncedKeys] of a report name, in order and by area and
    key, exactly the calls of the native [setItem] that returned during
    the pass; [overwritten] tells whether the area held a value for the key
    when the pass began. *)
Theorem syncedKeys_are_writes (w : World) :
  originalSetItem w = Native ->
  let cfg := CONFIG w in
  let w' := syncCookiesToStorage w in
  exists calls report,
    nativeSets w' = nativeSets w ++ calls
    /\ dispatched w' = dispatched w ++ [report]
    /\ map synced_pair (syncedKeys report)
       = map written_pair (filter ns_ok calls)
    /\ forall r, In r (syncedKeys report) ->
         exists s, In s (getStorageObjects cfg)
           /\ synced_storageType r = getStorageName s
           /\ (synced_overwritten r = true
               <-> native_getItem (synced_key r) (storage_of w s) <> None).
Proof.
  intros Horig cfg w'.
  destruct (syncCookiesToStorage_report w Horig)
    as (calls & report & N & D & M & RS & _).
  exists calls, report. split; [exact N|]. split; [exact D|].
  split; [exact M|].
  intros r Hr. destruct (RS r Hr) as (s & Hs & T & _ & O).
  exists s. split; [exact Hs|]. split; [exact T|]. rewrite O.
  destruct (native_getItem (synced_key r) (storage_of w s)); cbn;
    split; congruence.
Qed.

(** The example world, which overwrites and syncs both areas: [token] is
    written to both, over the old value in [localStorage] only. *)
Lemma syncedKeys_are_writes_witness :
  let w := example_world in
  exists report,
    dispatched (syncCookiesToStorage w) = dispatched w ++ [report]
    /\ syncedKeys report
       = [mkSyncedKey (js "token") (js "localStorage") true;
          mkSyncedKey (js "token") (js "sessionStorage") false].
Proof.
  intros w.
  destruct (syncedKeys_are_writes w eq_refl) as (calls & report & _ & D & _).
  exists report. split; [exact D|].
  assert (E : map syncedKeys (dispatched (syncCookiesToStorage w))
              = map syncedKeys (dispatched w)
                ++ [[mkSyncedKey (js "token") (js "localStorage") true;
                     mkSyncedKey (js "token") (js "sessionStorage") false]])
    by (vm_compute; reflexivity).
  rewrite D, map_app in E. apply app_inv_head in E. now injection E.
Defined.

(** X17.  Without [overwriteExisting], the [skippedKeys] of a report name
    exactly the pairs of an area in scope and a snapshot key that passes
    the key matcher and that the area held a value for when the pass began,
    whatever the cookie value; the reason is always ['exists'].  With
    [overwriteExisting] nothing is reported as skipped. *)
Theorem skippedKeys_are_existing (w : World) :
  originalSetItem w = Native ->
  let cfg := CONFIG w in
  let syncData := getAllSyncCookies cfg (document w) in
  let w' := syncCookiesToStorage w in
  exists report,
    dispatched w' = dispatched w ++ [report]
    /\ (forall r, In r (skippedKeys report) -> skipped_reason r = js "exists")
    /\ (forall s k,
          (exists r, In r (skippedKeys report) /\ skipped_key r = k
                     /\ skipped_storageType r = getStorageName s)
          <-> In s (getStorageObjects cfg) /\ In k (Object_keys syncData)
              /\ shouldSync cfg (JStr k) = true
              /\ overwriteExisting cfg = false
              /\ native_getItem k (storage_of w s) <> None)
    /\ (overwriteExisting cfg = true -> skippedKeys report = []).
Proof.
  intros Horig cfg syncData w'.
  destruct (syncCookiesToStorage_report w Horig)
    as (calls & report & _ & D & _ & _ & RK & Sk).
  exists report. split; [exact D|].
  split; [intros r Hr; now destruct (RK r Hr)|].
  split; [exact Sk|].
  intros Hov. destruct (skippedKeys report) as [|r rest] eqn:E; [reflexivity|].
  exfalso.
  destruct (RK r (or_introl eq_refl)) as (_ & s & _ & T).
  destruct (proj1 (Sk s (skipped_key r))) as (_ & _ & _ & Hno & _).
  { exists r. split; [now left|]. now split. }
  fold cfg in Hno. congruence.
Qed.

(** The example page with the module loaded, in safe mode: [token] is
    skipped in [localStorage]. *)
Lemma skippedKeys_are_existing_witness :
  let w := module_load example_page in
  exists report,
    dispatched (syncCookiesToStorage w) = dispatched w ++ [report]
    /\ exists r, In r (skippedKeys report) /\ skipped_key r = js "token"
                 /\ skipped_storageType r = js "localStorage"
                 /\ skipped_reason r = js "exists".
Proof.
  intros w.
  destruct (skippedKeys_are_existing w eq_refl) as (report & D & R & Sk & _).
  exists report. split; [exact D|].
  destruct (proj2 (Sk LocalStorage (js "token"))) as (r & Hr & K & T).
  { split; [vm_compute; left; reflexivity|].
    split; [vm_compute; left; reflexivity|].
    split; [vm_compute; reflexivity|].
    split; [vm_compute; reflexivity | vm_compute; discriminate]. }
  exists r. split; [exact Hr|]. split; [exact K|]. split; [exact T|].
  now apply R.
Defined.

(* --------------------------------------------------------------------- *)
(** ** The replay pass when storage has room *)

Lemma native_setItem_no_quota (k v : jstring) (st : Storage) :
  quota st = None ->
  exists st', native_setItem k v st = Some st' /\ quota st' = None.
Proof.
  intros Hq. unfold native_setItem. rewrite Hq.
  eexists. split; reflexivity.
Qed.

Lemma sync_entry_ok (s : StorageId) (k v : jstring) (p : Pass) :
  originalSetItem (pass_world p) = Native ->
  quota (storage_of (pass_world p) s) = None ->
  let w := pass_world p in
  let w1 := pass_world (sync_entry s (k, v) p) in
  quota (storage_of w1 s) = None
  /\ exists calls, nativeSets w1 = nativeSets w ++ calls
                   /\ Forall (fun c => ns_ok c = true) calls.
Proof.
  intros Horig Hq w w1. subst w1. unfold sync_entry. cbn [fst snd]. fold w.
  change (originalSetItem w = Native) in Horig.
  change (quota (storage_of w s) = None) in Hq.
  assert (Hnone : quota (storage_of w s) = None
                  /\ exists calls, nativeSets w = nativeSets w ++ calls
                       /\ Forall (fun c => ns_ok c = true) calls).
  { split; [exact Hq|]. exists []. now rewrite app_nil_r. }
  destruct (negb (shouldSync (CONFIG w) (JStr k))); [exact Hnone|].
  destruct ((overwriteExisting (CONFIG w)
             || is_null (native_getItem k (storage_of w s)))
            && truthy (JStr v)).
  - rewrite Horig. cbn [call_setItem to_string].
    destruct (native_setItem_no_quota k v (storage_of w s) Hq)
      as (st' & -> & Hq').
    cbn [pass_world]. split.
    + destruct s; exact Hq'.
    + exists [mkNativeSet s k v true]. split; [reflexivity|].
      now repeat constructor.
  - destruct (negb (is_null (native_getItem k (storage_of w s)))
              && negb (overwriteExisting (CONFIG w))); exact Hnone.
Qed.

Lemma sync_entries_ok (s : StorageId) (es : list (jstring * jstring)) :
  forall p, originalSetItem (pass_world p) = Native ->
  quota (storage_of (pass_world p) s) = None ->
  let w := pass_world p in
  let w' := pass_world (fold_left (fun p e => sync_entry s e p) es p) in
  quota (storage_of w' s) = None
  /\ exists calls, nativeSets w' = nativeSets w ++ calls
                   /\ Forall (fun c => ns_ok c = true) calls.
Proof.
  induction es as [|[k0 v0] es IH]; intros p Horig Hq; cbn [fold_left].
  - cbn zeta. split; [exact Hq|]. exists []. now rewrite app_nil_r.
  - destruct (sync_entry_ok s k0 v0 p Horig Hq) as (Hq1 & calls1 & N1 & F1).
    pose proof (sync_entry_setup s (k0, v0) p) as S1.
    set (p1 := sync_entry s (k0, v0) p) in *.
    assert (Horig1 : originalSetItem (pass_world p1) = Native)
      by (rewrite (setup_originalSetItem S1); exact Horig).
    destruct (IH p1 Horig1 Hq1) as (Hq2 & calls2 & N2 & F2).
    cbn zeta in *. split; [exact Hq2|].
    exists (calls1 ++ calls2).
    split; [rewrite N2, N1, app_assoc; reflexivity|].
    apply Forall_app. now split.
Qed.

Lemma replay_ok (es : list (jstring * jstring)) (L : list StorageId) :
  NoDup (map fst es) ->
  forall total, originalSetItem (pass_world total) = Native ->
  (forall s, In s L -> quota (storage_of (pass_world total) s) = None) ->
  let w := pass_world total in
  let w' := pass_world (fold_left (sync_storage es) L total) in
  exists calls, nativeSets w' = nativeSets w ++ calls
                /\ Forall (fun c => ns_ok c = true) calls.
Proof.
  intros Hes. induction L as [|s0 L IH]; intros total Horig Hq;
    cbn [fold_left].
  - exists []. now rewrite app_nil_r.
  - set (p0 := mkPass (pass_world total) 0 (pass_syncedKeys total)
                      (pass_skippedKeys total)).
    destruct (sync_entries_ok s0 es p0 Horig (Hq s0 (or_introl eq_refl)))
      as (Hq1 & calls1 & N1 & F1).
    destruct (@sync_entries_native s0 es Hes p0 Horig)
      as (S1 & _ & O1 & _).
    set (p1 := sync_storage es total s0).
    assert (Hw1 : pass_world p1
                  = pass_world (fold_left (fun p e => sync_entry s0 e p) es p0))
      by reflexivity.
    cbn zeta in *.
    rewrite <- Hw1 in *. change (pass_world p0) with (pass_world total) in *.
    assert (Horig1 : originalSetItem (pass_world p1) = Native)
      by (rewrite (setup_originalSetItem S1); exact Horig).
    destruct (IH p1 Horig1) as (calls2 & N2 & F2).
    { intros s Hs. destruct s, s0; try exact Hq1;
        (rewrite <- (Hq _ (or_intror Hs)); apply f_equal; exact O1). }
    exists (calls1 ++ calls2).
    split; [rewrite N2, N1, app_assoc; reflexivity|].
    apply Forall_app. now split.
Qed.

(** The replay when the areas in scope have no quota to exceed. *)
Lemma syncCookiesToStorage_room (w : World) :
  originalSetItem w = Native ->
  let cfg := CONFIG w in
  let syncData := getAllSyncCookies cfg (document w) in
  let w' := syncCookiesToStorage w in
  (forall s, In s (getStorageObjects cfg) -> quota (storage_of w s) = None) ->
  forall s k v,
    In s (getStorageObjects cfg) -> In (k, v) (Object_entries syncData) ->
    shouldSync cfg (JStr k) = true -> v <> [] ->
    overwriteExisting cfg = true \/ native_getItem k (storage_of w s) = None ->
    native_getItem k (storage_of w' s) = Some v.
Proof.
  intros Horig cfg syncData w' Hq s k v Hs Hin Hsync Hv Hcond.
  destruct (@replay_native (Object_entries syncData) (getStorageObjects cfg)
              (snapshot_keys cfg (document w))
              (getStorageObjects_NoDup cfg) (mkPass w 0 [] []) Horig)
    as (_ & _ & _ & calls & N & _ & W).
  destruct (replay_ok (Object_entries syncData) (getStorageObjects cfg)
              (snapshot_keys cfg (document w)) (mkPass w 0 [] []) Horig Hq)
    as (calls' & N' & Hok).
  cbn [pass_world] in *. cbn zeta in N'.
  fold cfg in N, N', W.
  rewrite N in N'. apply app_inv_head in N'. subst calls'.
  subst w'. unfold syncCookiesToStorage. fold cfg. fold syncData.
  unfold replay. fold cfg.
  set (p := fold_left (sync_storage (Object_entries syncData))
                      (getStorageObjects cfg) (mkPass w 0 [] [])) in *.
  destruct (dispatch_frame (report_of syncData p) (pass_world p))
    as (_ & _ & FS & _).
  rewrite FS.
  destruct (W s k v Hs Hin Hsync) as [Wiff Wget].
  destruct (proj2 Wiff) as [ok Hc]; [now split|].
  rewrite Forall_forall in Hok. pose proof (Hok _ Hc) as E.
  cbn [ns_ok] in E. subst ok. now apply Wget.
Qed.

(** X18.  When the areas in scope have no quota to exceed, the replay
    delivers: every snapshot entry with a non-empty value whose key passes
    the key matcher is in each area in scope afterwards, provided the area
    held no value for the key or [overwriteExisting] is on. *)
Theorem syncCookiesToStorage_delivers (w : World) :
  originalSetItem w = Native ->
  let cfg := CONFIG w in
  let syncData := getAllSyncCookies cfg (document w) in
  let w' := syncCookiesToStorage w in
  (forall s, In s (getStorageObjects cfg) -> quota (storage_of w s) = None) ->
  forall s k v,
    In s (getStorageObjects cfg) -> In (k, v) (Object_entries syncData) ->
    shouldSync cfg (JStr k) = true -> v <> [] ->
    overwriteExisting cfg = true \/ native_getItem k (storage_of w s) = None ->
    native_getItem k (storage_of w' s) = Some v.
Proof. exact (syncCookiesToStorage_room w). Qed.

(** The example world, which overwrites: [token] replaces the old value
    in [localStorage]. *)
Lemma syncCookiesToStorage_delivers_witness :
  native_getItem (js "token")
                 (storage_of (syncCookiesToStorage example_world) LocalStorage)
  = Some (js "abc").
Proof.
  apply (syncCookiesToStorage_delivers example_world eq_refl).
  - intros s _. destruct s; reflexivity.
  - vm_compute. left. reflexivity.
  - vm_compute. left. reflexivity.
  - reflexivity.
  - discriminate.
  - left. reflexivity.
Defined.

(** X19.  A second replay pass right after a first changes no value: when
    the areas in scope have no quota to exceed, every key of every area
    reads after two passes as it read after one, with or without
    [overwriteExisting]. *)
Theorem syncCookiesToStorage_idempotent (w : World) :
  originalSetItem w = Native ->
  (forall s, In s (getStorageObjects (CONFIG w)) ->
             quota (storage_of w s) = None) ->
  let w1 := syncCookiesToStorage w in
  let w2 := syncCookiesToStorage w1 in
  forall s k,
    native_getItem k (storage_of w2 s) = native_getItem k (storage_of w1 s).
Proof.
  intros Horig Hq w1 w2 s k.
  set (cfg := CONFIG w). set (syncData := getAllSyncCookies cfg (document w)).
  (* the first pass *)
  destruct (@replay_native (Object_entries syncData) (getStorageObjects cfg)
              (snapshot_keys cfg (document w))
              (getStorageObjects_NoDup cfg) (mkPass w 0 [] []) Horig)
    as (S1 & D1 & _).
  pose proof (@replay_changes (Object_entries syncData) (getStorageObjects cfg)
                (snapshot_keys cfg (document w))
                (getStorageObjects_NoDup cfg) (mkPass w 0 [] []) Horig) as Hch1.
  pose proof (syncCookiesToStorage_room w Horig Hq) as Hroom.
  cbn [pass_world] in *. cbn zeta in Hch1, Hroom. fold cfg syncData in Hroom.
  assert (E1 : w1 = dispatchSyncCompleteEvent
                      (report_of syncData (replay syncData w))
                      (pass_world (replay syncData w))) by reflexivity.
  unfold replay in E1. fold cfg in E1.
  set (p := fold_left (sync_storage (Object_entries syncData))
                      (getStorageObjects cfg) (mkPass w 0 [] [])) in *.
  destruct (dispatch_frame (report_of syncData p) (pass_world p))
    as (_ & FD & FS & FC & _).
  destruct (dispatch_methods (report_of syncData p) (pass_world p))
    as (_ & _ & _ & FO & _).
  rewrite <- E1 in FD, FS, FC, FO.
  assert (Hcfg1 : CONFIG w1 = cfg) by (rewrite FC; apply (setup_CONFIG S1)).
  assert (Hdoc1 : document w1 = document w) by congruence.
  assert (Horig1 : originalSetItem w1 = Native).
  { rewrite FO, (setup_originalSetItem S1). exact Horig. }
  fold w1 in Hroom.
  (* the second pass *)
  pose proof (@replay_changes (Object_entries syncData) (getStorageObjects cfg)
                (snapshot_keys cfg (document w))
                (getStorageObjects_NoDup cfg) (mkPass w1 0 [] []) Horig1) as Hch2.
  cbn [pass_world] in Hch2. cbn zeta in Hch2. rewrite Hcfg1 in Hch2.
  assert (E2 : w2 = dispatchSyncCompleteEvent
                      (report_of (getAllSyncCookies (CONFIG w1) (document w1))
                         (replay (getAllSyncCookies (CONFIG w1) (document w1)) w1))
                      (pass_world
                         (replay (getAllSyncCookies (CONFIG w1) (document w1)) w1)))
    by reflexivity.
  rewrite Hcfg1, Hdoc1 in E2. fold syncData in E2.
  unfold replay in E2. rewrite Hcfg1 in E2.
  set (p2 := fold_left (sync_storage (Object_entries syncData))
                       (getStorageObjects cfg) (mkPass w1 0 [] [])) in *.
  destruct (dispatch_frame (report_of syncData p2) (pass_world p2))
    as (_ & _ & FS2 & _).
  rewrite <- E2 in FS2. rewrite FS2.
  destruct (Hch2 s k) as [E | (Hs & v & Hin & Hsync & (Hcond & Hv) & Hget)];
    [exact E|].
  rewrite Hget. symmetry.
  destruct (Hch1 s k) as [E | (_ & v' & Hin' & _ & _ & Hget')].
  - (* the first pass left the key alone *)
    rewrite FS in Hcond. rewrite E in Hcond.
    apply (Hroom s k v Hs Hin Hsync Hv Hcond).
  - (* the first pass wrote the key *)
    assert (Hvv : v' = v).
    { pose proof (snapshot_keys cfg (document w)) as Hnd. fold syncData in Hnd.
      clear - Hin Hin' Hnd.
      induction (Object_entries syncData) as [|[k0 v0] es IH];
        [destruct Hin|].
      cbn [map fst] in Hnd. inversion Hnd as [|? ? Hk0 Hnd']; subst.
      assert (Hhead : forall x, In (k, x) es -> k0 <> k).
      { intros x Hx ->. apply Hk0. apply in_map_iff. now exists (k, x). }
      destruct Hin as [E|Hin], Hin' as [E'|Hin'].
      - congruence.
      - injection E as -> ->. now destruct (Hhead _ Hin').
      - injection E' as -> ->. now destruct (Hhead _ Hin).
      - now apply IH. }
    subst v'. rewrite FS. exact Hget'.
Qed.

Lemma syncCookiesToStorage_idempotent_witness :
  let w1 := syncCookiesToStorage example_world in
  let w2 := syncCookiesToStorage w1 in
  native_getItem (js "token") (storage_of w2 SessionStorage)
  = native_getItem (js "token") (storage_of w1 SessionStorage).
Proof.
  intros w1 w2.
  apply (syncCookiesToStorage_idempotent example_world eq_refl).
  intros s _. destruct s; reflexivity.
Defined.

(* --------------------------------------------------------------------- *)
(** ** Same-tab interception: what a call through the wrappers does *)

Lemma call_setItem_result (fn : Method) (s : StorageId) (key value : jsval)
      (w : World) :
  snd (call_setItem fn s key value w)
  = match native_setItem (to_string key) (to_string value) (storage_of w s) with
    | Some _ => true
    | None => false
    end.
Proof.
  induction fn as [|original IH]; cbn [call_setItem].
  - now destruct (native_setItem _ _ _).
  - destruct (call_setItem original s key value w) as [w1 returned].
    cbn [snd] in IH. rewrite <- IH.
    destruct returned; [destruct (_ && _)|]; reflexivity.
Qed.

Lemma call_setItem_failed (fn : Method) (s : StorageId) (key value : jsval)
      (w : World) :
  snd (call_setItem fn s key value w) = false ->
  document (fst (call_setItem fn s key value w)) = document w
  /\ forall s', storage_of (fst (call_setItem fn s key value w)) s'
                = storage_of w s'.
Proof.
  induction fn as [|original IH]; cbn [call_setItem].
  - destruct (native_setItem _ _ _); [discriminate|].
    intros _. split; [reflexivity|]. intros s'. now destruct s'.
  - destruct (call_setItem original s key value w) as [w1 returned].
    cbn [fst snd] in *.
    destruct returned; [destruct (_ && _); discriminate|].
    intros _. now apply IH.
Qed.

Lemma wrapped_setItem_storage (s : StorageId) (key value : jsval) (w : World) :
  Storage_setItem w = Wrapper Native ->
  snd (setItem s key value w) = true ->
  let w' := fst (setItem s key value w) in
  native_setItem (to_string key) (to_string value) (storage_of w s)
  = Some (storage_of w' s)
  /\ storage_of w' (other_storage s) = storage_of w (other_storage s)
  /\ same_setup w w'.
Proof.
  intros Hslot. unfold setItem. rewrite Hslot. cbn [call_setItem].
  destruct (native_setItem (to_string key) (to_string value) (storage_of w s))
    as [st|]; cbn [fst snd]; [|discriminate].
  intros _.
  set (w1 := log_nativeSet _ (set_storage s st w)).
  assert (H1 : storage_of w1 s = st /\ storage_of w1 (other_storage s)
                                       = storage_of w (other_storage s)
               /\ same_setup w w1).
  { subst w1. split; [now destruct s|]. split; [now destruct s|].
    eapply same_setup_trans; [apply set_storage_setup|].
    apply log_nativeSet_setup. }
  destruct H1 as (A & B & C).
  destruct (shouldSyncStorage (CONFIG w1) s && shouldSync (CONFIG w1) key);
    cbn [fst].
  - unfold mirror_write. split; [now destruct s; cbn; f_equal|].
    split; [now destruct s|].
    eapply same_setup_trans; [exact C | apply set_document_setup].
  - split; [now f_equal|]. now split.
Qed.



(** X21.  The cases in which a [setItem] through the wrapper assigns
    nothing to [document.cookie]: the native call throws, and then the area
    is unchanged too; the area is out of scope; the key fails the key
    matcher; the key fails sanitisation, as every key that is not a string
    does; the value fails sanitisation, being longer than 3500, or holds an
    unpaired surrogate.  In all but the first the area takes the item all
    the same. *)
Theorem setItem_without_cookie (w : World) (s : StorageId)
        (key value : jsval) :
  let cfg := CONFIG w in
  let w' := fst (setItem s key value w) in
  Storage_setItem w = Wrapper Native ->
  (snd (setItem s key value w) = false ->
   document w' = document w /\ storage_of w' s = storage_of w s)
  /\ (snd (setItem s key value w) = true ->
      native_getItem (to_string key) (storage_of w' s)
      = Some (to_string value))
  /\ (shouldSyncStorage cfg s = false \/ shouldSync cfg key = false
      \/ sanitizeKey key = None \/ sanitizeValue value = None
      \/ (exists sv, sanitizeValue value = Some sv /\ well_formed sv = false) ->
      document w' = document w).
Proof.
  intros cfg w' Hslot. subst cfg. split; [|split].
  - intros Hret. unfold w', setItem in *.
    destruct (call_setItem_failed _ _ _ _ _ Hret) as [D S]. now split.
  - intros Hret.
    destruct (wrapped_setItem_storage s key value w Hslot Hret) as (Hst & _).
    now destruct (@native_setItem_get _ _ _ _ Hst).
  - intros Hcase.
    destruct (snd (setItem s key value w)) eqn:Hret.
    2:{ unfold w', setItem in *.
        now destruct (call_setItem_failed _ _ _ _ _ Hret). }
    destruct (shouldSyncStorage (CONFIG w) s) eqn:Hs.
    2:{ unfold w', setItem in *. rewrite Hslot in *. cbn [call_setItem] in *.
        destruct (native_setItem _ _ _) as [st|]; [|discriminate Hret].
        cbn [log_nativeSet set_storage CONFIG]. rewrite Hs.
        reflexivity. }
    destruct (shouldSync (CONFIG w) key) eqn:Hk.
    2:{ unfold w', setItem in *. rewrite Hslot in *. cbn [call_setItem] in *.
        destruct (native_setItem _ _ _) as [st|]; [|discriminate Hret].
        cbn [log_nativeSet set_storage CONFIG]. rewrite Hs, Hk.
        reflexivity. }
    unfold w'. rewrite (@wrapped_setItem_once s key value w Hslot Hs Hk Hret).
    apply (@writeToCookie_assigns (CONFIG w) (hostname w) key value (document w)).
    unfold writeToCookie.
    destruct Hcase as [H|[H|[H|[H|(sv & H & Hwf)]]]]; try discriminate.
    + now rewrite H.
    + rewrite H. now destruct (sanitizeKey key) as [[|? ?]|].
    + rewrite H, (encode_ill_formed sv Hwf).
      now destruct (sanitizeKey key) as [[|? ?]|].
Qed.

(** A number as key, and a value of 4000 characters. *)
Lemma setItem_without_cookie_witness :
  let w := module_load example_page in
  let w1 := fst (setItem LocalStorage (JNum (NumInt 7)) (JStr (js "v")) w) in
  let w2 := fst (setItem LocalStorage (JStr (js "big"))
                         (JStr (repeat 120%N 4000)) w) in
  native_getItem (js "7") (storage_of w1 LocalStorage) = Some (js "v")
  /\ document w1 = document w
  /\ document w2 = document w.
Proof.
  intros w w1 w2.
  destruct (setItem_without_cookie w LocalStorage (JNum (NumInt 7))
              (JStr (js "v")) eq_refl) as (_ & Hst & Hdoc).
  destruct (setItem_without_cookie w LocalStorage (JStr (js "big"))
              (JStr (repeat 120%N 4000)) eq_refl) as (_ & _ & Hdoc2).
  split; [apply Hst; vm_compute; reflexivity|].
  split; [apply Hdoc; right; right; left; reflexivity|].
  apply Hdoc2. right. right. right. left.
  apply sanitizeValue_None. cbn [length]. rewrite repeat_length.
  unfold maxSize. lia.
Defined.

(** X22.  A [removeItem] through the wrapper on an area in scope, with a
    string key that passes the key matcher, removes the item from the area
    and the cookie of the key from the store: the key reads as [null] in
    both, and every other key of the area reads as before. *)
Theorem removeItem_mirrors (w : World) (s : StorageId) (k sk : jstring) :
  let cfg := CONFIG w in
  Storage_removeItem w = Wrapper Native ->
  shouldSyncStorage cfg s = true -> shouldSync cfg (JStr k) = true ->
  writable cfg (hostname w) -> jar_ok (jar (document w)) = true ->
  sanitizeKey (JStr k) = Some sk ->
  within (size_limit (document w)) (octets (cookiePrefix cfg ++ sk)) = true ->
  let w' := removeItem s (JStr k) w in
  native_getItem k (storage_of w' s) = None
  /\ (forall k', k' <> k -> native_getItem k' (storage_of w' s)
                            = native_getItem k' (storage_of w s))
  /\ readFromCookie cfg (JStr k) (document w') = None.
Proof.
  intros cfg Hslot Hs Hk Hw Hj Esk Hfit w'. subst cfg w'.
  unfold removeItem. rewrite Hslot. cbn [call_removeItem to_string].
  set (w1 := set_storage s (native_removeItem k (storage_of w s)) w).
  assert (Hc : CONFIG w1 = CONFIG w) by reflexivity.
  assert (Hd : document w1 = document w) by reflexivity.
  assert (Hh : hostname w1 = hostname w) by reflexivity.
  assert (Hst : storage_of w1 s = native_removeItem k (storage_of w s))
    by (subst w1; now destruct s).
  rewrite Hc, Hs, Hk. cbn [andb]. unfold mirror_delete.
  rewrite Hc, Hd, Hh.
  assert (Hst' : storage_of (set_document
                   (snd (deleteFromCookie (CONFIG w) (hostname w) (JStr k)
                                          (document w))) w1) s
                 = native_removeItem k (storage_of w s))
    by (rewrite <- Hst; now destruct s).
  rewrite Hst'. unfold native_getItem, native_removeItem. cbn [items document
    set_document].
  split; [apply assoc_get_remove_eq|].
  split; [intros k' Hne; apply assoc_get_remove_ne; congruence|].
  destruct (deleteFromCookie_then_read (CONFIG w) (hostname w) (JStr k)
              (document w) sk Hw Hj Esk Hfit) as (_ & _ & _ & _ & Hread).
  rewrite (Hread (JStr k) sk Esk). now rewrite jstring_eqb_refl.
Qed.

(** [localStorage.setItem('k', 'v')], then [localStorage.removeItem('k')]
    on the example page. *)
Lemma removeItem_mirrors_witness :
  let w := fst (setItem LocalStorage (JStr (js "k")) (JStr (js "v"))
                        (module_load example_page)) in
  let w' := removeItem LocalStorage (JStr (js "k")) w in
  readFromCookie (CONFIG w) (JStr (js "k")) (document w) = Some (js "v")
  /\ native_getItem (js "k") (storage_of w' LocalStorage) = None
  /\ readFromCookie (CONFIG w) (JStr (js "k")) (document w') = None.
Proof.
  intros w w'.
  assert (Hw : writable (CONFIG w) (hostname w)) by (repeat split).
  destruct (removeItem_mirrors w LocalStorage (js "k") (js "k"))
    as (Hget & _ & Hread); try (vm_compute; reflexivity); try exact Hw.
  split; [vm_compute; reflexivity|]. split; [exact Hget | exact Hread].
Defined.

(* --------------------------------------------------------------------- *)
(** ** Initialisation: the write probe *)

Lemma assoc_remove_put_absent {V} (k : jstring) (v : V) (l : list (jstring * V)) :
  ~ In k (map fst l) -> assoc_remove k (assoc_put k v l) = l.
Proof.
  unfold assoc_remove. induction l as [|e l IH]; cbn [assoc_put filter fst map In].
  - intros _. now rewrite jstring_eqb_refl.
  - intros H. destruct (jstring_eqb (fst e) k) eqn:E.
    + apply jstring_eqb_eq in E. tauto.
    + cbn [filter]. rewrite E. cbn [negb]. f_equal. apply IH. tauto.
Qed.

(** The probe on a storage area: the item is set and removed again. *)
Lemma probe_storage (st st' : Storage) :
  native_setItem testKey (js "test") st = Some st' ->
  let st2 := native_removeItem testKey st' in
  quota st2 = quota st
  /\ (forall k, native_getItem k st2
                = if jstring_eqb k testKey then None else native_getItem k st)
  /\ (~ In testKey (storage_keys st) -> items st2 = items st).
Proof.
  intros E.
  assert (Hst : st' = mkStorage (assoc_put testKey (js "test") (items st))
                                (quota st)).
  { unfold native_setItem in E. destruct (quota st);
      [destruct (Nat.ltb _ _); [discriminate|]|]; now injection E. }
  subst st'. cbn zeta. unfold native_removeItem. cbn [items quota].
  split; [reflexivity|]. split.
  - intros k. unfold native_getItem. cbn [items].
    destruct (jstring_eqb k testKey) eqn:Ek.
    + apply jstring_eqb_eq in Ek as ->. apply assoc_get_remove_eq.
    + apply jstring_eqb_neq in Ek.
      rewrite assoc_get_remove_ne by congruence.
      apply assoc_get_put_ne. congruence.
  - intros Habs. now apply assoc_remove_put_absent.
Qed.

(** X23.  With the native methods in place, as at module load, the probe
    of [isEnvironmentSupported] succeeds exactly when [localStorage] takes
    the probe item; it touches neither the cookies nor [sessionStorage];
    after a success every other key of [localStorage] reads as before and
    the probe key reads as [null], so a value the page had stored under
    that key is lost; after a failure [localStorage] is as it was. *)
Theorem isEnvironmentSupported_probe (w : World) :
  Storage_setItem w = Native -> Storage_removeItem w = Native ->
  let w1 := fst (isEnvironmentSupported w) in
  let supported := snd (isEnvironmentSupported w) in
  (supported = true
   <-> native_setItem testKey (js "test") (localStorage w) <> None)
  /\ document w1 = document w
  /\ sessionStorage w1 = sessionStorage w
  /\ quota (localStorage w1) = quota (localStorage w)
  /\ (supported = true ->
      (forall k, native_getItem k (localStorage w1)
                 = if jstring_eqb k testKey then None
                   else native_getItem k (localStorage w))
      /\ (~ In testKey (storage_keys (localStorage w)) ->
          items (localStorage w1) = items (localStorage w)))
  /\ (supported = false -> localStorage w1 = localStorage w).
Proof.
  intros Hset Hrem w1 supported. subst w1 supported.
  unfold isEnvironmentSupported. rewrite Hset.
  cbn [call_setItem to_string storage_of].
  change (js "__storage_sync_test__") with testKey.
  destruct (native_setItem testKey (js "test") (localStorage w)) as [st|] eqn:E.
  - cbn [log_nativeSet set_storage Storage_removeItem]. rewrite Hrem.
    cbn [call_removeItem to_string storage_of set_storage localStorage
         sessionStorage document fst snd].
    split; [split; [discriminate | reflexivity]|].
    split; [reflexivity|]. split; [reflexivity|].
    destruct (probe_storage (localStorage w) st E) as (Hq & Hget & Habs).
    unfold log_nativeSet, set_storage. cbn [localStorage].
    split; [exact Hq|]. split; [|discriminate]. intros _.
    split; [exact Hget | exact Habs].
  - cbn [fst snd log_nativeSet document sessionStorage localStorage].
    split; [split; [discriminate | congruence]|].
    split; [reflexivity|]. split; [reflexivity|]. split; [reflexivity|].
    split; [discriminate | reflexivity].
Qed.

(** A page that stored a value under the probe key, and one whose quota
    is used up. *)
Lemma isEnvironmentSupported_probe_witness :
  let world ls := mkWorld (js "app.example.com") (mkDocument [] [] None)
                          ls (mkStorage [] None) Native Native Native [] []
                          default_config Native Native Native 0 false false
                          None false in
  let w := world (mkStorage [(testKey, js "mine"); (js "a", js "1")] None) in
  let full := world (mkStorage [(js "a", js "1")] (Some 2%nat)) in
  snd (isEnvironmentSupported w) = true
  /\ native_getItem testKey (localStorage (fst (isEnvironmentSupported w)))
     = None
  /\ native_getItem (js "a") (localStorage (fst (isEnvironmentSupported w)))
     = Some (js "1")
  /\ snd (isEnvironmentSupported full) = false.
Proof.
  intros world w full.
  destruct (isEnvironmentSupported_probe w eq_refl eq_refl)
    as (Hiff & _ & _ & _ & Hyes & _).
  destruct (isEnvironmentSupported_probe full eq_refl eq_refl)
    as (Hiff' & _).
  assert (Hs : snd (isEnvironmentSupported w) = true)
    by (apply Hiff; discriminate).
  split; [exact Hs|].
  destruct (Hyes Hs) as [Hget _].
  split; [now rewrite Hget|]. split; [now rewrite Hget|].
  destruct (snd (isEnvironmentSupported full)) eqn:E; [|reflexivity].
  exfalso. now apply (proj1 Hiff').
Defined.

(* --------------------------------------------------------------------- *)
(** ** Initialisation: what a call of [init] amounts to *)

Lemma of_raw_to_raw (r : RawConfig) (c : Config) :
  of_raw r = Some c -> to_raw c = r.
Proof.
  unfold of_raw. destruct r as [cp ca ck co ct cd].
  cbn [raw_cookiePrefix raw_cookieMaxAge raw_syncKeys raw_overwriteExisting
       raw_storageType raw_debug].
  destruct cp; try discriminate. destruct ca; try discriminate.
  destruct ck; try discriminate. destruct co; try discriminate.
  destruct ct; try discriminate. destruct cd; try discriminate.
  intros [= <-]. reflexivity.
Qed.

Lemma validated_raw (cfg : Config) :
  to_raw (fst (validated cfg)) = fst (validateConfig (to_raw cfg))
  /\ snd (validated cfg) = snd (validateConfig (to_raw cfg)).
Proof.
  unfold validated.
  destruct (validateConfig_typed (to_raw cfg)) as [c Hc].
  destruct (validateConfig (to_raw cfg)) as [raw isValid].
  cbn [fst snd] in *. rewrite Hc. split; [now apply of_raw_to_raw | reflexivity].
Qed.

Lemma dispatch_listeners (detail : SyncReport) (w : World) :
  storageListeners (dispatchSyncCompleteEvent detail w) = storageListeners w
  /\ hostname (dispatchSyncCompleteEvent detail w) = hostname w.
Proof.
  unfold dispatchSyncCompleteEvent, syncComplete_listener.
  destruct (syncCompleteListener (log_dispatched detail w));
    [destruct (syncCompleteResolve (log_dispatched detail w))|];
    split; reflexivity.
Qed.

Lemma syncCookiesToStorage_listeners (w : World) :
  storageListeners (syncCookiesToStorage w) = storageListeners w
  /\ hostname (syncCookiesToStorage w) = hostname w
  /\ CONFIG (syncCookiesToStorage w) = CONFIG w
  /\ exists report,
       dispatched (syncCookiesToStorage w) = dispatched w ++ [report].
Proof.
  unfold syncCookiesToStorage.
  set (syncData := getAllSyncCookies (CONFIG w) (document w)).
  pose proof (replay_setup syncData w) as S.
  set (p := replay syncData w) in *.
  destruct (dispatch_listeners (report_of syncData p) (pass_world p)) as [L H].
  destruct (dispatch_frame (report_of syncData p) (pass_world p))
    as (_ & _ & _ & C & D).
  rewrite L, H, C, D. unfold same_setup in S.
  destruct S as (S1 & S2 & _ & _ & _ & _ & _ & _ & S9 & _ & _ & _ & _ & S14).
  repeat split; try assumption.
  exists (report_of syncData p). now rewrite S14.
Qed.

Lemma isEnvironmentSupported_failed (w : World) :
  snd (isEnvironmentSupported w) = false ->
  document (fst (isEnvironmentSupported w)) = document w
  /\ forall s, storage_of (fst (isEnvironmentSupported w)) s = storage_of w s.
Proof.
  unfold isEnvironmentSupported.
  pose proof (call_setItem_failed (Storage_setItem w) LocalStorage
                (JStr (js "__storage_sync_test__")) (JStr (js "test")) w) as H.
  destruct (call_setItem _ _ _ _ _) as [w1 returned]. cbn [fst snd] in H.
  destruct returned; cbn [fst snd]; [discriminate | exact H].
Qed.

(** X24.  [init] returns what the write probe returns.  When the probe
    fails nothing is set up: the configuration is not validated, the
    methods and listeners stay as they were and no report is dispatched.
    When it succeeds the configuration is the validated one, so it has
    nothing left to repair, the three methods are wrappers of the originals
    captured at module load, one more [storage] listener is registered and
    exactly one report has been dispatched. *)
Theorem init_outcome (w : World) :
  let w' := fst (init w) in
  snd (init w) = snd (isEnvironmentSupported w)
  /\ hostname w' = hostname w
  /\ (snd (init w) = false ->
      CONFIG w' = CONFIG w /\ same_methods w w'
      /\ storageListeners w' = storageListeners w
      /\ dispatched w' = dispatched w
      /\ document w' = document w
      /\ forall s, storage_of w' s = storage_of w s)
  /\ (snd (init w) = true ->
      to_raw (CONFIG w') = fst (validateConfig (to_raw (CONFIG w)))
      /\ valid_fields (to_raw (CONFIG w'))
      /\ Storage_setItem w' = Wrapper (originalSetItem w)
      /\ Storage_removeItem w' = Wrapper (originalRemoveItem w)
      /\ Storage_clear w' = Wrapper (originalClear w)
      /\ storageListeners w' = S (storageListeners w)
      /\ exists report, dispatched w' = dispatched w ++ [report]).
Proof.
  intros w'. subst w'.
  pose proof (init_methods w) as M.
  unfold init in *.
  pose proof (isEnvironmentSupported_setup w) as H1.
  pose proof (isEnvironmentSupported_failed w) as F1.
  destruct (isEnvironmentSupported w) as [w1 supported]. cbn [fst snd] in *.
  pose proof H1 as H1'. unfold same_setup in H1'.
  destruct H1' as (Hh & Hc & _ & _ & _ & _ & _ & _ & Hl & _ & _ & _ & _ & Hd).
  destruct supported; cbn [negb fst snd] in *.
  - destruct (validated_raw (CONFIG w1)) as [Hraw _].
    destruct (validated (CONFIG w1)) as [cfg configValid]. cbn [fst snd] in *.
    destruct (syncCookiesToStorage_listeners (set_CONFIG cfg w1))
      as (SL & SH & SC & report & SD).
    cbn [set_CONFIG storageListeners hostname CONFIG dispatched] in SL, SH, SC, SD.
    unfold setupLocalChangeDetection, setupStorageListener in *.
    cbn [set_prototype add_storageListener hostname CONFIG storageListeners
         dispatched Storage_setItem Storage_removeItem Storage_clear] in *.
    split; [reflexivity|]. split; [congruence|]. split; [discriminate|].
    intros _. destruct M as (_ & _ & _ & M1 & M2 & M3).
    rewrite SC, Hraw, Hc.
    split; [reflexivity|].
    split; [|split; [exact M1|split; [exact M2|split; [exact M3|]]]].
    + destruct (validateConfig_fields (to_raw (CONFIG w)))
        as (T1 & T2 & T3 & T4 & T5 & (ks & Hks & _)).
      unfold valid_fields. repeat (split; [assumption|]). now exists ks.
    + split; [congruence|]. exists report. congruence.
  - split; [reflexivity|]. split; [exact Hh|]. split; [|discriminate].
    intros _. split; [exact Hc|]. split; [now apply setup_methods|].
    split; [exact Hl|]. split; [exact Hd | now apply F1].
Qed.

(** The example page: [init] succeeds once more on the loaded module. *)
Lemma init_outcome_witness :
  let w := module_load example_page in
  snd (init w) = true
  /\ Storage_setItem (fst (init w)) = Wrapper Native
  /\ storageListeners (fst (init w)) = 2%nat.
Proof.
  intros w.
  destruct (init_outcome w) as (_ & _ & _ & Hyes).
  assert (Hs : snd (init w) = true) by (vm_compute; reflexivity).
  destruct (Hyes Hs) as (_ & _ & Hset & _ & _ & Hl & _).
  split; [exact Hs|]. split; [exact Hset | exact Hl].
Defined.

Lemma wrapped_removeItem_once (s : StorageId) (key : jsval) (w : World) :
  Storage_removeItem w = Wrapper Native ->
  shouldSyncStorage (CONFIG w) s = true ->
  shouldSync (CONFIG w) key = true ->
  document (removeItem s key w)
  = snd (deleteFromCookie (CONFIG w) (hostname w) key (document w)).
Proof.
  intros Hslot Hs Hk. unfold removeItem. rewrite Hslot.
  cbn [call_removeItem set_storage CONFIG]. rewrite Hs, Hk. reflexivity.
Qed.

Lemma testKey_sanitized : sanitizeKey (JStr testKey) = Some testKey.
Proof. reflexivity. Qed.

(** X25.  Once the wrappers are installed, as on every [reinitialize],
    the write probe goes through them: with [localStorage] in scope and a
    key matcher that accepts the probe key, a successful probe assigns
    [document.cookie] twice, once to write the cookie of the probe key and
    once to delete it; afterwards that cookie reads as [null], and the store
    is as it was if it held no such cookie. *)
Theorem isEnvironmentSupported_probe_cookie (w : World) :
  let cfg := CONFIG w in
  let w1 := fst (isEnvironmentSupported w) in
  Storage_setItem w = Wrapper Native -> Storage_removeItem w = Wrapper Native ->
  shouldSyncStorage cfg LocalStorage = true ->
  shouldSync cfg (JStr testKey) = true ->
  writable cfg (hostname w) -> jar_ok (jar (document w)) = true ->
  fits cfg (document w) testKey (js "test") ->
  snd (isEnvironmentSupported w) = true ->
  length (assigned (document w1)) = (length (assigned (document w)) + 2)%nat
  /\ readFromCookie cfg (JStr testKey) (document w1) = None
  /\ (~ In (cookiePrefix cfg ++ testKey) (map fst (jar (document w))) ->
      jar (document w1) = jar (document w)).
Proof.
  intros cfg w1 Hset Hrem Hs Hk Hw Hj Hfit Hret. subst cfg w1.
  assert (Hprobe : isEnvironmentSupported w
                   = let (w1, returned) :=
                       setItem LocalStorage (JStr testKey) (JStr (js "test")) w in
                     if returned
                     then (removeItem LocalStorage (JStr testKey) w1, true)
                     else (w1, false)) by reflexivity.
  rewrite Hprobe in *. clear Hprobe.
  pose proof (wrapped_setItem_storage LocalStorage (JStr testKey)
                (JStr (js "test")) w Hset) as Hst.
  pose proof (@wrapped_setItem_once LocalStorage (JStr testKey)
                (JStr (js "test")) w Hset Hs Hk) as Hdoc.
  destruct (setItem LocalStorage (JStr testKey) (JStr (js "test")) w)
    as [w1 returned].
  cbn [fst snd] in *. destruct returned; [|discriminate Hret]. cbn [fst].
  destruct (Hst eq_refl) as (_ & _ & S1). specialize (Hdoc eq_refl).
  pose proof (setup_CONFIG S1) as Hc. pose proof (setup_hostname S1) as Hh.
  assert (Hrem1 : Storage_removeItem w1 = Wrapper Native).
  { unfold same_setup in S1. destruct S1 as (_ & _ & _ & R & _). congruence. }
  rewrite (wrapped_removeItem_once LocalStorage (JStr testKey) w1 Hrem1)
    by (rewrite Hc; assumption).
  rewrite Hc, Hh, Hdoc.
  set (d1 := snd (writeToCookie (CONFIG w) (hostname w) (JStr testKey)
                                (JStr (js "test")) (document w))).
  destruct (writeToCookie_then_read (CONFIG w) (hostname w) (JStr testKey)
              (JStr (js "test")) (document w) testKey (js "test")
              Hw Hj testKey_sanitized eq_refl eq_refl eq_refl Hfit)
    as (Hok & Hj1 & Hl1 & (enc & Henc & Hjar1) & _).
  fold d1 in Hj1, Hl1, Hjar1.
  destruct (@writeToCookie_assigns (CONFIG w) (hostname w) (JStr testKey)
              (JStr (js "test")) (document w)) as [Hy _].
  destruct (Hy Hok) as [text Ht]. fold d1 in Ht.
  assert (Hname : within (size_limit d1)
                         (octets (cookiePrefix (CONFIG w) ++ testKey)) = true).
  { rewrite Hl1. unfold fits, cookie_size in Hfit. rewrite Henc in Hfit.
    destruct (size_limit (document w)) as [l|]; [|reflexivity].
    cbn [within] in *. apply Nat.leb_le in Hfit. apply Nat.leb_le. lia. }
  destruct (deleteFromCookie_then_read (CONFIG w) (hostname w) (JStr testKey)
              d1 testKey Hw Hj1 testKey_sanitized Hname)
    as (_ & _ & _ & Hjar2 & Hread).
  split; [|split].
  - unfold deleteFromCookie. rewrite testKey_sanitized.
    cbn [testKey js list_ascii_of_string map snd document_cookie_set assigned].
    rewrite length_app, Ht, length_app. cbn [length]. lia.
  - rewrite (Hread (JStr testKey) testKey testKey_sanitized).
    now rewrite jstring_eqb_refl.
  - intros Habs. rewrite Hjar2, Hjar1. unfold jar_remove, jar_put.
    now apply assoc_remove_put_absent.
Qed.

(** The example page with the module loaded: the probe of a
    reinitialisation. *)
Lemma isEnvironmentSupported_probe_cookie_witness :
  let w := module_load example_page in
  let w1 := fst (isEnvironmentSupported w) in
  length (assigned (document w1)) = (length (assigned (document w)) + 2)%nat
  /\ jar (document w1) = jar (document w).
Proof.
  intros w w1.
  destruct (isEnvironmentSupported_probe_cookie w)
    as (Ha & _ & Hjar); try (vm_compute; reflexivity).
  - repeat split.
  - split; [exact Ha|]. apply Hjar. vm_compute.
    intros [H|[H|[H|[]]]]; discriminate H.
Defined.

(* --------------------------------------------------------------------- *)
(** ** The quota of an area is never changed *)

Lemma native_setItem_quota (k v : jstring) (st st' : Storage) :
  native_setItem k v st = Some st' -> quota st' = quota st.
Proof.
  unfold native_setItem. destruct (quota st);
    [destruct (Nat.ltb _ _); [discriminate|]|]; now intros [= <-].
Qed.

Lemma call_setItem_quota (fn : Method) (s : StorageId) (key value : jsval)
      (w : World) (s' : StorageId) :
  quota (storage_of (fst (call_setItem fn s key value w)) s')
  = quota (storage_of w s').
Proof.
  induction fn as [|original IH]; cbn [call_setItem].
  - destruct (native_setItem _ _ _) as [st|] eqn:E; cbn [fst].
    + apply native_setItem_quota in E. destruct s, s'; cbn in *; congruence.
    + now destruct s'.
  - destruct (call_setItem original s key value w) as [w1 returned].
    cbn [fst] in *. destruct returned; [|exact IH].
    destruct (_ && _); cbn [fst]; [|exact IH].
    rewrite <- IH. now destruct s'.
Qed.

Lemma call_removeItem_quota (fn : Method) (s : StorageId) (key : jsval)
      (w : World) (s' : StorageId) :
  quota (storage_of (call_removeItem fn s key w) s') = quota (storage_of w s').
Proof.
  induction fn as [|original IH]; cbn [call_removeItem].
  - destruct s, s'; reflexivity.
  - destruct (_ && _); [|exact IH]. rewrite <- IH. now destruct s'.
Qed.

Lemma sync_entry_quota (s : StorageId) (e : jstring * jstring) (p : Pass)
      (s' : StorageId) :
  quota (storage_of (pass_world (sync_entry s e p)) s')
  = quota (storage_of (pass_world p) s').
Proof.
  unfold sync_entry.
  destruct (negb (shouldSync _ _)); [reflexivity|].
  destruct (_ && _).
  - pose proof (call_setItem_quota (originalSetItem (pass_world p)) s
                  (JStr (fst e)) (JStr (snd e)) (pass_world p) s') as H.
    destruct (call_setItem _ _ _ _ _) as [w' [|]]; exact H.
  - destruct (_ && _); reflexivity.
Qed.

Lemma replay_quota (syncData : Obj) (w : World) (s' : StorageId) :
  quota (storage_of (pass_world (replay syncData w)) s')
  = quota (storage_of w s').
Proof.
  unfold replay.
  assert (Inner : forall s es p,
             quota (storage_of (pass_world
                      (fold_left (fun p e => sync_entry s e p) es p)) s')
             = quota (storage_of (pass_world p) s')).
  { intros s es. induction es as [|e es IH]; intros p; cbn [fold_left].
    - reflexivity.
    - rewrite IH. apply sync_entry_quota. }
  assert (Outer : forall L total,
             quota (storage_of (pass_world
                      (fold_left (sync_storage (Object_entries syncData))
                                 L total)) s')
             = quota (storage_of (pass_world total) s')).
  { induction L as [|s L IH]; intros total; cbn [fold_left].
    - reflexivity.
    - rewrite IH. unfold sync_storage. cbn [pass_world].
      apply (Inner s _ (mkPass (pass_world total) 0 (pass_syncedKeys total)
                               (pass_skippedKeys total))). }
  apply (Outer _ (mkPass w 0 [] [])).
Qed.

Lemma init_quota (w : World) (s' : StorageId) :
  quota (storage_of (fst (init w)) s') = quota (storage_of w s').
Proof.
  unfold init, isEnvironmentSupported.
  pose proof (call_setItem_quota (Storage_setItem w) LocalStorage
                (JStr (js "__storage_sync_test__")) (JStr (js "test")) w s')
    as H1.
  destruct (call_setItem _ _ _ _ _) as [w1 returned]. cbn [fst] in H1.
  destruct returned; cbn [negb fst]; [|exact H1].
  pose proof (call_removeItem_quota (Storage_removeItem w1) LocalStorage
                (JStr (js "__storage_sync_test__")) w1 s') as H2.
  set (w2 := call_removeItem _ _ _ w1) in *.
  destruct (validated (CONFIG w2)) as [cfg configValid]. cbn [fst].
  unfold syncCookiesToStorage.
  set (syncData := getAllSyncCookies _ _).
  pose proof (replay_quota syncData (set_CONFIG cfg w2) s') as H3.
  set (p := replay syncData (set_CONFIG cfg w2)) in *.
  destruct (dispatch_frame (report_of syncData p) (pass_world p))
    as (_ & _ & FS & _).
  assert (H4 : storage_of (setupLocalChangeDetection (setupStorageListener
                 (dispatchSyncCompleteEvent (report_of syncData p)
                                            (pass_world p)))) s'
               = storage_of (pass_world p) s').
  { rewrite <- FS. now destruct s'. }
  rewrite H4, H3. rewrite <- H1, <- H2. now destruct s'.
Qed.

Lemma init_succeeds (w : World) :
  quota (localStorage w) = None -> snd (init w) = true.
Proof.
  intros Hq. unfold init, isEnvironmentSupported.
  pose proof (call_setItem_result (Storage_setItem w) LocalStorage
                (JStr (js "__storage_sync_test__")) (JStr (js "test")) w) as H.
  destruct (call_setItem _ _ _ _ _) as [w1 returned]. cbn [snd] in H.
  destruct (native_setItem_no_quota (to_string (JStr (js "__storage_sync_test__")))
              (to_string (JStr (js "test"))) (storage_of w LocalStorage) Hq)
    as (st & E & _).
  rewrite E in H. subst returned. cbn [negb].
  now destruct (validated _).
Qed.

Lemma init_listeners (w : World) :
  storageListeners (fst (init w))
  = if snd (init w) then S (storageListeners w) else storageListeners w.
Proof.
  unfold init.
  pose proof (isEnvironmentSupported_setup w) as H1.
  destruct (isEnvironmentSupported w) as [w1 supported]. cbn [fst] in H1.
  unfold same_setup in H1.
  destruct H1 as (_ & _ & _ & _ & _ & _ & _ & _ & Hl & _).
  destruct supported; cbn [negb fst snd]; [|exact Hl].
  destruct (validated (CONFIG w1)) as [cfg configValid]. cbn [fst snd].
  destruct (syncCookiesToStorage_listeners (set_CONFIG cfg w1)) as (SL & _).
  unfold setupLocalChangeDetection, setupStorageListener.
  cbn [set_prototype add_storageListener storageListeners].
  rewrite SL. cbn [set_CONFIG storageListeners]. now rewrite Hl.
Qed.

(** X26.  Every successful initialisation registers one more [storage]
    listener and none is ever removed: on a page whose [localStorage] has
    no quota to exceed, after the module has loaded and [reinitialize] has
    run [n] times, [n + 1] listeners are registered, although the wrappers
    are installed only once. *)
Theorem reinitialize_adds_listener (p : Page) (n : nat) :
  quota (page_localStorage p) = None ->
  let w := Nat.iter n (fun w => fst (reinitialize w)) (module_load p) in
  isInitialized w = true
  /\ storageListeners w = S n
  /\ Storage_setItem w = Wrapper Native.
Proof.
  intros Hq w.
  assert (H : isInitialized w = true /\ storageListeners w = S n
              /\ quota (localStorage w) = None).
  { subst w. induction n as [|n IH].
    - cbn [Nat.iter nat_rect]. unfold module_load.
      set (w0 := mkWorld _ _ _ _ _ _ _ _ _ _ _ _ _ _ _ _ _ _).
      pose proof (init_succeeds w0 Hq) as Hs.
      pose proof (init_listeners w0) as Hl.
      pose proof (init_quota w0 LocalStorage) as Hq0.
      destruct (init w0) as [w1 ok]. cbn [fst snd] in *. subst ok.
      cbn [set_promise set_isInitialized isInitialized storageListeners
           localStorage storage_of] in *.
      split; [reflexivity|]. split; [exact Hl|]. now rewrite Hq0.
    - destruct IH as (_ & IHl & IHq).
      change (Nat.iter (S n) (fun w => fst (reinitialize w)) (module_load p))
        with (fst (reinitialize
                     (Nat.iter n (fun w => fst (reinitialize w))
                               (module_load p)))).
      set (w := Nat.iter n (fun w => fst (reinitialize w)) (module_load p)) in *.
      unfold reinitialize.
      pose proof (init_succeeds w IHq) as Hs.
      pose proof (init_listeners w) as Hl.
      pose proof (init_quota w LocalStorage) as Hq0.
      destruct (init w) as [w1 ok]. cbn [fst snd] in *. subst ok.
      cbn [set_isInitialized isInitialized storageListeners localStorage
           storage_of] in *.
      split; [reflexivity|]. split; [now rewrite Hl, IHl|]. now rewrite Hq0. }
  destruct H as (Hi & Hl & _). split; [exact Hi|]. split; [exact Hl|].
  destruct (reinitialize_many_single_wrapper p n) as [_ I].
  now destruct (I Hi).
Qed.

Lemma reinitialize_adds_listener_witness :
  let w := Nat.iter 3 (fun w => fst (reinitialize w))
                    (module_load example_page) in
  storageListeners w = 4%nat /\ Storage_setItem w = Wrapper Native.
Proof.
  intros w.
  destruct (reinitialize_adds_listener example_page 3 eq_refl) as (_ & A & B).
  split; [exact A | exact B].
Defined.

(* --------------------------------------------------------------------- *)
(** ** Cross-tab notifications *)






(* --------------------------------------------------------------------- *)
(** ** From one sub-domain to another *)





